(** * Duplicate tweet detection: a shallow embedding of [duplicate_detector.py]

    The development follows the Python module top to bottom: the [Tweet]
    class (date parsing, mention extraction, content normalisation), the
    [DuplicateDetector] class (loading, similarity, clustering, resolution,
    report, re-serialisation) and the command line entry point [main].

    Python library values are modelled as follows.
    - [str] is a list of Unicode code points.  The texts the program handles
      are decoded from UTF-8 files, so they hold no lone surrogate and
      encoding them again never fails.
    - A [datetime] is the instant its fields denote on the wall clock, in
      microseconds since 0001-01-01T00:00:00, with an optional UTC offset
      ([None] for a naive value).  Python compares and subtracts the fields
      of two values exactly as it would these instants.
    - A [float] score [2.0 * m / t] is the exact rational [2m/t], and a
      threshold or the literal [0.9] is the decimal number written.  The
      value Python holds is the correctly rounded image of the rational:
      equal rationals give equal floats, rounding keeps their order, and two
      different rationals of this kind round to different floats as long
      as the product of their denominators stays below 2^53, far beyond
      the length of any text.  The scores 1/4 and 1/2 met below are floats
      themselves.  A threshold that is not a number ([--threshold nan])
      fails every test [similarity >= threshold]; so does a rational
      threshold above 1, no score being above 1 ([similarity_le_1]), and the
      statements about rejected pairs say no more than that the test fails.
    - Exceptions are the [Raise] branch of [result]. *)

From stdpp Require Import base numbers list strings gmap sets sorting.
From Stdlib Require Import QArith Lia.

Set Warnings "-clear-no-such-hyp".

Local Open Scope Z_scope.

(** ** Python strings *)

Module PyStr.

(** A character is its code point, a string the list of its characters. *)
Abbreviation char := N (only parsing).
Abbreviation str := (list N) (only parsing).

(** An ASCII literal as a Python string. *)
Definition lit (s : string) : str :=
  (λ a, Ascii.N_of_ascii a) <$> String.list_ascii_of_string s.

Definition chr_eqb (c d : char) : bool := N.eqb c d.

Fixpoint str_eqb (s t : str) : bool :=
  match s, t with
  | [], [] => true
  | c :: s', d :: t' => chr_eqb c d && str_eqb s' t'
  | _, _ => false
  end.

(** [str.isspace] on one character; also the class [\s] of [re] on [str]
    patterns (both go through [Py_UNICODE_ISSPACE]). *)
Definition isspace (c : char) : bool :=
  (((9 <=? c) && (c <=? 13)) || ((28 <=? c) && (c <=? 32))
   || (c =? 133) || (c =? 160) || (c =? 5760)
   || ((8192 <=? c) && (c <=? 8202))
   || (c =? 8232) || (c =? 8233) || (c =? 8239) || (c =? 8287)
   || (c =? 12288))%N.

(** [s.startswith(p)] *)
Fixpoint startswith (p s : str) : bool :=
  match p, s with
  | [], _ => true
  | c :: p', d :: s' => chr_eqb c d && startswith p' s'
  | _ :: _, [] => false
  end.

(** [needle in hay] *)
Fixpoint contains (needle hay : str) : bool :=
  startswith needle hay ||
  match hay with
  | [] => false
  | _ :: hay' => contains needle hay'
  end.

Fixpoint dropwhile {A} (p : A → bool) (l : list A) : list A :=
  match l with
  | [] => []
  | x :: l' => if p x then dropwhile p l' else l
  end.

Definition lstrip (s : str) : str := dropwhile isspace s.
Definition rstrip (s : str) : str := reverse (dropwhile isspace (reverse s)).
(** [s.strip()] *)
Definition strip (s : str) : str := rstrip (lstrip s).

(** [s.replace(a, b)] for one-character [a] and [b]. *)
Definition replace_char (a b : char) (s : str) : str :=
  (λ c, if chr_eqb c a then b else c) <$> s.

(** [sep.join(parts)] *)
Fixpoint join (sep : str) (parts : list str) : str :=
  match parts with
  | [] => []
  | [p] => p
  | p :: rest => p ++ sep ++ join sep rest
  end.

(** Decimal rendering of a non-negative integer, as [str(n)] gives it. *)
Fixpoint digits_fuel (fuel : nat) (n : N) (acc : str) : str :=
  match fuel with
  | O => acc
  | S f =>
      let acc' := (48 + n mod 10)%N :: acc in
      if (n <? 10)%N then acc' else digits_fuel f (n / 10)%N acc'
  end.
Definition str_of_N (n : N) : str := digits_fuel (S (N.to_nat (N.log2 n))) n [].

(** [f"{n:0{w}d}"]: decimal, left-padded with zeros to width [w]. *)
Definition zpad (w : nat) (n : N) : str :=
  let d := str_of_N n in replicate (w - length d) 48%N ++ d.

(** The value of an all-digit string; [None] when a character is not an
    ASCII digit or the string is empty. *)
Definition digit_val (c : char) : option Z :=
  if ((48 <=? c) && (c <=? 57))%N then Some (Z.of_N c - 48) else None.
Fixpoint int_of_digits_acc (acc : Z) (s : str) : option Z :=
  match s with
  | [] => Some acc
  | c :: s' =>
      match digit_val c with
      | Some d => int_of_digits_acc (acc * 10 + d) s'
      | None => None
      end
  end.
Definition int_of_digits (s : str) : option Z :=
  match s with
  | [] => None
  | _ => int_of_digits_acc 0 s
  end.

End PyStr.
Export PyStr.

(** ** Exceptions *)

Inductive exn := TypeError | OverflowError | IndexError | ValueError | OSError.

Inductive result (A : Type) :=
| Ok (a : A)
| Raise (e : exn).
Arguments Ok {A} a.
Arguments Raise {A} e.

#[global] Instance result_ret : MRet result := λ A a, Ok a.
#[global] Instance result_bind : MBind result := λ A B k m,
  match m with
  | Ok a => k a
  | Raise e => Raise e
  end.

(** ** The [datetime] library values the program handles *)

Module Datetime.

(** A datetime value: the wall-clock instant of its fields and, for an
    aware value, its UTC offset, both in microseconds. *)
Record datetime := mk_datetime { wall_us : Z; utcoffset : option Z }.

(** A [timedelta] is a number of microseconds. *)
Definition timedelta := Z.

Definition us_per_second : Z := 1000000.
Definition us_per_day : Z := 86400 * us_per_second.

Definition is_leap (y : Z) : bool :=
  (y mod 4 =? 0) && (negb (y mod 100 =? 0) || (y mod 400 =? 0)).

Definition days_before_year (year : Z) : Z :=
  let y := year - 1 in y * 365 + y / 4 - y / 100 + y / 400.

Definition days_in_month (y m : Z) : Z :=
  if m =? 2 then (if is_leap y then 29 else 28)
  else if (m =? 4) || (m =? 6) || (m =? 9) || (m =? 11) then 30 else 31.

Definition days_before_month_table : list Z :=
  [0; 31; 59; 90; 120; 151; 181; 212; 243; 273; 304; 334].

Definition days_before_month (y m : Z) : Z :=
  default 0 (days_before_month_table !! Z.to_nat (m - 1))
  + (if (2 <? m) && is_leap y then 1 else 0).

Definition ymd2ord (y m d : Z) : Z :=
  days_before_year y + days_before_month y m + d.

(** The constructor [datetime(y, m, d, hh, mm, ss, us, tzinfo)]; [None]
    stands for the [ValueError] of an out-of-range field. *)
Definition datetime_of_fields (y m d hh mm ss us : Z) (tz : option Z)
  : option datetime :=
  if (1 <=? y) && (y <=? 9999) && (1 <=? m) && (m <=? 12)
     && (1 <=? d) && (d <=? days_in_month y m)
     && (0 <=? hh) && (hh <=? 23) && (0 <=? mm) && (mm <=? 59)
     && (0 <=? ss) && (ss <=? 59) && (0 <=? us) && (us <=? 999999)
  then Some (mk_datetime
               ((ymd2ord y m d - 1) * us_per_day
                + (hh * 3600 + mm * 60 + ss) * us_per_second + us) tz)
  else None.

(** [a - b] *)
Definition dt_sub (a b : datetime) : result timedelta :=
  match utcoffset a, utcoffset b with
  | None, None => Ok (wall_us a - wall_us b)
  | Some oa, Some ob => Ok (wall_us a - wall_us b + ob - oa)
  | _, _ => Raise TypeError
  end.

(** [a < b] *)
Definition dt_lt (a b : datetime) : result bool :=
  match utcoffset a, utcoffset b with
  | None, None => Ok (wall_us a <? wall_us b)
  | Some oa, Some ob => Ok (wall_us a - oa <? wall_us b - ob)
  | _, _ => Raise TypeError
  end.

(** [a <= b] *)
Definition dt_le (a b : datetime) : result bool :=
  match utcoffset a, utcoffset b with
  | None, None => Ok (wall_us a <=? wall_us b)
  | Some oa, Some ob => Ok (wall_us a - oa <=? wall_us b - ob)
  | _, _ => Raise TypeError
  end.

(** [timedelta(hours=h)]: the day count must stay within
    [-999999999, 999999999]. *)
Definition timedelta_hours (h : Z) : result timedelta :=
  let days := (h * 3600) / 86400 in
  if (-999999999 <=? days) && (days <=? 999999999)
  then Ok (h * 3600 * us_per_second)
  else Raise OverflowError.

(** *** Parsing *)

(** [int(s)] for a field of ASCII digits. *)
Definition field (s : str) (from len : nat) : option Z :=
  let f := take len (drop from s) in
  if (length f =? len)%nat then int_of_digits f else None.

(** [_parse_isoformat_date], on a string of exactly ten characters. *)
Definition parse_isoformat_date (dstr : str) : option (Z * Z * Z) :=
  y ← field dstr 0 4;
  _ ← guard (dstr !! 4%nat = Some 45%N);
  m ← field dstr 5 2;
  _ ← guard (dstr !! 7%nat = Some 45%N);
  d ← field dstr 8 2;
  Some (y, m, d).

(** The loop of [_parse_hh_mm_ss_ff] over the components [HH[:MM[:SS]]]:
    [comp] components remain; the result is the components read, padded
    with zeros, and the unread rest. *)
Fixpoint parse_hh_mm_ss (comp : nat) (t : str) : option (list Z * str) :=
  match comp with
  | O => Some ([], t)
  | S comp' =>
      v ← field t 0 2;
      let rest := drop 2 t in
      match rest, comp' with
      | [], _ => Some (v :: replicate comp' 0, [])
      | _, O => Some ([v], rest)
      | c :: rest', _ =>
          _ ← guard (c = 58%N);
          '(vs, r) ← parse_hh_mm_ss comp' rest';
          Some (v :: vs, r)
      end
  end.

(** [_parse_hh_mm_ss_ff]: [HH[:MM[:SS[.fff[fff]]]]] *)
Definition parse_hh_mm_ss_ff (t : str) : option (list Z) :=
  '(comps, rest) ← parse_hh_mm_ss 3 t;
  match rest with
  | [] => Some (comps ++ [0])
  | c :: frac =>
      _ ← guard (c = 46%N);
      if (length frac =? 3)%nat then us ← int_of_digits frac; Some (comps ++ [us * 1000])
      else if (length frac =? 6)%nat then us ← int_of_digits frac; Some (comps ++ [us])
      else None
  end.

(** Position of the first ['-'], else of the first ['+']. *)
Fixpoint find_char (c : char) (s : str) : option nat :=
  match s with
  | [] => None
  | d :: s' => if chr_eqb c d then Some O else S <$> find_char c s'
  end.

Definition comps_us (c : list Z) : Z :=
  match c with
  | [hh; mm; ss; us] => (hh * 3600 + mm * 60 + ss) * us_per_second + us
  | _ => 0
  end.

(** [_parse_isoformat_time]: the time fields and the UTC offset. *)
Definition parse_isoformat_time (t : str) : option (list Z * option Z) :=
  _ ← guard (2 ≤ length t)%nat;
  let tz_pos := match find_char 45%N t with
                | Some p => Some (p, -1)
                | None => (λ p, (p, 1)) <$> find_char 43%N t
                end in
  match tz_pos with
  | None => comps ← parse_hh_mm_ss_ff t; Some (comps, None)
  | Some (p, sign) =>
      comps ← parse_hh_mm_ss_ff (take p t);
      let tzstr := drop (S p) t in
      _ ← guard (length tzstr = 5 ∨ length tzstr = 8 ∨ length tzstr = 15)%nat;
      tzc ← parse_hh_mm_ss_ff tzstr;
      let off := sign * comps_us tzc in
      _ ← guard (- us_per_day < off < us_per_day);
      Some (comps, Some off)
  end.

(** [datetime.fromisoformat], as CPython 3.7 to 3.10 have it, for the
    extended ISO 8601 form
    [YYYY-MM-DDTHH[:MM[:SS[.fff[fff]]]][+HH:MM[:SS[.ffffff]]]] written
    with ASCII digits; the character between date and time is not looked
    at, and [None] is the [ValueError].  Later versions read more shapes. *)
Definition fromisoformat (s : str) : option datetime :=
  '(y, m, d) ← parse_isoformat_date (take 10 s);
  _ ← guard (length (take 10 s) = 10)%nat;
  let tstr := drop 11 s in
  match tstr with
  | [] => datetime_of_fields y m d 0 0 0 0 None
  | _ =>
      '(comps, tz) ← parse_isoformat_time tstr;
      match comps with
      | [hh; mm; ss; us] => datetime_of_fields y m d hh mm ss us tz
      | _ => None
      end
  end.

(** [datetime.strptime(s, "%Y-%m-%d")] on a string of ten characters
    written with ASCII digits; [None] is its [ValueError]. *)
Definition strptime_ymd (s : str) : option datetime :=
  _ ← guard (length s = 10)%nat;
  '(y, m, d) ← parse_isoformat_date s;
  datetime_of_fields y m d 0 0 0 0 None.

(** *** Rendering *)

(** [_ord2ymd] *)
Definition ord2ymd (ordinal : Z) : Z * Z * Z :=
  let n := ordinal - 1 in
  let n400 := n / 146097 in let n := n mod 146097 in
  let n100 := n / 36524 in let n := n mod 36524 in
  let n4 := n / 1461 in let n := n mod 1461 in
  let n1 := n / 365 in let n := n mod 365 in
  let year := n400 * 400 + 1 + n100 * 100 + n4 * 4 + n1 in
  if (n1 =? 4) || (n100 =? 4) then (year - 1, 12, 31)
  else
    let leapyear := (n1 =? 3) && (negb (n4 =? 24) || (n100 =? 3)) in
    let month := Z.shiftr (n + 50) 5 in
    let preceding := days_before_month 1 month
                     + (if (2 <? month) && leapyear then 1 else 0) in
    if n <? preceding
    then
      let month' := month - 1 in
      let preceding' := preceding
        - (days_in_month 1 month' + (if (month' =? 2) && leapyear then 1 else 0)) in
      (year, month', n - preceding' + 1)
    else (year, month, n - preceding + 1).

Record fields := mk_fields
  { year : Z; month : Z; day : Z; hour : Z; minute : Z; second : Z;
    microsecond : Z }.

Definition fields_of (dt : datetime) : fields :=
  let days := wall_us dt / us_per_day in
  let rem := wall_us dt mod us_per_day in
  let '(y, m, d) := ord2ymd (days + 1) in
  let secs := rem / us_per_second in
  mk_fields y m d (secs / 3600) (secs mod 3600 / 60) (secs mod 60)
            (rem mod us_per_second).

Definition dec (w : nat) (z : Z) : str := zpad w (Z.to_N z).

(** [dt.strftime("%Y-%m-%d")]; the C library prints the year unpadded. *)
Definition strftime_ymd (dt : datetime) : str :=
  let f := fields_of dt in
  str_of_N (Z.to_N (year f)) ++ lit "-" ++ dec 2 (month f) ++ lit "-" ++ dec 2 (day f).

(** [dt.strftime("%Y-%m-%d %H:%M")] *)
Definition strftime_ymd_hm (dt : datetime) : str :=
  let f := fields_of dt in
  strftime_ymd dt ++ lit " " ++ dec 2 (hour f) ++ lit ":" ++ dec 2 (minute f).

(** [_format_offset] *)
Definition format_offset (off : option Z) : str :=
  match off with
  | None => []
  | Some o =>
      let sign := if o <? 0 then lit "-" else lit "+" in
      let a := Z.abs o in
      let hh := a / (3600 * us_per_second) in
      let r := a mod (3600 * us_per_second) in
      let mm := r / (60 * us_per_second) in
      let ss := r mod (60 * us_per_second) in
      sign ++ dec 2 hh ++ lit ":" ++ dec 2 mm ++
      (if ss =? 0 then []
       else lit ":" ++ dec 2 (ss / us_per_second) ++
            (if ss mod us_per_second =? 0 then []
             else lit "." ++ dec 6 (ss mod us_per_second)))
  end.

(** [dt.isoformat()] *)
Definition isoformat (dt : datetime) : str :=
  let f := fields_of dt in
  dec 4 (year f) ++ lit "-" ++ dec 2 (month f) ++ lit "-" ++ dec 2 (day f)
  ++ lit "T" ++ dec 2 (hour f) ++ lit ":" ++ dec 2 (minute f) ++ lit ":"
  ++ dec 2 (second f)
  ++ (if microsecond f =? 0 then [] else lit "." ++ dec 6 (microsecond f))
  ++ format_offset (utcoffset dt).

End Datetime.
Export Datetime.

(** ** What the interpreter supplies

    The Unicode database behind [str.isalnum] (the class [\w] of [re] is
    [isalnum] plus the underscore) and the iteration order of a [set] of
    strings, which depends on the hash seed of the run. *)

Class Platform := {
  isalnum : char → bool;
  set_order : list str → list str;
}.

(** ** The regular expressions of the program *)

Module Re.

(** A pattern, given by its match at the head of a string: the number of
    characters matched there.  No pattern of the program matches the empty
    string. *)
Definition matcher := str → option nat.

(** Length of the longest prefix whose characters satisfy [p]. *)
Fixpoint span (p : char → bool) (s : str) : nat :=
  match s with
  | [] => O
  | c :: s' => if p c then S (span p s') else O
  end.

Definition nonempty_run (n : nat) : option nat :=
  match n with O => None | S _ => Some n end.

(** [\s+] *)
Definition ws_run : matcher := λ s, nonempty_run (span isspace s).

(** [://\S+] *)
Definition url_tail (s : str) : option nat :=
  if startswith (lit "://") s
  then (λ n, 3 + n)%nat <$> nonempty_run (span (λ c, negb (isspace c)) (drop 3 s))
  else None.

(** [https?://\S+]: the optional [s] is tried first, then skipped. *)
Definition url : matcher := λ s,
  if startswith (lit "http") s then
    let r := drop 4 s in
    match (if startswith (lit "s") r then url_tail (drop 1 r) else None) with
    | Some n => Some (5 + n)%nat
    | None => (λ n, 4 + n)%nat <$> url_tail r
    end
  else None.

Definition isword `{Platform} (c : char) : bool := isalnum c || chr_eqb c 95%N.

(** [@\w+] *)
Definition mention `{Platform} : matcher := λ s,
  match s with
  | c :: s' => if chr_eqb c 64%N then S <$> nonempty_run (span isword s') else None
  | [] => None
  end.

(** The scan of [re.sub(pattern, repl, s)]: at each position the pattern is
    tried; a match is replaced and the scan resumes behind it; otherwise
    the character is copied.  [skip] counts the characters of the current
    match still to pass over. *)
Fixpoint sub_scan (m : matcher) (repl : str) (skip : nat) (s : str) : str :=
  match s with
  | [] => []
  | c :: s' =>
      match skip with
      | S k => sub_scan m repl k s'
      | O =>
          match m s with
          | Some (S n) => repl ++ sub_scan m repl n s'
          | _ => c :: sub_scan m repl O s'
          end
      end
  end.
Definition sub (m : matcher) (repl s : str) : str := sub_scan m repl O s.

(** [re.findall(pattern, s)] for a pattern without groups. *)
Fixpoint findall_scan (m : matcher) (skip : nat) (s : str) : list str :=
  match s with
  | [] => []
  | c :: s' =>
      match skip with
      | S k => findall_scan m k s'
      | O =>
          match m s with
          | Some (S n) => take (S n) s :: findall_scan m n s'
          | _ => findall_scan m O s'
          end
      end
  end.
Definition findall (m : matcher) (s : str) : list str := findall_scan m O s.

(** The repetition [(?:\s+@\w+)*] at the head of [s]: the characters it
    takes.  An iteration that finds white space but no mention behind it is
    given up.  [fuel] bounds the iterations by the length of [s]. *)
Fixpoint more_mentions `{Platform} (fuel : nat) (s : str) : nat :=
  match fuel with
  | O => O
  | S f =>
      match ws_run s with
      | Some w =>
          match mention (drop w s) with
          | Some n => (w + n + more_mentions f (drop (w + n) s))%nat
          | None => O
          end
      | None => O
      end
  end.

(** Group 1 of the [re.match] in [_extract_reply_to]: a mention at the very
    start, then the repetition above. *)
Definition leading_mentions `{Platform} (s : str) : option str :=
  n ← mention s;
  Some (take (n + more_mentions (length s) (drop n s)) s).

End Re.

(** ** class Tweet *)

Record Tweet := mk_Tweet {
  date : datetime;
  original_content : str;
  reply_to : str;
  content : str;
  urls : list str;
}.

(** [date_str.replace('Z', '+00:00')] *)
Definition replace_Z (s : str) : str :=
  s ≫= (λ c, if chr_eqb c 90%N then lit "+00:00" else [c]).

(** [Tweet._parse_date]; [now] is the reading of [datetime.now()], a naive
    value. *)
Definition _parse_date (now : Z) (date_str : str) : datetime :=
  let fallback := mk_datetime now None in
  if contains (lit "T") date_str && contains (lit "Z") date_str
  then default fallback (fromisoformat (replace_Z date_str))
  else if (length date_str =? 10)%nat
  then default fallback (strptime_ymd date_str)
  else fallback.

(** [Tweet._extract_reply_to] *)
Definition _extract_reply_to `{Platform} (content : str) : str :=
  match content with
  | [] => []
  | _ =>
      match Re.leading_mentions (strip content) with
      | Some g => join (lit ", ") (Re.findall Re.mention g)
      | None =>
          match Re.findall Re.mention content with
          | [] => []
          | usernames => join (lit ", ") (set_order usernames)
          end
      end
  end.

Definition arabic_norm_map : list (char * char) :=
  [ (1571, 1575); (1573, 1575); (1570, 1575);
    (1577, 1607); (1609, 1610);
    (1574, 1610); (1572, 1608) ]%N.

(** [Tweet._normalize_content] *)
Definition _normalize_content `{Platform} (content : str) : str :=
  match content with
  | [] => []
  | _ =>
      let content := Re.sub Re.ws_run (lit " ") (strip content) in
      let content :=
        foldl (λ c '(original, normalized), replace_char original normalized c)
              content arabic_norm_map in
      let content := Re.sub Re.url [] content in
      let content := Re.sub Re.mention [] content in
      strip (Re.sub Re.ws_run (lit " ") content)
  end.

(** [Tweet.__init__] *)
Definition Tweet_init `{Platform} (now : Z) (date content reply_to : str)
    (urls : list str) : Tweet :=
  {| date := _parse_date now date;
     original_content := content;
     reply_to := match reply_to with
                 | [] => _extract_reply_to content
                 | _ => reply_to
                 end;
     content := _normalize_content content;
     urls := urls |}.

(** [Tweet.__str__] *)
Definition Tweet_str (t : Tweet) : str :=
  strftime_ymd_hm (date t) ++ lit " - " ++ take 50 (content t) ++ lit "...".

Section Hashes.
(** [hashlib.md5(s.encode('utf-8')).hexdigest()] *)
Variable md5_hex : str → str.

(** [Tweet._generate_signature]; the attribute [signature] is set once by
    the constructor from these two fields, which are never assigned again. *)
Definition signature (t : Tweet) : str :=
  md5_hex (strftime_ymd (date t) ++ lit "_" ++ content t).

(** [Tweet.get_content_hash] *)
Definition get_content_hash (t : Tweet) : str := md5_hex (content t).
End Hashes.

(** The platform of the examples: a table that agrees with [str.isalnum] on
    U+0000 to U+007F and on U+0600 to U+0669, where the characters of the
    examples lie, and a set of strings walked in the order of first
    occurrence. *)
Definition example_isalnum (c : char) : bool :=
  (((48 <=? c) && (c <=? 57)) || ((65 <=? c) && (c <=? 90))
   || ((97 <=? c) && (c <=? 122))
   || ((1568 <=? c) && (c <=? 1610)) || ((1632 <=? c) && (c <=? 1641)))%N.

Fixpoint first_occurrences (seen l : list str) : list str :=
  match l with
  | [] => []
  | x :: l' => if existsb (str_eqb x) seen then first_occurrences seen l'
               else x :: first_occurrences (x :: seen) l'
  end.

Definition example_platform : Platform :=
  {| isalnum := example_isalnum; set_order := first_occurrences [] |}.

(** ** [difflib.SequenceMatcher(None, a, b).ratio()] *)

Module Difflib.

(** [__chain_b]: the positions of every element of [b], in increasing
    order; when [b] has 200 elements or more, the elements that occur more
    than [n // 100 + 1] times are dropped.  No junk predicate is given, so
    the junk set stays empty. *)
Definition chain_b (b : str) : gmap char (list nat) :=
  let b2j :=
    foldl (λ (m : gmap char (list nat)) '(i, elt),
             <[elt := default [] (m !! elt) ++ [i]]> m)
          ∅ (imap pair b) in
  let n := length b in
  if (200 <=? n)%nat
  then filter (λ kv, ¬ (n / 100 + 1 < length kv.2)%nat) b2j
  else b2j.

Section FindLongestMatch.
Variables (a b : str) (b2j : gmap char (list nat)).

Definition best := (nat * nat * nat)%type.

(** [j2len.get(j - 1, 0)] *)
Definition j2len_prev (j2len : gmap nat nat) (j : nat) : nat :=
  match j with
  | O => O
  | S j' => default O (j2len !! j')
  end.

(** The loop over the positions [j] of [a[i]] in [b]. *)
Fixpoint row (blo bhi i : nat) (j2len : gmap nat nat) (js : list nat)
    (newj2len : gmap nat nat) (st : best) : gmap nat nat * best :=
  match js with
  | [] => (newj2len, st)
  | j :: js' =>
      if (j <? blo)%nat then row blo bhi i j2len js' newj2len st
      else if (bhi <=? j)%nat then (newj2len, st)
      else
        let k := S (j2len_prev j2len j) in
        let st' := if (st.2 <? k)%nat then (S i - k, S j - k, k)%nat else st in
        row blo bhi i j2len js' (<[j := k]> newj2len) st'
  end.

(** The loop over [i in range(alo, ahi)]. *)
Fixpoint rows (blo bhi : nat) (rng : list nat) (j2len : gmap nat nat)
    (st : best) : best :=
  match rng with
  | [] => st
  | i :: is' =>
      let js := match a !! i with
                | Some x => default [] (b2j !! x)
                | None => []
                end in
      let '(newj2len, st') := row blo bhi i j2len js ∅ st in
      rows blo bhi is' newj2len st'
  end.

Definition same_elt (i j : nat) : bool :=
  match a !! i, b !! j with
  | Some x, Some y => chr_eqb x y
  | _, _ => false
  end.

(** The first [while]: the match grows to the left. *)
Fixpoint extend_left (alo blo besti bestj bestsize : nat) : best :=
  match besti, bestj with
  | S i', S j' =>
      if (alo <? besti)%nat && (blo <? bestj)%nat && same_elt i' j'
      then extend_left alo blo i' j' (S bestsize)
      else (besti, bestj, bestsize)
  | _, _ => (besti, bestj, bestsize)
  end.

(** The second [while]: the match grows to the right; [room] is
    [ahi - (besti + bestsize)]. *)
Fixpoint extend_right (bhi besti bestj bestsize room : nat) : nat :=
  match room with
  | O => bestsize
  | S room' =>
      if (bestj + bestsize <? bhi)%nat
         && same_elt (besti + bestsize) (bestj + bestsize)
      then extend_right bhi besti bestj (S bestsize) room'
      else bestsize
  end.

(** [find_longest_match(alo, ahi, blo, bhi)]; the two loops over junk
    never run, the junk set being empty. *)
Definition find_longest_match (alo ahi blo bhi : nat) : best :=
  let '(besti, bestj, bestsize) :=
    rows blo bhi (seq alo (ahi - alo)) ∅ (alo, blo, O) in
  let '(besti, bestj, bestsize) := extend_left alo blo besti bestj bestsize in
  (besti, bestj,
   extend_right bhi besti bestj bestsize (ahi - (besti + bestsize))).

(** The [while queue] loop of [get_matching_blocks]; the queue is a
    stack whose top is the head of the list. *)
Fixpoint blocks_loop (fuel : nat) (queue : list (nat * nat * nat * nat))
    (matching_blocks : list best) : list best :=
  match fuel, queue with
  | _, [] => matching_blocks
  | O, _ => matching_blocks
  | S fuel', (alo, ahi, blo, bhi) :: queue' =>
      let '(i, j, k) := find_longest_match alo ahi blo bhi in
      match k with
      | O => blocks_loop fuel' queue' matching_blocks
      | S _ =>
          let q1 := if (alo <? i)%nat && (blo <? j)%nat
                    then (alo, i, blo, j) :: queue' else queue' in
          let q2 := if (i + k <? ahi)%nat && (j + k <? bhi)%nat
                    then (i + k, ahi, j + k, bhi)%nat :: q1 else q1 in
          blocks_loop fuel' q2 (matching_blocks ++ [(i, j, k)])
      end
  end.
End FindLongestMatch.

(** The blocks found by [get_matching_blocks], before they are sorted
    and adjacent ones merged; every pass of its loop shortens the part of
    [a] still queued, so [2 * len(a) + 1] passes empty the queue. *)
Definition found_blocks (a b : str) : list best :=
  blocks_loop a b (chain_b b) (2 * length a + 1)
              [(O, length a, O, length b)] [].

(** The sum of the block sizes, which sorting and merging keep. *)
Definition matches (a b : str) : nat :=
  foldr (λ blk acc, (blk.2 + acc)%nat) O (found_blocks a b).

(** [_calculate_ratio(matches, length)] *)
Definition calculate_ratio (matches length : nat) : Q :=
  match length with
  | O => 1
  | S _ => (2 * Z.of_nat matches) # (Pos.of_nat length)
  end.

Definition ratio (a b : str) : Q :=
  calculate_ratio (matches a b) (length a + length b).

End Difflib.

(** ** class DuplicateDetector *)

Record DuplicateDetector := mk_DuplicateDetector {
  content_threshold : Q;
  date_window : timedelta;
}.

(** [DuplicateDetector.__init__]; the lists [tweets] and [duplicate_groups]
    it also sets are never read by the module. *)
Definition DuplicateDetector_init (content_threshold : Q)
    (date_window_hours : Z) : result DuplicateDetector :=
  w ← timedelta_hours date_window_hours;
  Ok (mk_DuplicateDetector content_threshold w).

(** [max(similarity, 0.9)]: the second argument wins only when greater. *)
Definition max_floor (similarity : Q) : Q :=
  if Qle_bool (9 # 10) similarity then similarity else 9 # 10.

(** [calculate_content_similarity] *)
Definition calculate_content_similarity (text1 text2 : str) : Q :=
  match text1, text2 with
  | [], _ | _, [] => 0
  | _, _ =>
      let similarity := Difflib.ratio text1 text2 in
      if contains text1 text2 || contains text2 text1
      then max_floor similarity
      else similarity
  end.

(** [are_dates_close] *)
Definition are_dates_close (self : DuplicateDetector) (date1 date2 : datetime)
  : result bool :=
  d ← dt_sub date1 date2;
  Ok (Z.abs d <=? date_window self).

(** [tweets[i]] *)
Definition item {A} (l : list A) (i : nat) : result A :=
  match l !! i with
  | Some x => Ok x
  | None => Raise IndexError
  end.

Section FindDuplicates.
Variables (self : DuplicateDetector) (tweets : list Tweet).

(** The loop [for j in range(i + 1, n)] of [find_duplicates]. *)
Fixpoint scan_later (i : nat) (js : list nat) (group : list nat)
    (processed : gset nat) : result (list nat * gset nat) :=
  match js with
  | [] => Ok (group, processed)
  | j :: js' =>
      if decide (j ∈ processed) then scan_later i js' group processed
      else
        ti ← item tweets i;
        tj ← item tweets j;
        are_dates_close self (date ti) (date tj) ≫= λ close : bool,
        if negb close then scan_later i js' group processed
        else
          let similarity :=
            calculate_content_similarity (content ti) (content tj) in
          if Qle_bool (content_threshold self) similarity
          then scan_later i js' (group ++ [j]) (processed ∪ {[j]})
          else scan_later i js' group processed
  end.

(** The loop [for i in range(n)] of [find_duplicates]. *)
Fixpoint scan_anchors (n : nat) (rng : list nat) (duplicates : list (list nat))
    (processed : gset nat) : result (list (list nat)) :=
  match rng with
  | [] => Ok duplicates
  | i :: is' =>
      if decide (i ∈ processed) then scan_anchors n is' duplicates processed
      else
        '(group, processed) ←
           scan_later i (seq (S i) (n - S i)) [i] processed;
        if (1 <? length group)%nat
        then scan_anchors n is' (duplicates ++ [group])
                          (processed ∪ list_to_set group)
        else scan_anchors n is' duplicates processed
  end.

(** [find_duplicates] *)
Definition find_duplicates : result (list (list nat)) :=
  let n := length tweets in
  scan_anchors n (seq 0 n) [] ∅.

(** [min(group, key=lambda i: tweets[i].date)] after its first element:
    a later element replaces the best one only when its key is smaller. *)
Fixpoint min_by_date (best : nat) (rest : list nat) : result nat :=
  match rest with
  | [] => Ok best
  | i :: rest' =>
      ti ← item tweets i;
      tb ← item tweets best;
      dt_lt (date ti) (date tb) ≫= λ less : bool,
      min_by_date (if less then i else best) rest'
  end.

Definition earliest (group : list nat) : result nat :=
  match group with
  | [] => Raise ValueError
  | i :: rest => _ ← item tweets i; min_by_date i rest
  end.

(** The loop [for group in duplicate_indices] of [remove_duplicates]. *)
Fixpoint drop_losers (groups : list (list nat)) (to_keep : gset nat)
    : result (gset nat) :=
  match groups with
  | [] => Ok to_keep
  | group :: groups' =>
      earliest_idx ← earliest group;
      let to_remove : gset nat := list_to_set group ∖ {[earliest_idx]} in
      drop_losers groups' (to_keep ∖ to_remove)
  end.

(** [sorted(s)] for a set of indices. *)
Definition sorted (s : gset nat) : list nat := merge_sort Nat.le (elements s).

(** [remove_duplicates] *)
Definition remove_duplicates : result (list Tweet * list (list Tweet)) :=
  match tweets with
  | [] => Ok ([], [])
  | _ =>
      duplicate_indices ← find_duplicates;
      duplicate_groups ← mapM (mapM (item tweets)) duplicate_indices;
      to_keep ← drop_losers duplicate_indices
                            (list_to_set (seq 0 (length tweets)));
      cleaned_tweets ← mapM (item tweets) (sorted to_keep);
      Ok (cleaned_tweets, duplicate_groups)
  end.
End FindDuplicates.

(** *** The report *)

Record group_info := mk_group_info {
  group_id : nat;
  duplicate_count : nat;
  kept_tweet : str;
  removed_tweets : list str;
}.

Record report := mk_report {
  original_count : Z;
  cleaned_count : Z;
  removed_count : Z;
  duplicate_groups : nat;
  duplicate_details : list group_info;
}.

(** The body of the loop [for i, group in enumerate(duplicate_groups, 1)]. *)
Definition describe_group (i : nat) (group : list Tweet) : result group_info :=
  first ← item group 0;
  Ok {| group_id := i;
        duplicate_count := length group;
        kept_tweet := Tweet_str first;
        removed_tweets := Tweet_str <$> drop 1 group |}.

(** [generate_report], up to the writing of the file. *)
Definition generate_report (original_count : nat) (cleaned_tweets : list Tweet)
    (duplicate_groups : list (list Tweet)) : result report :=
  details ← mapM (λ p, describe_group (S p.1) p.2) (imap pair duplicate_groups);
  Ok {| original_count := Z.of_nat original_count;
        cleaned_count := Z.of_nat (length cleaned_tweets);
        removed_count := Z.of_nat original_count - Z.of_nat (length cleaned_tweets);
        duplicate_groups := length duplicate_groups;
        duplicate_details := details |}.

(** *** The text format *)

Definition nl : str := [10%N].
Definition rule : str := replicate 80 61%N.

(** What [save_cleaned_tweets] writes for one tweet. *)
Definition tweet_block (i : nat) (tweet : Tweet) : str :=
  lit "TWEET " ++ str_of_N (N.of_nat i) ++ nl
  ++ lit "Date: " ++ isoformat (date tweet) ++ nl
  ++ lit "REPLY TO: " ++ reply_to tweet ++ nl
  ++ lit "CONTENT:" ++ nl
  ++ content tweet ++ nl
  ++ (match urls tweet with
      | [] => []
      | us => nl ++ lit "URLS:" ++ nl
              ++ concat ((λ url, lit "- " ++ url ++ nl) <$> us)
      end)
  ++ nl ++ rule ++ nl ++ nl.

Fixpoint tweet_blocks (i : nat) (tweets : list Tweet) : str :=
  match tweets with
  | [] => []
  | t :: ts => tweet_block i t ++ tweet_blocks (S i) ts
  end.

(** The text [save_cleaned_tweets] writes to its file. *)
Definition cleaned_listing (tweets : list Tweet) : str :=
  lit "CLEANED TWEETS - DUPLICATES REMOVED" ++ nl
  ++ lit "Total tweets: " ++ str_of_N (N.of_nat (length tweets)) ++ nl
  ++ rule ++ nl ++ nl
  ++ tweet_blocks 1 tweets.

(** [f.readlines()] on a text file: a line ends with its terminator, which
    reads as a line feed whether it was written LF, CR or CR LF. *)
Fixpoint readlines_from (cur : str) (s : str) : list str :=
  match s with
  | [] => match cur with [] => [] | _ => [cur] end
  | c :: s' =>
      if chr_eqb c 10%N then (cur ++ nl) :: readlines_from [] s'
      else if chr_eqb c 13%N then
        (cur ++ nl) ::
        match s' with
        | d :: s'' => if chr_eqb d 10%N then readlines_from [] s''
                      else readlines_from [] s'
        | [] => []
        end
      else readlines_from (cur ++ [c]) s'
  end.
Definition readlines (s : str) : list str := readlines_from [] s.

(** The dictionary [current_tweet] of [load_from_file]: a key is present
    when its field is [Some]. *)
Record pending := mk_pending {
  p_date : option str;
  p_content : option str;
  p_reply_to : option str;
  p_urls : option (list str);
}.

Definition no_pending : pending := mk_pending None None None None.

Section Load.
Context `{Platform}.
(** [clock k] is the reading of [datetime.now()] while the tweet that
    becomes element [k] of the result is built. *)
Variable clock : nat → Z.

(** [if current_tweet and 'content' in current_tweet: tweets.append(...)] *)
Definition flush (tweets : list Tweet) (cur : pending) : list Tweet :=
  match p_content cur with
  | Some c =>
      tweets ++ [Tweet_init (clock (length tweets)) (default [] (p_date cur)) c
                            (default [] (p_reply_to cur))
                            (default [] (p_urls cur))]
  | None => tweets
  end.

(** One pass of the loop [for line in lines]. *)
Definition load_line (st : list Tweet * pending) (raw : str)
  : list Tweet * pending :=
  let '(tweets, cur) := st in
  let line := strip raw in
  if startswith (lit "Date:") line then
    (flush tweets cur, mk_pending (Some (strip (drop 6 line))) None None None)
  else if startswith (lit "REPLY TO:") line then
    (tweets, mk_pending (p_date cur) (p_content cur)
                        (Some (strip (drop 10 line))) (p_urls cur))
  else if str_eqb line (lit "CONTENT:") then st
  else if startswith (lit "URLS:") line then st
  else if startswith (lit "http") line && bool_decide (p_urls cur = None) then
    (tweets, mk_pending (p_date cur) (p_content cur) (p_reply_to cur)
                        (Some [line]))
  else if startswith (lit "- http") line then
    (tweets, mk_pending (p_date cur) (p_content cur) (p_reply_to cur)
                        (Some (default [] (p_urls cur) ++ [drop 2 line])))
  else if negb (str_eqb line []) && negb (contains (lit "=") line)
          && negb (contains (lit "TWEET") line)
          && negb (contains (lit "Archive") line) then
    (tweets, mk_pending (p_date cur)
                        (Some (match p_content cur with
                               | None => line
                               | Some c => c ++ lit " " ++ line
                               end))
                        (p_reply_to cur) (p_urls cur))
  else st.

(** [load_from_file] once the lines are read. *)
Definition load_lines (lines : list str) : list Tweet :=
  let '(tweets, cur) := foldl load_line ([], no_pending) lines in
  flush tweets cur.
End Load.

(** ** The files and the terminal *)

Inductive file := Text (s : str) | Unreadable.

Record world := mk_world {
  fs : gmap str file;
  writable : str → bool;
}.

Inductive message :=
| MsgFileNotFound (path : str)
| MsgLoading (path : str)
| MsgErrorLoading (path : str)
| MsgNoTweets
| MsgLoaded (n : nat)
| MsgThreshold (t : Q)
| MsgWindow (hours : Z)
| MsgDetecting
| MsgResults (original cleaned : nat) (removed : Z) (groups : nat)
| MsgSaved (path : str)
| MsgErrorSaving
| MsgReportSaved (path : str)
| MsgSampleHeader
| MsgSampleGroup (i size : nat)
| MsgSampleKept (rendering : str)
| MsgSampleRemoved (n : nat)
| MsgTraceback (e : exn).

Inductive payload := Listing (text : str) | ReportJson (r : report).

Inductive effect :=
| Print (m : message)
| WriteFile (path : str) (data : payload).

(** [load_from_file]: the tweets and what it prints. *)
Definition load_from_file `{Platform} (clock : nat → Z) (w : world)
    (filename : str) : list Tweet * list effect :=
  match fs w !! filename with
  | Some (Text s) => (load_lines clock (readlines s), [])
  | _ => ([], [Print (MsgErrorLoading filename)])
  end.

(** [save_cleaned_tweets] *)
Definition save_cleaned_tweets (w : world) (tweets : list Tweet)
    (output_filename : str) : list effect :=
  if writable w output_filename
  then [WriteFile output_filename (Listing (cleaned_listing tweets));
        Print (MsgSaved output_filename)]
  else [Print MsgErrorSaving].

Record args := mk_args {
  input_file : str;
  output : option str;
  report_path : option str;
  threshold : Q;
  window : Z;
}.

(** An option of the command line counts when given and not empty. *)
Definition given (o : option str) : option str :=
  match o with
  | Some (c :: p) => Some (c :: p)
  | _ => None
  end.

(** An exception nobody catches: the interpreter prints the traceback and
    exits with status 1. *)
Definition uncaught (done : list effect) (e : exn) : list effect * Z :=
  (done ++ [Print (MsgTraceback e)], 1).

(** The loop [for i, group in enumerate(duplicate_groups[:3], 1)] of [main]:
    what is printed, and the exception that ends it, if any. *)
Fixpoint show_samples (i : nat) (groups : list (list Tweet))
    (out : list effect) : list effect * option exn :=
  match groups with
  | [] => (out, None)
  | group :: rest =>
      let out := out ++ [Print (MsgSampleGroup i (length group))] in
      match item group 0 with
      | Raise e => (out, Some e)
      | Ok first =>
          let out := out ++ [Print (MsgSampleKept (Tweet_str first))] in
          let out := if (1 <? length group)%nat
                     then out ++ [Print (MsgSampleRemoved (length group - 1))]
                     else out in
          show_samples (S i) rest out
      end
  end.

(** [main], on parsed arguments: what it prints and writes, in order, and
    the exit status of the process. *)
Definition main `{Platform} (clock : nat → Z) (w : world) (a : args)
  : list effect * Z :=
  match fs w !! input_file a with
  | None => ([Print (MsgFileNotFound (input_file a))], 0)
  | Some _ =>
  match DuplicateDetector_init (threshold a) (window a) with
  | Raise e => uncaught [] e
  | Ok detector =>
  let out := [Print (MsgLoading (input_file a))] in
  let '(tweets, printed) := load_from_file clock w (input_file a) in
  let out := out ++ printed in
  match tweets with
  | [] => (out ++ [Print MsgNoTweets], 0)
  | _ =>
  let out := out ++ [Print (MsgLoaded (length tweets));
                     Print (MsgThreshold (threshold a));
                     Print (MsgWindow (window a)); Print MsgDetecting] in
  match remove_duplicates detector tweets with
  | Raise e => uncaught out e
  | Ok (cleaned_tweets, groups) =>
  let out := out ++ [Print (MsgResults (length tweets) (length cleaned_tweets)
                              (Z.of_nat (length tweets)
                               - Z.of_nat (length cleaned_tweets))
                              (length groups))] in
  let out := match given (output a) with
             | Some path => out ++ save_cleaned_tweets w cleaned_tweets path
             | None => out
             end in
  let reported :=
    match given (report_path a) with
    | Some path =>
        match generate_report (length tweets) cleaned_tweets groups with
        | Raise e => Raise e
        | Ok r => if writable w path
                  then Ok (out ++ [WriteFile path (ReportJson r);
                                   Print (MsgReportSaved path)])
                  else Raise OSError
        end
    | None => Ok out
    end in
  match reported with
  | Raise e => uncaught out e
  | Ok out =>
  match groups with
  | [] => (out, 0)
  | _ =>
      match show_samples 1 (take 3 groups) (out ++ [Print MsgSampleHeader]) with
      | (out, Some e) => uncaught out e
      | (out, None) => (out, 0)
      end
  end end end end end end.

(** ** Inputs of the examples *)

Definition day_us : Z := 24 * 3600 * 1000000.

(** The detector of the command line defaults: threshold 0.85, 24 hours. *)
Definition default_detector : DuplicateDetector :=
  mk_DuplicateDetector (85 # 100) day_us.

Definition example_clock : nat → Z := λ _, 63842256000000000.

Definition example_tweet (date content : string) : Tweet :=
  @Tweet_init example_platform (example_clock 0) (lit date) (lit content) [] [].

(** Three posts of one morning: the second contains the first and the
    third, which have nothing but two letters in common. *)
Definition chain_A : Tweet := example_tweet "2024-01-31T09:00:00.000Z" "hello".
Definition chain_B : Tweet := example_tweet "2024-01-31T10:00:00.000Z" "hello world".
Definition chain_C : Tweet := example_tweet "2024-01-31T11:00:00.000Z" "world".

(** The same text posted twice, the later post listed first. *)
Definition late_first : list Tweet :=
  [ example_tweet "2024-01-31T10:00:00.000Z" "good morning";
    example_tweet "2024-01-31T09:00:00.000Z" "good morning" ].

(** One date of each accepted shape. *)
Definition mixed_dates : list Tweet :=
  [ example_tweet "2024-01-31T10:46:43.000Z" "good morning";
    example_tweet "2024-01-31" "good morning" ].

(** A run of the tool on a path that is not there, with both outputs asked
    for. *)
Definition empty_world : world := mk_world ∅ (λ _, true).
Definition example_args : args :=
  mk_args (lit "tweets.txt") (Some (lit "clean.txt")) (Some (lit "report.json"))
          (85 # 100) 24.

(** The files a run writes. *)
Definition written (out : list effect) : list str :=
  out ≫= (λ e, match e with WriteFile p _ => [p] | Print _ => [] end).

(** ** Vocabulary of the statements *)

Definition aware (d : datetime) : bool := bool_decide (utcoffset d ≠ None).

(** The instant of a datetime on the UTC time line when it is aware, on the
    wall clock when it is naive. *)
Definition instant (d : datetime) : Z := wall_us d - default 0 (utcoffset d).

(** What [find_duplicates] guarantees of each group it returns. *)
Record good_group (tweets : list Tweet) (g : list nat) : Prop := {
  gg_size : (2 ≤ length g)%nat;
  gg_sorted : StronglySorted lt g;
  gg_valid : ∀ i, i ∈ g → (i < length tweets)%nat;
  gg_aware : ∃ w, ∀ i t, i ∈ g → tweets !! i = Some t → aware (date t) = w;
}.

Definition pairwise_disjoint (groups : list (list nat)) : Prop :=
  ∀ k1 k2 g1 g2,
    groups !! k1 = Some g1 → groups !! k2 = Some g2 → k1 ≠ k2 → g1 ## g2.

(** The invariant of the loop over the anchors. *)
Record anchors_inv (tweets : list Tweet) (duplicates : list (list nat))
    (processed : gset nat) : Prop := {
  ai_processed : ∀ x, x ∈ processed ↔ ∃ g, g ∈ duplicates ∧ x ∈ g;
  ai_good : ∀ g, g ∈ duplicates → good_group tweets g;
  ai_disjoint : pairwise_disjoint duplicates;
}.

(** The instant of the tweet at an index. *)
Definition instant_at (tweets : list Tweet) (i : nat) : Z :=
  default 0 (instant ∘ date <$> tweets !! i).

(** [k] wins against [m]: it is not later, and on equal instants it comes
    first in the input. *)
Definition beats (tweets : list Tweet) (k m : nat) : Prop :=
  instant_at tweets k ≤ instant_at tweets m
  ∧ (instant_at tweets m ≤ instant_at tweets k → (k ≤ m)%nat).

(** *** The sequence matcher *)

(** The part of [a] a queue of [get_matching_blocks] still has to look at. *)
Definition queue_weight (queue : list (nat * nat * nat * nat)) : nat :=
  foldr (λ '(alo, ahi, _, _) w, (2 * (ahi - alo) + 1 + w)%nat) O queue.

(** A best match lies to the right of [alo] and ends by [lim]. *)
Definition within (alo lim : nat) (st : Difflib.best) : Prop :=
  (alo ≤ st.1.1 ∧ st.1.1 + st.2 ≤ lim)%nat.

(** *** Normal forms *)

(** No position of [s] at which the pattern matches. *)
Fixpoint no_match (m : Re.matcher) (s : str) : Prop :=
  m s = None ∧ match s with [] => True | _ :: s' => no_match m s' end.

Definition starts_outside (p : char → bool) (s : str) : Prop :=
  match s with
  | c :: _ => p c = false
  | [] => True
  end.

(** White space occurs only as single blanks. *)
Fixpoint collapsed (s : str) : Prop :=
  match s with
  | [] => True
  | c :: s' =>
      (isspace c = true → c = 32%N ∧ starts_outside isspace s') ∧ collapsed s'
  end.

(** What the replacements of [arabic_norm_map] do to one character. *)
Definition fold_char (c : char) : char :=
  foldl (λ c '(original, normalized), if chr_eqb c original then normalized else c)
        c arabic_norm_map.

(** The steps of [_normalize_content] behind its guard. *)
Definition normalize_steps `{Platform} (content : str) : str :=
  let content := Re.sub Re.ws_run (lit " ") (strip content) in
  let content :=
    foldl (λ c '(original, normalized), replace_char original normalized c)
          content arabic_norm_map in
  let content := Re.sub Re.url [] content in
  let content := Re.sub Re.mention [] content in
  strip (Re.sub Re.ws_run (lit " ") content).

(** *** The text format, line by line *)

Definition no_break (c : char) : bool := negb (chr_eqb c 10%N) && negb (chr_eqb c 13%N).

(** The loader takes the line for a line of content. *)
Definition reads_as_content (c : str) : bool :=
  negb (startswith (lit "Date:") c) && negb (startswith (lit "REPLY TO:") c)
  && negb (str_eqb c (lit "CONTENT:")) && negb (startswith (lit "URLS:") c)
  && negb (startswith (lit "http") c) && negb (startswith (lit "- http") c)
  && negb (str_eqb c []) && negb (contains (lit "=") c)
  && negb (contains (lit "TWEET") c) && negb (contains (lit "Archive") c).

(** A kept record that the text format carries. *)
Record replayable `{Platform} (t : Tweet) : Prop := {
  rp_built : content t = _normalize_content (original_content t);
  rp_no_url : Re.sub Re.url [] (content t) = content t;
  rp_content : reads_as_content (content t) = true;
  rp_reply : forallb no_break (reply_to t) = true;
  rp_urls : Forall (λ u, startswith (lit "http") u = true
                         ∧ forallb no_break u = true) (urls t);
}.

(** The lines of [tweet_block], without their terminators. *)
Definition block_lines (i : nat) (tweet : Tweet) : list str :=
  [ lit "TWEET " ++ str_of_N (N.of_nat i);
    lit "Date: " ++ isoformat (date tweet);
    lit "REPLY TO: " ++ reply_to tweet;
    lit "CONTENT:";
    content tweet ]
  ++ (match urls tweet with
      | [] => []
      | us => [ []; lit "URLS:" ] ++ ((λ url, lit "- " ++ url) <$> us)
      end)
  ++ [ []; rule; [] ].

Definition header_lines (n : nat) : list str :=
  [ lit "CLEANED TWEETS - DUPLICATES REMOVED";
    lit "Total tweets: " ++ str_of_N (N.of_nat n);
    rule; [] ].

Fixpoint blocks_lines (i : nat) (tweets : list Tweet) : list str :=
  match tweets with
  | [] => []
  | t :: ts => block_lines i t ++ blocks_lines (S i) ts
  end.

Definition terminated (l : str) : str := l ++ nl.

Definition isdigit (c : char) : Prop := (48 ≤ c ≤ 57)%N.

(** A kept record the text format does not carry. *)
Definition sum_tweet : Tweet := example_tweet "2024-01-31" "1+1=2".

(** *** Further vocabulary *)

(** The two tests of [find_duplicates] on an anchor and a later tweet: both
    pass, or one of them fails.  The second test is
    [similarity >= self.content_threshold], and [unmatched] says no more of
    it than that it does not hold. *)
Definition matched (self : DuplicateDetector) (ti tj : Tweet) : Prop :=
  are_dates_close self (date ti) (date tj) = Ok true
  ∧ (content_threshold self
     <= calculate_content_similarity (content ti) (content tj))%Q.

Definition unmatched (self : DuplicateDetector) (ti tj : Tweet) : Prop :=
  are_dates_close self (date ti) (date tj) = Ok false
  ∨ are_dates_close self (date ti) (date tj) = Ok true
    ∧ ¬ (content_threshold self
         <= calculate_content_similarity (content ti) (content tj))%Q.

(** The tweets at two indices, and a relation between them. *)
Definition at_indices (tweets : list Tweet) (R : Tweet → Tweet → Prop)
    (i j : nat) : Prop :=
  ∃ ti tj, tweets !! i = Some ti ∧ tweets !! j = Some tj ∧ R ti tj.

(** Two posts of one text, and two posts that are nothing but the same
    link. *)
Definition links_only : list Tweet :=
  [ chain_A; example_tweet "2024-01-31T09:10:00.000Z" "https://example.org/a";
    chain_A; example_tweet "2024-01-31T09:20:00.000Z" "https://example.org/a" ].

(** [sum(len(g) - 1 for g in groups)] *)
Definition excess {A} (groups : list (list A)) : nat :=
  sum_list ((λ g, length g - 1)%nat <$> groups).

(** Three tweets whose dates are a plain date and two texts that are no
    date. *)
Definition plain_dates : list Tweet :=
  [ example_tweet "2024-01-31" "good morning";
    example_tweet "31 Jan 2024" "good morning";
    example_tweet "Unknown" "good night" ].

(** The characters of a reply-to string built by [_extract_reply_to]. *)
Definition reply_char `{Platform} (c : char) : Prop :=
  c = 64%N ∨ c = 44%N ∨ c = 32%N ∨ Re.isword c = true.

(** The loop of [generate_report] from group number [k + 1] on. *)
Definition describe_from (k : nat) (groups : list (list Tweet))
  : result (list group_info) :=
  mapM (λ p, describe_group (S p.1) p.2) (imap (λ i, pair (k + i)%nat) groups).

(** What every tweet built by the loader satisfies. *)
Definition loaded_shape `{Platform} (t : Tweet) : Prop :=
  original_content t ≠ [] ∧ (61%N ∉ original_content t)
  ∧ content t = _normalize_content (original_content t)
  ∧ Forall (λ u, startswith (lit "http") u = true) (urls t).

(** The same of the fields collected for the tweet under construction. *)
Definition pending_shape (cur : pending) : Prop :=
  (∀ c, p_content cur = Some c → c ≠ [] ∧ (61%N ∉ c))
  ∧ Forall (λ u, startswith (lit "http") u = true) (default [] (p_urls cur)).

(** The lines that open a record. *)
Definition date_lines (lines : list str) : list str :=
  filter (λ l, startswith (lit "Date:") (strip l) = true) lines.

(** The paths a run is asked to write and can write: the listing first, then
    the report. *)
Definition requested (w : world) (a : args) : list str :=
  match given (output a) with
  | Some p => if writable w p then [p] else []
  | None => []
  end
  ++ match given (report_path a) with
     | Some p => if writable w p then [p] else []
     | None => []
     end.

(** A file of two posts with plain dates, one with dates of both shapes, and
    the worlds that hold them; in the last one nothing can be written. *)
Definition plain_file : str :=
  concat (terminated <$> [ lit "Date: 2024-01-31"; lit "CONTENT:"; lit "hello";
                           lit "Date: 2024-01-31"; lit "CONTENT:";
                           lit "hello world" ]).
Definition mixed_file : str :=
  concat (terminated <$> [ lit "Date: 2024-01-31T10:46:43.000Z"; lit "CONTENT:";
                           lit "good morning";
                           lit "Date: 2024-01-31"; lit "CONTENT:";
                           lit "good morning" ]).
Definition plain_world : world :=
  mk_world {[ lit "tweets.txt" := Text plain_file ]} (λ _, true).
Definition mixed_world : world :=
  mk_world {[ lit "tweets.txt" := Text mixed_file ]} (λ _, true).
Definition locked_world : world :=
  mk_world {[ lit "tweets.txt" := Text plain_file ]} (λ _, false).

(** A best match starts at or after [blo] and ends by [bhi] in [b]. *)
Definition within_b (blo bhi : nat) (st : Difflib.best) : Prop :=
  (blo ≤ st.1.2 ∧ st.1.2 + st.2 ≤ bhi)%nat.

(** The parts of [a] and of [b] a queue still has to look at. *)
Definition span_a (queue : list (nat * nat * nat * nat)) : nat :=
  foldr (λ '(alo, ahi, _, _) w, (ahi - alo + w)%nat) O queue.
Definition span_b (queue : list (nat * nat * nat * nat)) : nat :=
  foldr (λ '(_, _, blo, bhi) w, (bhi - blo + w)%nat) O queue.

(** The sum of the sizes of a list of blocks. *)
Definition total_size (blocks : list Difflib.best) : nat :=
  foldr (λ blk acc, (blk.2 + acc)%nat) O blocks.

(** The shorter text is at most nine elevenths of the longer one. *)
Definition far_apart (a b : str) : Prop :=
  (20 * Nat.min (length a) (length b) ≤ 9 * (length a + length b))%nat.

(** A short text with a long one that contains it and repeats its letters. *)
Definition short_ba : str := concat (replicate 25 (lit "ba")).
Definition long_ab : str := concat (replicate 100 (lit "ab")).

(** The records a written tweet comes back as: one record with the same
    comparison text when the format carries the tweet. *)
Definition read_back `{Platform} (t : Tweet) (chunk : list Tweet) : Prop :=
  replayable t →
  ∃ t', chunk = [t'] ∧ content t' = content t
        ∧ ∀ md5_hex, get_content_hash md5_hex t' = get_content_hash md5_hex t.

(** What [save_cleaned_tweets] writes for one tweet behind its date line. *)
Definition block_rest (tweet : Tweet) : str :=
  lit "REPLY TO: " ++ reply_to tweet ++ nl
  ++ lit "CONTENT:" ++ nl
  ++ content tweet ++ nl
  ++ (match urls tweet with
      | [] => []
      | us => nl ++ lit "URLS:" ++ nl
              ++ concat ((λ url, lit "- " ++ url ++ nl) <$> us)
      end)
  ++ nl ++ rule ++ nl ++ nl.

(** A listing of three kept tweets; the format does not carry the second. *)
Definition partly_replayed : list Tweet :=
  [ @Tweet_init example_platform (example_clock 0)
      (lit "2024-01-31T09:00:00.000Z") (lit "@bob  see you   at nine")
      [] [lit "https://example.org/a"];
    sum_tweet;
    example_tweet "2024-01-31" "good morning" ].

(** A world whose input file is there and cannot be read. *)
Definition unreadable_world : world :=
  mk_world {[ lit "tweets.txt" := Unreadable ]} (λ _, true).

(** * Properties *)

(** ** Bounded loops run to their end *)

Lemma digits_fuel_enough (f : nat) :
  ∀ n acc more,
    (n < 10 ^ N.of_nat (S f))%N →
    digits_fuel (S f + more) n acc = digits_fuel (S f) n acc.
Proof.
  induction f as [|f IH]; intros n acc more Hn.
  - simpl. destruct (N.ltb_spec n 10) as [_ | Hge]; [done |].
    change (10 ^ N.of_nat 1)%N with 10%N in Hn. lia.
  - change (S (S f) + more)%nat with (S (S f + more)).
    cbn [digits_fuel]. destruct (n <? 10)%N eqn:E; [done |].
    apply IH. apply N.ltb_ge in E.
    apply N.Div0.div_lt_upper_bound.
    rewrite <- N.pow_succ_r'. by rewrite <- Nat2N.inj_succ.
Qed.

(** The decimal digits of [n] are no more than its binary digits. *)
Lemma str_of_N_enough (n : N) (more : nat) :
  digits_fuel (S (N.to_nat (N.log2 n)) + more) n [] = str_of_N n.
Proof.
  apply digits_fuel_enough. rewrite Nat2N.inj_succ, N2Nat.id.
  destruct (N.eq_dec n 0%N) as [-> | Hn]; [done |].
  eapply N.lt_le_trans; [apply N.log2_spec; lia |].
  apply N.pow_le_mono_l. lia.
Qed.

Lemma more_mentions_enough `{Platform} (fuel : nat) :
  ∀ s more,
    (length s ≤ fuel)%nat →
    Re.more_mentions (fuel + more) s = Re.more_mentions fuel s.
Proof.
  induction fuel as [|fuel IH]; intros s more Hs.
  - destruct s; [| simpl in Hs; lia]. by destruct more.
  - simpl. destruct (Re.ws_run s) as [w|] eqn:Ew; [| done].
    destruct (Re.mention (drop w s)) as [n|] eqn:En; [| done].
    rewrite IH; [done |].
    destruct s as [|c s]; [done |].
    unfold Re.ws_run in Ew. simpl in Ew. destruct (isspace c); [| done].
    injection Ew as <-. rewrite length_drop. simpl in *. lia.
Qed.

Section Matching.
Variables (a b : str) (b2j : gmap char (list nat)).

Lemma row_within (alo blo bhi i : nat) (j2len : gmap nat nat) (js : list nat) :
  (alo ≤ i)%nat →
  (∀ j k, j2len !! j = Some k → (k ≤ i - alo)%nat) →
  ∀ newj2len st,
    (∀ j k, newj2len !! j = Some k → (k ≤ S i - alo)%nat) →
    within alo (S i) st →
    let r := Difflib.row blo bhi i j2len js newj2len st in
    (∀ j k, r.1 !! j = Some k → (k ≤ S i - alo)%nat) ∧ within alo (S i) r.2.
Proof.
  intros Hi Hprev. induction js as [|j js IH]; intros newj2len st Hnew Hst; simpl.
  - done.
  - destruct (j <? blo)%nat; [by apply IH |].
    destruct (bhi <=? j)%nat; [done |].
    assert (Difflib.j2len_prev j2len j ≤ i - alo)%nat as Hk.
    { destruct j as [|j']; simpl; [lia |].
      destruct (j2len !! j') as [k|] eqn:E; simpl; [by eapply Hprev | lia]. }
    apply IH.
    + intros j0 k [[-> <-] | [_ ?]]%lookup_insert_Some; [lia | by eapply Hnew].
    + destruct (st.2 <? S (Difflib.j2len_prev j2len j))%nat; [| done].
      unfold within. simpl. lia.
Qed.

Lemma rows_within (alo blo bhi : nat) (n : nat) :
  ∀ i j2len st,
    (alo ≤ i)%nat →
    (∀ j k, j2len !! j = Some k → (k ≤ i - alo)%nat) →
    within alo i st →
    within alo (i + n) (Difflib.rows a b2j blo bhi (seq i n) j2len st).
Proof.
  induction n as [|n IH]; intros i j2len st Hi Hprev Hst; simpl.
  - by rewrite Nat.add_0_r.
  - destruct (row_within alo blo bhi i j2len
                match a !! i with
                | Some x => default [] (b2j !! x)
                | None => []
                end Hi Hprev ∅ st) as [Hnew Hst'].
    { intros j k. by rewrite lookup_empty. }
    { unfold within in *. lia. }
    destruct (Difflib.row _ _ _ _ _ _ _) as [newj2len st'].
    replace (i + S n)%nat with (S i + n)%nat by lia.
    apply IH; [lia | | done].
    intros j k Hjk. specialize (Hnew j k Hjk). lia.
Qed.

Lemma extend_left_within (alo blo lim : nat) (besti : nat) :
  ∀ bestj bestsize,
    within alo lim (besti, bestj, bestsize) →
    within alo lim (Difflib.extend_left a b alo blo besti bestj bestsize).
Proof.
  induction besti as [|i IH]; intros bestj bestsize Hst; simpl; [done |].
  destruct bestj as [|j]; [done |].
  destruct (alo <? S i)%nat eqn:E; simpl; [| done].
  destruct ((blo <? S j)%nat && Difflib.same_elt a b i j); [| done].
  apply IH. apply Nat.ltb_lt in E. unfold within in *. simpl in *. lia.
Qed.

Lemma extend_right_bound (bhi besti bestj : nat) (room : nat) :
  ∀ bestsize,
    (Difflib.extend_right a b bhi besti bestj bestsize room
     ≤ bestsize + room)%nat.
Proof.
  induction room as [|room IH]; intros bestsize; simpl; [lia |].
  destruct (_ && _); [| lia]. etrans; [apply IH | lia].
Qed.

Lemma find_longest_match_within (alo ahi blo bhi : nat) :
  let r := Difflib.find_longest_match a b b2j alo ahi blo bhi in
  r.2 ≠ O → (alo ≤ r.1.1 ∧ r.1.1 + r.2 ≤ ahi)%nat.
Proof.
  unfold Difflib.find_longest_match.
  pose proof (rows_within alo blo bhi (ahi - alo) alo ∅ (alo, blo, O)) as Hrows.
  destruct (Difflib.rows _ _ _ _ _ _ _) as [[i j] k].
  pose proof (extend_left_within alo blo (alo + (ahi - alo)) i j k) as Hleft.
  destruct (Difflib.extend_left _ _ _ _ _ _ _) as [[i' j'] k'].
  pose proof (extend_right_bound bhi i' j' (ahi - (i' + k')) k') as Hright.
  simpl. intros Hne.
  destruct Hleft as [Hlo Hhi].
  { apply Hrows; [done | | unfold within; simpl; lia].
    intros ? ?. by rewrite lookup_empty. }
  simpl in *. lia.
Qed.

Lemma blocks_loop_fuel (fuel : nat) :
  ∀ queue matching_blocks more,
    (queue_weight queue ≤ fuel)%nat →
    Difflib.blocks_loop a b b2j (fuel + more) queue matching_blocks
    = Difflib.blocks_loop a b b2j fuel queue matching_blocks.
Proof.
  induction fuel as [|fuel IH]; intros queue blocks more Hfuel.
  - destruct queue as [|[[[alo ahi] blo] bhi] queue]; simpl in Hfuel; [| lia].
    by destruct more.
  - destruct queue as [|[[[alo ahi] blo] bhi] queue]; [done |].
    simpl in Hfuel. simpl.
    pose proof (find_longest_match_within alo ahi blo bhi) as Hin.
    destruct (Difflib.find_longest_match a b b2j alo ahi blo bhi) as [[i j] k].
    simpl in Hin. destruct k as [|k]; [apply IH; lia |].
    destruct Hin as [Hlo Hhi]; [done |].
    apply IH.
    destruct (_ && _), (_ && _); simpl; lia.
Qed.
End Matching.

(** More passes than [2 * len(a) + 1] find the same blocks. *)
Lemma found_blocks_fuel (a b : str) (more : nat) :
  Difflib.blocks_loop a b (Difflib.chain_b b) (2 * length a + 1 + more)
                      [(O, length a, O, length b)] []
  = Difflib.found_blocks a b.
Proof. apply blocks_loop_fuel. simpl. lia. Qed.

(** *** The blocks fit into both texts *)

Section MatchingB.
Variables (a b : str) (b2j : gmap char (list nat)).

Lemma row_within_b (blo bhi i : nat) (j2len : gmap nat nat) (js : list nat) :
  (∀ j k, j2len !! j = Some k → (k ≤ S j - blo)%nat) →
  ∀ newj2len st,
    (∀ j k, newj2len !! j = Some k → (k ≤ S j - blo)%nat) →
    within_b blo bhi st →
    let r := Difflib.row blo bhi i j2len js newj2len st in
    (∀ j k, r.1 !! j = Some k → (k ≤ S j - blo)%nat) ∧ within_b blo bhi r.2.
Proof.
  intros Hprev. induction js as [|j js IH]; intros newj2len st Hnew Hst; simpl.
  - done.
  - destruct (Nat.ltb_spec j blo) as [? | Hlo]; [by apply IH |].
    destruct (Nat.leb_spec bhi j) as [? | Hhi]; [done |].
    assert (S (Difflib.j2len_prev j2len j) ≤ S j - blo)%nat as Hk.
    { destruct j as [|j']; simpl; [lia |].
      destruct (j2len !! j') as [k|] eqn:E; simpl; [| lia].
      specialize (Hprev j' k E). lia. }
    apply IH.
    + intros j0 k [[-> <-] | [_ ?]]%lookup_insert_Some; [lia | by eapply Hnew].
    + destruct (st.2 <? S (Difflib.j2len_prev j2len j))%nat; [| done].
      unfold within_b. simpl. lia.
Qed.

Lemma rows_within_b (blo bhi : nat) (rng : list nat) :
  ∀ j2len st,
    (∀ j k, j2len !! j = Some k → (k ≤ S j - blo)%nat) →
    within_b blo bhi st →
    within_b blo bhi (Difflib.rows a b2j blo bhi rng j2len st).
Proof.
  induction rng as [|i rng IH]; intros j2len st Hprev Hst; simpl; [done |].
  destruct (row_within_b blo bhi i j2len
              match a !! i with
              | Some x => default [] (b2j !! x)
              | None => []
              end Hprev ∅ st) as [Hnew Hst']; [| done |].
  { intros j k. by rewrite lookup_empty. }
  destruct (Difflib.row _ _ _ _ _ _ _) as [newj2len st'].
  by apply IH.
Qed.

Lemma extend_left_within_b (alo blo bhi : nat) (besti : nat) :
  ∀ bestj bestsize,
    within_b blo bhi (besti, bestj, bestsize) →
    within_b blo bhi (Difflib.extend_left a b alo blo besti bestj bestsize).
Proof.
  induction besti as [|i IH]; intros bestj bestsize Hst; simpl; [done |].
  destruct bestj as [|j]; [done |].
  destruct (alo <? S i)%nat; simpl; [| done].
  destruct (Nat.ltb_spec blo (S j)); simpl; [| done].
  destruct (Difflib.same_elt a b i j); [| done].
  apply IH. unfold within_b in *. simpl in *. lia.
Qed.

Lemma extend_right_within_b (bhi besti bestj : nat) (room : nat) :
  ∀ bestsize,
    (bestj + bestsize ≤ bhi)%nat →
    (bestj + Difflib.extend_right a b bhi besti bestj bestsize room ≤ bhi)%nat.
Proof.
  induction room as [|room IH]; intros bestsize Hst; simpl; [done |].
  destruct (Nat.ltb_spec (bestj + bestsize) bhi); simpl; [| done].
  destruct (Difflib.same_elt _ _ _ _); [| done]. apply IH. lia.
Qed.

Lemma find_longest_match_within_b (alo ahi blo bhi : nat) :
  (blo ≤ bhi)%nat →
  within_b blo bhi (Difflib.find_longest_match a b b2j alo ahi blo bhi).
Proof.
  intros Hb. unfold Difflib.find_longest_match.
  pose proof (rows_within_b blo bhi (seq alo (ahi - alo)) ∅ (alo, blo, O)) as Hrows.
  destruct (Difflib.rows _ _ _ _ _ _ _) as [[i j] k].
  pose proof (extend_left_within_b alo blo bhi i j k) as Hleft.
  destruct (Difflib.extend_left _ _ _ _ _ _ _) as [[i' j'] k'].
  pose proof (extend_right_within_b bhi i' j' (ahi - (i' + k')) k') as Hright.
  destruct Hleft as [Hlo Hhi].
  { apply Hrows; [| unfold within_b; simpl; lia].
    intros ? ?. by rewrite lookup_empty. }
  simpl in *. split; simpl; [done | by apply Hright].
Qed.

Lemma total_size_snoc (blocks : list Difflib.best) (blk : Difflib.best) :
  total_size (blocks ++ [blk]) = (total_size blocks + blk.2)%nat.
Proof.
  unfold total_size. induction blocks as [|x blocks IH]; simpl; [lia |].
  rewrite IH. lia.
Qed.

(** The blocks lie side by side in both texts: their sizes add up to no more
    than what the queue still spans. *)
Lemma blocks_loop_bound (fuel : nat) :
  ∀ queue blocks,
    Forall (λ '(alo, ahi, blo, bhi), blo ≤ bhi)%nat queue →
    (total_size (Difflib.blocks_loop a b b2j fuel queue blocks)
     ≤ total_size blocks + span_a queue)%nat
    ∧ (total_size (Difflib.blocks_loop a b b2j fuel queue blocks)
       ≤ total_size blocks + span_b queue)%nat.
Proof.
  induction fuel as [|fuel IH]; intros queue blocks Hq.
  - destruct queue; simpl; lia.
  - destruct queue as [|[[[alo ahi] blo] bhi] queue]; [simpl; lia |].
    apply Forall_cons in Hq as [Hb Hq]. cbn [Difflib.blocks_loop].
    pose proof (find_longest_match_within a b b2j alo ahi blo bhi) as Ha.
    pose proof (find_longest_match_within_b alo ahi blo bhi Hb) as [Hjlo Hjhi].
    destruct (Difflib.find_longest_match a b b2j alo ahi blo bhi) as [[i j] k].
    simpl in Ha, Hjlo, Hjhi. destruct k as [|k].
    { destruct (IH queue blocks Hq). simpl. lia. }
    destruct Ha as [Hilo Hihi]; [done |].
    match goal with
    | |- context [Difflib.blocks_loop a b b2j fuel ?q ?bl] =>
        destruct (IH q bl) as [IHa IHb]
    end.
    { destruct (Nat.ltb_spec alo i), (Nat.ltb_spec blo j),
        (Nat.ltb_spec (i + S k) ahi), (Nat.ltb_spec (j + S k) bhi); simpl;
        repeat (apply Forall_cons; split); try done; lia. }
    rewrite total_size_snoc in IHa, IHb. simpl in IHa, IHb.
    split.
    + etrans; [exact IHa |].
      destruct (Nat.ltb_spec alo i), (Nat.ltb_spec blo j),
        (Nat.ltb_spec (i + S k) ahi), (Nat.ltb_spec (j + S k) bhi); simpl; lia.
    + etrans; [exact IHb |].
      destruct (Nat.ltb_spec alo i), (Nat.ltb_spec blo j),
        (Nat.ltb_spec (i + S k) ahi), (Nat.ltb_spec (j + S k) bhi); simpl; lia.
Qed.
End MatchingB.

(** The matching blocks fit side by side into either text. *)
Lemma matches_bound (a b : str) :
  (Difflib.matches a b ≤ length a ∧ Difflib.matches a b ≤ length b)%nat.
Proof.
  destruct (blocks_loop_bound a b (Difflib.chain_b b) (2 * length a + 1)
              [(O, length a, O, length b)] []) as [Ha Hb].
  { constructor; [lia | constructor]. }
  change (total_size (Difflib.blocks_loop _ _ _ _ _ _))
    with (Difflib.matches a b) in Ha, Hb.
  change (total_size []) with O in Ha, Hb.
  change (span_a _) with (length a - 0 + 0)%nat in Ha.
  change (span_b _) with (length b - 0 + 0)%nat in Hb.
  lia.
Qed.

Lemma ratio_Qle (a b : str) (p q : nat) :
  (length a + length b ≠ 0)%nat → (0 < q)%nat →
  (2 * Difflib.matches a b * q ≤ p * (length a + length b))%nat →
  (Difflib.ratio a b <= Z.of_nat p # Pos.of_nat q)%Q.
Proof.
  intros Hlen Hq Hle. unfold Difflib.ratio, Difflib.calculate_ratio.
  destruct (length a + length b)%nat as [|n] eqn:E; [done |].
  unfold Qle. simpl Qnum. simpl Qden.
  rewrite <- (positive_nat_Z (Pos.of_nat q)),
    <- (positive_nat_Z (Pos.of_nat (S n))), !Nat2Pos.id by lia.
  nia.
Qed.

Lemma ratio_nonneg (a b : str) : (0 <= Difflib.ratio a b)%Q.
Proof.
  unfold Difflib.ratio, Difflib.calculate_ratio.
  destruct (length a + length b)%nat; [done |]. unfold Qle. simpl. lia.
Qed.

(** With an empty text on one side only, nothing matches. *)
Lemma ratio_one_empty (a b : str) :
  a = [] ∨ b = [] → a ≠ [] ∨ b ≠ [] → (Difflib.ratio a b == 0)%Q.
Proof.
  intros Hempty Hne. apply Qle_antisym; [| apply ratio_nonneg].
  apply (ratio_Qle a b 0 1); [| lia |].
  - destruct a, b; simpl; try lia. by destruct Hne.
  - destruct (matches_bound a b) as [Ha Hb].
    destruct Hempty as [-> | ->]; simpl in *; lia.
Qed.

(** ** Similarity *)

Lemma max_floor_ge_floor (s : Q) : (9 # 10 <= max_floor s)%Q.
Proof.
  unfold max_floor. destruct (Qle_bool (9 # 10) s) eqn:E.
  - by apply Qle_bool_iff.
  - apply Qle_refl.
Qed.

Lemma max_floor_ge_self (s : Q) : (s <= max_floor s)%Q.
Proof.
  unfold max_floor. destruct (Qle_bool (9 # 10) s) eqn:E.
  - apply Qle_refl.
  - apply Qlt_le_weak, Qnot_le_lt. intros Hle.
    apply Qle_bool_iff in Hle. congruence.
Qed.

Lemma max_floor_low (s : Q) : (s <= 9 # 10)%Q → (max_floor s == 9 # 10)%Q.
Proof.
  intros Hs. unfold max_floor. destruct (Qle_bool (9 # 10) s) eqn:E; [| done].
  apply Qle_bool_iff in E. by apply Qle_antisym.
Qed.

Lemma ratio_far_apart (a b : str) :
  a ≠ [] → far_apart a b → (Difflib.ratio a b <= 9 # 10)%Q.
Proof.
  intros Ha Hfar. apply (ratio_Qle a b 9 10); [| lia |].
  - destruct a; [done | simpl; lia].
  - destruct (matches_bound a b). unfold far_apart in Hfar. lia.
Qed.

Lemma far_apart_comm (a b : str) : far_apart a b → far_apart b a.
Proof. unfold far_apart. lia. Qed.

Lemma similarity_unfold (a b : str) :
  a ≠ [] → b ≠ [] →
  calculate_content_similarity a b
  = if contains a b || contains b a
    then max_floor (Difflib.ratio a b) else Difflib.ratio a b.
Proof. intros Ha Hb. by destruct a, b. Qed.

(** No score is above 1. *)
Lemma similarity_le_1 (a b : str) : (calculate_content_similarity a b <= 1)%Q.
Proof.
  destruct a as [|x a]; [done |]. destruct b as [|y b]; [done |].
  rewrite similarity_unfold by done.
  assert (Difflib.ratio (x :: a) (y :: b) <= 1)%Q as Hr.
  { apply (ratio_Qle (x :: a) (y :: b) 1 1); [simpl; lia | lia |].
    destruct (matches_bound (x :: a) (y :: b)). lia. }
  destruct (_ || _); [| done]. unfold max_floor.
  by destruct (Qle_bool (9 # 10) _).
Qed.

(** C4, as the code has it: the score is the same in both orders when a
    text is empty (0 both ways), and when one text contains the other and
    the shorter is at most nine elevenths of the longer (0.9 both ways,
    whatever the two ratios are); for two texts that are not empty it is
    the same in both orders exactly when the two ratios are, once floored
    at 0.9 if one text contains the other. *)
Theorem similarity_symmetry_cases (a b : str) :
  (a = [] ∨ b = [] →
   (calculate_content_similarity a b == 0)%Q
   ∧ (calculate_content_similarity b a == 0)%Q)
  ∧ (a ≠ [] → b ≠ [] → contains a b || contains b a = true → far_apart a b →
     (calculate_content_similarity a b == 9 # 10)%Q
     ∧ (calculate_content_similarity b a == 9 # 10)%Q)
  ∧ (a ≠ [] → b ≠ [] →
     (calculate_content_similarity a b == calculate_content_similarity b a)%Q
     ↔ if contains a b || contains b a
       then (max_floor (Difflib.ratio a b) == max_floor (Difflib.ratio b a))%Q
       else (Difflib.ratio a b == Difflib.ratio b a)%Q).
Proof.
  split; [| split].
  - intros [-> | ->]; split; first [reflexivity | by destruct b | by destruct a].
  - intros Ha Hb Hc Hfar.
    rewrite (similarity_unfold a b), (similarity_unfold b a) by done.
    rewrite (orb_comm (contains b a)), Hc.
    split; apply max_floor_low, ratio_far_apart; try done.
    by apply far_apart_comm.
  - intros Ha Hb.
    rewrite (similarity_unfold a b), (similarity_unfold b a) by done.
    rewrite (orb_comm (contains b a)).
    by destruct (contains a b || contains b a).
Qed.

Lemma similarity_symmetry_cases_witness :
  (Difflib.ratio short_ba long_ab == 0)%Q
  ∧ (Difflib.ratio long_ab short_ba == 2 # 5)%Q
  ∧ (calculate_content_similarity short_ba long_ab == 9 # 10)%Q
  ∧ (calculate_content_similarity long_ab short_ba == 9 # 10)%Q.
Proof.
  split; [vm_compute; reflexivity | split; [vm_compute; reflexivity |]].
  apply (proj1 (proj2 (similarity_symmetry_cases short_ba long_ab))).
  - vm_compute. discriminate.
  - vm_compute. discriminate.
  - vm_compute; reflexivity.
  - unfold far_apart. vm_compute. lia.
Defined.

(** C4 fails as stated: the ratio of the sequence matcher depends on which
    text comes first, and the score with it. *)
Lemma similarity_not_symmetric :
  (calculate_content_similarity (lit "tide") (lit "diet") == 1 # 4)%Q
  ∧ (calculate_content_similarity (lit "diet") (lit "tide") == 1 # 2)%Q
  ∧ ¬ (calculate_content_similarity (lit "tide") (lit "diet")
       == calculate_content_similarity (lit "diet") (lit "tide"))%Q.
Proof. repeat split; vm_compute; congruence. Qed.

(** C8, as the code has it: for two non-empty texts, one contained in the
    other, the score is at least 0.9; and unless both texts are empty the
    score is never below the sequence-matcher ratio. *)
Theorem substring_floor_and_ratio (a b : str) :
  (a ≠ [] → b ≠ [] → contains a b || contains b a = true →
   (9 # 10 <= calculate_content_similarity a b)%Q)
  ∧ (a ≠ [] ∨ b ≠ [] →
     (Difflib.ratio a b <= calculate_content_similarity a b)%Q).
Proof.
  split.
  - intros Ha Hb Hc. rewrite similarity_unfold, Hc by done.
    apply max_floor_ge_floor.
  - intros Hne. destruct a as [|x a], b as [|y b].
    + by destruct Hne.
    + rewrite ratio_one_empty by auto. simpl. apply Qle_refl.
    + rewrite ratio_one_empty by auto. simpl. apply Qle_refl.
    + rewrite similarity_unfold by done.
      destruct (_ || _); [apply max_floor_ge_self | apply Qle_refl].
Qed.

Lemma substring_floor_and_ratio_witness :
  (9 # 10 <= calculate_content_similarity (lit "hello") (lit "hello world"))%Q
  ∧ (Difflib.ratio (lit "hello") (lit "hello world")
     <= calculate_content_similarity (lit "hello") (lit "hello world"))%Q
  ∧ (Difflib.ratio (lit "x") [] <= calculate_content_similarity (lit "x") [])%Q.
Proof.
  split; [| split].
  - apply (proj1 (substring_floor_and_ratio (lit "hello") (lit "hello world")));
      [discriminate | discriminate | reflexivity].
  - apply (proj2 (substring_floor_and_ratio (lit "hello") (lit "hello world"))).
    left. discriminate.
  - apply (proj2 (substring_floor_and_ratio (lit "x") [])).
    left. discriminate.
Defined.

(** C8 fails as stated: the empty text is contained in every text, and the
    guard on empty inputs returns 0 before the floor is looked at; with two
    empty texts the score 0 is below the ratio 1. *)
Lemma substring_floor_fails_on_empty :
  lit "x" ≠ [] ∧ contains [] (lit "x") = true
  ∧ ¬ (9 # 10 <= calculate_content_similarity (lit "x") [])%Q
  ∧ ¬ (Difflib.ratio [] [] <= calculate_content_similarity [] [])%Q.
Proof. repeat split; try done; vm_compute; intros H; by apply H. Qed.

(** ** The chain of three records *)

Lemma close_same_awareness (self : DuplicateDetector) (d1 d2 : datetime) (c : bool) :
  are_dates_close self d1 d2 = Ok c →
  ∃ less, dt_lt d2 d1 = Ok less.
Proof.
  unfold are_dates_close, dt_sub, dt_lt.
  destruct (utcoffset d1), (utcoffset d2); simpl; try done; eauto.
Qed.

(** C1, as the code has it: membership is decided against the anchor alone.
    With A close to B and to C in time, A and B similar and A and C not,
    the only cluster is [A; B], whatever B and C have in common; C stays
    unclustered and kept, and of A and B the earlier one survives, A on
    equal timestamps. *)
Theorem chain_clusters_with_anchor_only (self : DuplicateDetector) (A B C : Tweet) :
  are_dates_close self (date A) (date B) = Ok true →
  are_dates_close self (date A) (date C) = Ok true →
  (content_threshold self
   <= calculate_content_similarity (content A) (content B))%Q →
  (calculate_content_similarity (content A) (content C)
   < content_threshold self)%Q →
  find_duplicates self [A; B; C] = Ok [[0; 1]]%nat
  ∧ ∃ less, dt_lt (date B) (date A) = Ok less
    ∧ remove_duplicates self [A; B; C]
      = Ok ([if less then B else A; C], [[A; B]]).
Proof.
  intros Hab Hac Hsim Hnot.
  apply Qle_bool_iff in Hsim.
  assert (Qle_bool (content_threshold self)
            (calculate_content_similarity (content A) (content C)) = false)
    as Hnot'.
  { destruct (Qle_bool _ (calculate_content_similarity _ (content C))) eqn:E;
      [|done].
    apply Qle_bool_iff in E. exfalso. exact (Qlt_not_le _ _ Hnot E). }
  assert (find_duplicates self [A; B; C] = Ok [[0; 1]]%nat) as Hfind.
  { unfold find_duplicates. simpl.
    rewrite Hab. simpl. rewrite Hsim.
    rewrite Hac. simpl. rewrite Hnot'. simpl.
    reflexivity. }
  split; [exact Hfind |].
  destruct (close_same_awareness _ _ _ _ Hab) as [less Hless].
  exists less. split; [exact Hless |].
  unfold remove_duplicates. rewrite Hfind. simpl.
  rewrite Hless. simpl. by destruct less.
Qed.

Lemma chain_clusters_with_anchor_only_witness :
  find_duplicates default_detector [chain_A; chain_B; chain_C] = Ok [[0; 1]]%nat
  ∧ ∃ less, dt_lt (date chain_B) (date chain_A) = Ok less
    ∧ remove_duplicates default_detector [chain_A; chain_B; chain_C]
      = Ok ([if less then chain_B else chain_A; chain_C], [[chain_A; chain_B]]).
Proof.
  apply (chain_clusters_with_anchor_only default_detector chain_A chain_B chain_C).
  - vm_compute; reflexivity.
  - vm_compute; reflexivity.
  - vm_compute; discriminate.
  - vm_compute; reflexivity.
Defined.

(** C1 fails as stated: A~B and B~C at 0.9, A~C at 0.2, threshold 0.85,
    all within one day, and the cluster found is [A; B] without C. *)
Lemma chain_does_not_pull_in_third :
  are_dates_close default_detector (date chain_A) (date chain_B) = Ok true
  ∧ are_dates_close default_detector (date chain_A) (date chain_C) = Ok true
  ∧ are_dates_close default_detector (date chain_B) (date chain_C) = Ok true
  ∧ (calculate_content_similarity (content chain_A) (content chain_B) == 9 # 10)%Q
  ∧ (calculate_content_similarity (content chain_B) (content chain_C) == 9 # 10)%Q
  ∧ (calculate_content_similarity (content chain_A) (content chain_C) == 2 # 10)%Q
  ∧ find_duplicates default_detector [chain_A; chain_B; chain_C]
    = Ok [[0; 1]]%nat
  ∧ find_duplicates default_detector [chain_A; chain_B; chain_C]
    ≠ Ok [[0; 1; 2]]%nat.
Proof. repeat split; try (vm_compute; reflexivity). vm_compute. congruence. Qed.

(** ** Dates of both shapes *)

(** C6 at its failing input: a date with the UTC marker parses to an aware
    value, a plain calendar date to a naive one, and their difference
    raises, in [are_dates_close] and so in [find_duplicates]. *)
Theorem mixed_dates_raise :
  (utcoffset ∘ date <$> mixed_dates) = [Some 0; None]
  ∧ (∀ t1 t2, mixed_dates = [t1; t2] →
       are_dates_close default_detector (date t1) (date t2) = Raise TypeError)
  ∧ find_duplicates default_detector mixed_dates = Raise TypeError.
Proof.
  split; [vm_compute; reflexivity |]. split; [| vm_compute; reflexivity].
  intros t1 t2 [= <- <-]. vm_compute; reflexivity.
Qed.

(** ** The report *)

(** C3 at its failing input: the later post comes first in the input, so it
    anchors the cluster; the earlier post is the one kept, and the report
    names the anchor as kept. *)
Theorem report_names_anchor_as_kept :
  ∃ late early r info,
    late_first = [late; early]
    ∧ dt_lt (date early) (date late) = Ok true
    ∧ remove_duplicates default_detector late_first
      = Ok ([early], [[late; early]])
    ∧ generate_report 2 [early] [[late; early]] = Ok r
    ∧ duplicate_details r = [info]
    ∧ kept_tweet info = Tweet_str late
    ∧ removed_tweets info = [Tweet_str early]
    ∧ Tweet_str late ≠ Tweet_str early.
Proof.
  do 4 eexists. repeat split; try (vm_compute; reflexivity).
  vm_compute. congruence.
Qed.

(** ** The command line *)

(** C2, as the code has it: a missing path is answered with the one line
    that says so; a path that is there and cannot be read, with the loading
    line, the loader's error and the line that no tweets were found.  Both
    runs write nothing and end with status 0. *)
Theorem bad_input_path_reported_status_zero `{Platform} (clock : nat → Z)
    (w : world) (a : args) :
  (fs w !! input_file a = None →
   main clock w a = ([Print (MsgFileNotFound (input_file a))], 0)
   ∧ written (main clock w a).1 = [])
  ∧ (fs w !! input_file a = Some Unreadable →
     (∃ d, timedelta_hours (window a) = Ok d) →
     main clock w a = ([Print (MsgLoading (input_file a));
                        Print (MsgErrorLoading (input_file a));
                        Print MsgNoTweets], 0)
     ∧ written (main clock w a).1 = []).
Proof.
  split.
  - intros Hmissing. unfold main. by rewrite Hmissing.
  - intros Hunreadable [d Hd]. unfold main.
    rewrite Hunreadable. unfold DuplicateDetector_init. rewrite Hd. simpl.
    unfold load_from_file. by rewrite Hunreadable.
Qed.

Lemma bad_input_path_reported_status_zero_witness :
  (@main example_platform example_clock empty_world example_args
   = ([Print (MsgFileNotFound (lit "tweets.txt"))], 0)
   ∧ written (@main example_platform example_clock empty_world example_args).1
     = [])
  ∧ (@main example_platform example_clock unreadable_world example_args
     = ([Print (MsgLoading (lit "tweets.txt"));
         Print (MsgErrorLoading (lit "tweets.txt"));
         Print MsgNoTweets], 0)
     ∧ written
         (@main example_platform example_clock unreadable_world example_args).1
       = []).
Proof.
  split.
  - apply (proj1 (@bad_input_path_reported_status_zero example_platform
                    example_clock empty_world example_args)).
    reflexivity.
  - apply (proj2 (@bad_input_path_reported_status_zero example_platform
                    example_clock unreadable_world example_args)).
    + vm_compute; reflexivity.
    + by eexists.
Defined.

(** C2 fails as stated: the path is missing, the error is printed, nothing
    is written, and the exit status is 0. *)
Lemma missing_input_exits_zero :
  fs empty_world !! input_file example_args = None
  ∧ @main example_platform example_clock empty_world example_args
    = ([Print (MsgFileNotFound (lit "tweets.txt"))], 0)
  ∧ ¬ ((@main example_platform example_clock empty_world example_args).2 ≠ 0).
Proof. repeat split; try reflexivity. intros Hne. by apply Hne. Qed.

(** ** Clusters and their resolution *)

Lemma item_Ok {A} (l : list A) (i : nat) (x : A) :
  item l i = Ok x ↔ l !! i = Some x.
Proof. unfold item. destruct (l !! i); split; congruence. Qed.

Lemma bind_Ok {A B} (m : result A) (k : A → result B) (b : B) :
  m ≫= k = Ok b ↔ ∃ a, m = Ok a ∧ k a = Ok b.
Proof.
  destruct m; simpl; split.
  - eauto.
  - by intros (? & [= ->] & ?).
  - done.
  - by intros (? & ? & ?).
Qed.

Lemma ret_bind {A B} (a : A) (k : A → result B) : Ok a ≫= k = k a.
Proof. reflexivity. Qed.

Lemma close_aware (self : DuplicateDetector) (d1 d2 : datetime) (c : bool) :
  are_dates_close self d1 d2 = Ok c → aware d1 = aware d2.
Proof.
  unfold are_dates_close, dt_sub, aware.
  destruct (utcoffset d1), (utcoffset d2); simpl; done.
Qed.

Section Clusters.
Variables (self : DuplicateDetector) (tweets : list Tweet).

Lemma scan_later_spec (i : nat) (js group : list nat) (processed : gset nat)
    (group' : list nat) (processed' : gset nat) :
  scan_later self tweets i js group processed = Ok (group', processed') →
  ∃ added,
    group' = group ++ added
    ∧ sublist added js
    ∧ Forall (λ j, j ∉ processed) added
    ∧ processed' = processed ∪ list_to_set added
    ∧ Forall (λ j, ∃ ti tj, tweets !! i = Some ti ∧ tweets !! j = Some tj
                            ∧ aware (date ti) = aware (date tj)) added.
Proof.
  revert group processed.
  induction js as [|j js IH]; intros group processed; simpl.
  - intros [= <- <-]. exists []. rewrite app_nil_r.
    repeat split; try done. set_solver.
  - destruct (decide (j ∈ processed)) as [Hin|Hnotin].
    { intros Hscan. destruct (IH _ _ Hscan) as (added & ? & ? & ? & ? & ?).
      exists added. repeat split; try done. by apply sublist_cons. }
    intros Hscan.
    apply bind_Ok in Hscan as (ti & Hti & Hscan).
    apply bind_Ok in Hscan as (tj & Htj & Hscan).
    apply bind_Ok in Hscan as (close & Hclose & Hscan).
    apply item_Ok in Hti, Htj.
    destruct close; simpl in Hscan;
      [destruct (Qle_bool _ _) |].
    2, 3: destruct (IH _ _ Hscan) as (added & ? & ? & ? & ? & ?);
          exists added; repeat split; try done; by apply sublist_cons.
    destruct (IH _ _ Hscan) as (added & -> & Hsub & Hfresh & -> & Haware).
    exists (j :: added). repeat split.
    + by rewrite <- app_assoc.
    + by apply sublist_skip.
    + constructor; [done |]. eapply Forall_impl; [exact Hfresh |].
      set_solver.
    + set_solver.
    + constructor; [| done]. exists ti, tj. repeat split; try done.
      by eapply close_aware.
Qed.

Lemma sublist_seq_bounds (l : list nat) (lo len : nat) :
  sublist l (seq lo len) →
  StronglySorted lt l ∧ Forall (λ x, lo ≤ x < lo + len)%nat l.
Proof.
  revert lo l. induction len as [|len IH]; intros lo l; simpl.
  - intros ->%sublist_nil_r. split; constructor.
  - intros Hsub. apply sublist_cons_r in Hsub as [Hsub | (l' & -> & Hsub)].
    + destruct (IH _ _ Hsub) as [Hs Hb]. split; [done |].
      eapply Forall_impl; [exact Hb |]. simpl. lia.
    + destruct (IH _ _ Hsub) as [Hs Hb]. split.
      * constructor; [done |]. eapply Forall_impl; [exact Hb |]. simpl. lia.
      * constructor; [lia |]. eapply Forall_impl; [exact Hb |]. simpl. lia.
Qed.

Lemma anchors_inv_step (duplicates : list (list nat)) (processed : gset nat)
    (i : nat) (added : list nat) :
  anchors_inv tweets duplicates processed →
  (i < length tweets)%nat → i ∉ processed →
  added ≠ [] →
  sublist added (seq (S i) (length tweets - S i)) →
  Forall (λ j, j ∉ processed) added →
  Forall (λ j, ∃ ti tj, tweets !! i = Some ti ∧ tweets !! j = Some tj
                        ∧ aware (date ti) = aware (date tj)) added →
  anchors_inv tweets (duplicates ++ [i :: added])
              (processed ∪ list_to_set added ∪ list_to_set (i :: added)).
Proof.
  intros [Hproc Hgood Hdisj] Hi Hfresh Hne Hsub Hnew Haware.
  destruct (sublist_seq_bounds _ _ _ Hsub) as [Hsorted Hbounds].
  rewrite Forall_forall in Hnew, Hbounds, Haware.
  split.
  - intros x. rewrite !elem_of_union, !elem_of_list_to_set, Hproc.
    setoid_rewrite elem_of_app. setoid_rewrite list_elem_of_singleton.
    split.
    + intros [[(g & ? & ?) | ?] | ?]; [by eauto | |];
        exists (i :: added); split; auto. by right.
    + intros (g & [? | ->] & ?); [left; left; eauto | by right].
  - intros g [Hg | ->%list_elem_of_singleton]%elem_of_app; [by apply Hgood |].
    split.
    + destruct added; [done | simpl; lia].
    + constructor; [done |]. apply Forall_forall. intros x Hx.
      specialize (Hbounds x Hx). simpl in Hbounds. lia.
    + intros x [-> | Hx]%elem_of_cons; [done |].
      specialize (Hbounds x Hx). simpl in Hbounds. lia.
    + destruct (lookup_lt_is_Some_2 tweets i Hi) as [ti Hti].
      exists (aware (date ti)).
      intros x t [-> | Hx]%elem_of_cons Ht; [congruence |].
      destruct (Haware x Hx) as (ti' & tj & ? & ? & ?). congruence.
  - intros k1 k2 g1 g2 H1 H2 Hk.
    assert (∀ g, g ∈ duplicates → g ## i :: added) as Hold.
    { intros g Hg x Hxg [-> | Hx]%elem_of_cons.
      - apply Hfresh, Hproc. eauto.
      - apply (Hnew x Hx), Hproc. eauto. }
    apply lookup_app_Some in H1 as [H1 | [Hl1 H1]];
      apply lookup_app_Some in H2 as [H2 | [Hl2 H2]].
    + by eapply Hdisj.
    + apply list_lookup_singleton_Some in H2 as [_ <-].
      apply Hold. by eapply list_elem_of_lookup_2.
    + apply list_lookup_singleton_Some in H1 as [_ <-].
      intros x Hx1 Hx2. eapply Hold; [| exact Hx2 | exact Hx1].
      by eapply list_elem_of_lookup_2.
    + apply list_lookup_singleton_Some in H1 as [? _].
      apply list_lookup_singleton_Some in H2 as [? _]. lia.
Qed.

Lemma scan_anchors_inv (len : nat) :
  ∀ (i0 : nat) (duplicates : list (list nat)) (processed : gset nat)
    (groups : list (list nat)),
    (i0 + len = length tweets)%nat →
    anchors_inv tweets duplicates processed →
    scan_anchors self tweets (length tweets) (seq i0 len) duplicates processed
    = Ok groups →
    ∃ processed', anchors_inv tweets groups processed'.
Proof.
  induction len as [|len IH]; intros i0 duplicates processed groups Hlen Hinv;
    simpl.
  - intros [= <-]. eauto.
  - destruct (decide (i0 ∈ processed)) as [Hin | Hfresh].
    { apply IH; [lia | done]. }
    intros Hscan. apply bind_Ok in Hscan as ([group processed1] & Hlater & Hscan).
    apply scan_later_spec in Hlater
      as (added & -> & Hsub & Hnew & -> & Haware).
    simpl in Hscan. destruct added as [|j added].
    + simpl in Hscan. eapply IH; [| | exact Hscan]; [lia |].
      by rewrite union_empty_r_L.
    + simpl in Hscan. eapply IH; [| | exact Hscan]; [lia |].
      apply anchors_inv_step; try done. lia.
Qed.
End Clusters.

Lemma find_duplicates_inv (self : DuplicateDetector) (tweets : list Tweet)
    (groups : list (list nat)) :
  find_duplicates self tweets = Ok groups →
  (∀ g, g ∈ groups → good_group tweets g) ∧ pairwise_disjoint groups.
Proof.
  unfold find_duplicates. intros Hfind.
  destruct (scan_anchors_inv self tweets (length tweets) O [] ∅ groups)
    as [processed' [_ Hgood Hdisj]]; [lia | | exact Hfind | done].
  split.
  - set_solver.
  - intros g Hg. by apply elem_of_nil in Hg.
  - intros k1 ? ? ? H1. by rewrite lookup_nil in H1.
Qed.

Lemma dt_lt_instant (a b : datetime) :
  aware a = aware b → dt_lt a b = Ok (instant a <? instant b).
Proof.
  unfold aware, dt_lt, instant.
  destruct (utcoffset a), (utcoffset b); simpl; try done.
  by rewrite !Z.sub_0_r.
Qed.

Lemma dt_le_instant (a b : datetime) :
  aware a = aware b → dt_le a b = Ok (instant a <=? instant b).
Proof.
  unfold aware, dt_le, instant.
  destruct (utcoffset a), (utcoffset b); simpl; try done.
  by rewrite !Z.sub_0_r.
Qed.

Section Resolution.
Variable tweets : list Tweet.

Lemma min_by_date_spec (w : bool) (rest : list nat) :
  ∀ (best : nat) (seen : list nat),
    best ∈ seen →
    (∀ x, x ∈ seen ++ rest →
          ∃ t, tweets !! x = Some t ∧ aware (date t) = w) →
    (∀ m, m ∈ seen → beats tweets best m) →
    Forall (λ r, ∀ m, m ∈ seen → (m < r)%nat) rest →
    StronglySorted lt rest →
    ∃ k, min_by_date tweets best rest = Ok k
         ∧ k ∈ seen ++ rest
         ∧ ∀ m, m ∈ seen ++ rest → beats tweets k m.
Proof.
  induction rest as [|i rest IH]; intros best seen Hbest Hcmp Hmin Hlater Hsorted.
  - exists best. rewrite app_nil_r. done.
  - simpl.
    destruct (Hcmp i) as (ti & Hti & Hwi); [set_solver |].
    destruct (Hcmp best) as (tb & Htb & Hwb); [set_solver |].
    unfold item. rewrite Hti, Htb. simpl.
    rewrite (dt_lt_instant (date ti) (date tb)) by congruence. simpl.
    apply StronglySorted_inv in Hsorted as [Hsorted Hi].
    apply Forall_cons in Hlater as [Hseen Hlater].
    assert (instant_at tweets i = instant (date ti)) as Ei
      by (unfold instant_at; by rewrite Hti).
    assert (instant_at tweets best = instant (date tb)) as Eb
      by (unfold instant_at; by rewrite Htb).
    destruct (IH (if instant (date ti) <? instant (date tb) then i else best)
                 (seen ++ [i])) as (k & Hk & Hin & Hbeats).
    + destruct (_ <? _); set_solver.
    + intros x Hx. apply Hcmp. set_solver.
    + intros m [Hm | ->%list_elem_of_singleton]%elem_of_app.
      * destruct (Z.ltb_spec (instant (date ti)) (instant (date tb))) as [Hlt|Hge].
        -- destruct (Hmin m Hm) as [Hle _]. split; [lia | lia].
        -- by apply Hmin.
      * destruct (Z.ltb_spec (instant (date ti)) (instant (date tb))) as [Hlt|Hge].
        -- split; [lia | done].
        -- split; [lia |]. intros _. specialize (Hseen best Hbest). lia.
    + rewrite Forall_forall in Hlater, Hi. apply Forall_forall.
      intros r Hr m [Hm | ->%list_elem_of_singleton]%elem_of_app.
      * by apply Hlater.
      * by apply Hi.
    + done.
    + exists k. rewrite <- app_assoc in Hin, Hbeats. done.
Qed.

Lemma earliest_spec (g : list nat) :
  good_group tweets g →
  ∃ k, earliest tweets g = Ok k ∧ k ∈ g ∧ ∀ m, m ∈ g → beats tweets k m.
Proof.
  intros [Hsize Hsorted Hvalid [w Haware]].
  destruct g as [|i rest]; [simpl in Hsize; lia |].
  simpl. destruct (lookup_lt_is_Some_2 tweets i) as [ti Hti];
    [apply Hvalid; set_solver |].
  unfold item at 1. rewrite Hti. simpl.
  apply StronglySorted_inv in Hsorted as [Hsorted Hi].
  apply (min_by_date_spec w rest i [i]).
  - set_solver.
  - intros x Hx. destruct (lookup_lt_is_Some_2 tweets x) as [t Ht];
      [by apply Hvalid |]. exists t. split; [done |]. by eapply Haware.
  - intros m ->%list_elem_of_singleton. split; [lia | done].
  - eapply Forall_impl; [exact Hi |]. intros r Hr m ->%list_elem_of_singleton.
    done.
  - done.
Qed.

Lemma drop_losers_spec (groups : list (list nat)) :
  ∀ to_keep : gset nat,
    (∀ g, g ∈ groups → ∃ k, earliest tweets g = Ok k) →
    ∃ kept, drop_losers tweets groups to_keep = Ok kept
            ∧ ∀ x, x ∈ kept ↔
                   x ∈ to_keep
                   ∧ ∀ g k, g ∈ groups → earliest tweets g = Ok k →
                            x ∈ g → x = k.
Proof.
  induction groups as [|g groups IH]; intros to_keep Hearly; simpl.
  - exists to_keep. split; [done |]. intros x. split; [| tauto].
    intros Hx. split; [done |]. intros g k Hg. by apply elem_of_nil in Hg.
  - destruct (Hearly g) as [k Hk]; [set_solver |]. rewrite Hk. simpl.
    destruct (IH (to_keep ∖ (list_to_set g ∖ {[k]}))) as (kept & -> & Hkept).
    { intros g' Hg'. apply Hearly. set_solver. }
    exists kept. split; [done |]. intros x. rewrite Hkept.
    rewrite elem_of_difference, elem_of_difference, elem_of_list_to_set,
      elem_of_singleton.
    split.
    + intros [[Hx Hnot] Hrest]. split; [done |].
      intros g' k' [-> | Hg']%elem_of_cons Hk' Hxg.
      * assert (k' = k) as -> by congruence.
        destruct (decide (x = k)); [done | tauto].
      * by eapply Hrest.
    + intros [Hx Hall]. split; [split; [done |] |].
      * intros [Hxg Hne]. apply Hne. eapply Hall; [| done | done]. set_solver.
      * intros g' k' Hg'. apply Hall. set_solver.
Qed.

Lemma mapM_item_Ok {A} (l : list A) (idxs : list nat) :
  Forall (λ i, i < length l)%nat idxs → ∃ r, mapM (item l) idxs = Ok r.
Proof.
  induction 1 as [|i idxs Hi _ [r IH]]; simpl; [by eexists |].
  destruct (lookup_lt_is_Some_2 l i Hi) as [x Hx].
  apply item_Ok in Hx. rewrite Hx. simpl. rewrite IH. simpl. by eexists.
Qed.
End Resolution.

(** The tweets of a group are found again at its indices. *)
Lemma mapM_mapM_item_Ok {A} (l : list A) (groups : list (list nat)) :
  Forall (Forall (λ i, i < length l)%nat) groups →
  ∃ r, mapM (mapM (item l)) groups = Ok r.
Proof.
  induction 1 as [|g groups Hg _ [r IH]]; simpl; [by eexists |].
  destruct (mapM_item_Ok l g Hg) as [x Hx].
  rewrite Hx. simpl. rewrite IH. simpl. by eexists.
Qed.

Lemma elem_of_sorted (s : gset nat) (x : nat) : x ∈ sorted s ↔ x ∈ s.
Proof. unfold sorted. by rewrite merge_sort_Permutation, elem_of_elements. Qed.

(** C10: the groups [find_duplicates] returns are pairwise disjoint; the
    members of a group are indices of the input, strictly increasing, the
    anchor first and smallest. *)
Theorem groups_disjoint_valid_increasing (self : DuplicateDetector)
    (tweets : list Tweet) (groups : list (list nat)) :
  find_duplicates self tweets = Ok groups →
  pairwise_disjoint groups
  ∧ ∀ g, g ∈ groups →
      (∀ i, i ∈ g → (i < length tweets)%nat)
      ∧ StronglySorted lt g
      ∧ ∃ anchor rest, g = anchor :: rest ∧ rest ≠ [] ∧ Forall (lt anchor) rest.
Proof.
  intros [Hgood Hdisj]%find_duplicates_inv. split; [done |].
  intros g [Hsize Hsorted Hvalid _]%Hgood. split; [done | split; [done |]].
  destruct g as [|anchor [|j rest]]; simpl in Hsize; try lia.
  exists anchor, (j :: rest). split; [done | split; [done |]].
  by apply StronglySorted_inv in Hsorted as [_ ?].
Qed.

Lemma groups_disjoint_valid_increasing_witness :
  pairwise_disjoint [[0; 1]]%nat
  ∧ ∀ g, g ∈ [[0; 1]]%nat →
      (∀ i, i ∈ g → (i < length [chain_A; chain_B; chain_C])%nat)
      ∧ StronglySorted lt g
      ∧ ∃ anchor rest, g = anchor :: rest ∧ rest ≠ [] ∧ Forall (lt anchor) rest.
Proof.
  apply (groups_disjoint_valid_increasing default_detector
           [chain_A; chain_B; chain_C] [[0; 1]]%nat).
  vm_compute; reflexivity.
Defined.

(** [find_duplicates] returns on every batch whose dates are all naive or
    all aware. *)
Section Totality.
Variables (self : DuplicateDetector) (tweets : list Tweet) (w : bool).
Hypothesis same : ∀ t, t ∈ tweets → aware (date t) = w.

Lemma are_dates_close_total (t1 t2 : Tweet) :
  t1 ∈ tweets → t2 ∈ tweets →
  ∃ c, are_dates_close self (date t1) (date t2) = Ok c.
Proof.
  intros H1%same H2%same. unfold are_dates_close, dt_sub.
  unfold aware in H1, H2.
  destruct (utcoffset (date t1)), (utcoffset (date t2)), w; simpl;
    try done; eauto.
Qed.

Lemma scan_later_total (i : nat) (js : list nat) :
  (i < length tweets)%nat → Forall (λ j, j < length tweets)%nat js →
  ∀ group processed, ∃ r, scan_later self tweets i js group processed = Ok r.
Proof.
  intros Hi. induction 1 as [|j js Hj _ IH]; intros group processed; simpl.
  - eauto.
  - destruct (decide (j ∈ processed)); [apply IH |].
    destruct (lookup_lt_is_Some_2 tweets i Hi) as [ti Hti].
    destruct (lookup_lt_is_Some_2 tweets j Hj) as [tj Htj].
    destruct (are_dates_close_total ti tj) as [c Hc];
      [by eapply list_elem_of_lookup_2 .. |].
    apply item_Ok in Hti, Htj. rewrite Hti, ret_bind, Htj, ret_bind, Hc, ret_bind.
    destruct c; simpl; [destruct (Qle_bool _ _) |]; apply IH.
Qed.

Lemma scan_anchors_total (rng : list nat) :
  Forall (λ i, i < length tweets)%nat rng →
  ∀ duplicates processed,
    ∃ groups, scan_anchors self tweets (length tweets) rng duplicates processed
              = Ok groups.
Proof.
  induction 1 as [|i rng Hi _ IH]; intros duplicates processed; simpl.
  - eauto.
  - destruct (decide (i ∈ processed)); [apply IH |].
    destruct (scan_later_total i (seq (S i) (length tweets - S i)) Hi)
      with (group := [i]) (processed := processed) as [[group processed'] Hr].
    { apply Forall_forall. intros j Hj%elem_of_seq. lia. }
    rewrite Hr, ret_bind. destruct (1 <? length group)%nat; apply IH.
Qed.

Lemma find_duplicates_total : ∃ groups, find_duplicates self tweets = Ok groups.
Proof.
  apply scan_anchors_total, Forall_forall. intros i Hi%elem_of_seq. lia.
Qed.
End Totality.

(** ** Normalisation *)

(** *** The scan of [re.sub] *)

Section Scan.
Variables (m : Re.matcher) (repl : str).

Lemma sub_scan_skip (s : str) :
  ∀ skip, Re.sub_scan m repl skip s = Re.sub_scan m repl O (drop skip s).
Proof.
  induction s as [|c s IH]; intros [|k]; simpl; auto.
Qed.

Lemma sub_cons (c : char) (s : str) :
  Re.sub m repl (c :: s)
  = match m (c :: s) with
    | Some (S n) => repl ++ Re.sub m repl (drop n s)
    | _ => c :: Re.sub m repl s
    end.
Proof.
  unfold Re.sub. simpl. destruct (m (c :: s)) as [[|n]|]; try done.
  by rewrite sub_scan_skip.
Qed.

Lemma sub_scan_Forall (P : char → Prop) (s : str) :
  Forall P repl → Forall P s → ∀ skip, Forall P (Re.sub_scan m repl skip s).
Proof.
  intros Hrepl. induction 1 as [|c s Hc Hs IH]; intros [|k]; simpl; try done.
  destruct (m (c :: s)) as [[|n]|]; try (by constructor).
  apply Forall_app. split; [done | apply IH].
Qed.

Lemma sub_Forall (P : char → Prop) (s : str) :
  Forall P repl → Forall P s → Forall P (Re.sub m repl s).
Proof. intros. by apply sub_scan_Forall. Qed.

Lemma no_match_drop (s : str) (n : nat) : no_match m s → no_match m (drop n s).
Proof.
  revert n. induction s as [|c s IH]; intros [|n]; simpl; try done.
  intros [_ Hs]. by apply IH.
Qed.

Lemma sub_no_match (s : str) : no_match m s → Re.sub m repl s = s.
Proof.
  induction s as [|c s IH]; [done |]. intros [Hc Hs].
  rewrite sub_cons, Hc. f_equal. by apply IH.
Qed.
End Scan.

(** *** Runs *)

Lemma span_dropwhile (p : char → bool) (s : str) :
  drop (Re.span p s) s = dropwhile p s.
Proof. induction s as [|c s IH]; simpl; [done |]. by destruct (p c). Qed.

Lemma dropwhile_starts_outside (p : char → bool) (s : str) :
  starts_outside p (dropwhile p s).
Proof. induction s as [|c s IH]; simpl; [done |]. by destruct (p c) eqn:E. Qed.

Lemma span_starts_outside (p : char → bool) (s : str) :
  starts_outside p s ↔ Re.span p s = O.
Proof. destruct s as [|c s]; simpl; [done |]. by destruct (p c). Qed.

Lemma dropwhile_outside (p : char → bool) (s : str) :
  starts_outside p s → dropwhile p s = s.
Proof. destruct s as [|c s]; simpl; [done |]. by intros ->. Qed.

Lemma dropwhile_suffix {A} (p : A → bool) (l : list A) :
  ∃ k, l = k ++ dropwhile p l ∧ Forall (λ x, p x = true) k.
Proof.
  induction l as [|x l (k & Hk & Hall)]; simpl.
  { exists []. split; [done | constructor]. }
  destruct (p x) eqn:E.
  - exists (x :: k). split; [simpl; by f_equal | by constructor].
  - exists []. split; [done | constructor].
Qed.

Lemma dropwhile_idemp {A} (p : A → bool) (l : list A) :
  dropwhile p (dropwhile p l) = dropwhile p l.
Proof.
  induction l as [|x l IH]; simpl; [done |].
  destruct (p x) eqn:E; [done |]. simpl. by rewrite E.
Qed.

Lemma ws_run_Some (c : char) (s : str) (n : nat) :
  Re.ws_run (c :: s) = Some n ↔ isspace c = true ∧ n = S (Re.span isspace s).
Proof.
  unfold Re.ws_run. simpl. destruct (isspace c); simpl; [| by split; [| intros []]].
  split; [by intros [= <-] | by intros [_ ->]].
Qed.

Lemma ws_run_None (c : char) (s : str) :
  Re.ws_run (c :: s) = None ↔ isspace c = false.
Proof. unfold Re.ws_run. simpl. by destruct (isspace c). Qed.

(** *** [strip] *)

Lemma lstrip_suffix (s : str) : ∃ k, s = k ++ lstrip s.
Proof. destruct (dropwhile_suffix isspace s) as (k & ? & _). by exists k. Qed.

Lemma rstrip_prefix (s : str) :
  ∃ t, s = rstrip s ++ t ∧ Forall (λ c, isspace c = true) t.
Proof.
  unfold rstrip. destruct (dropwhile_suffix isspace (reverse s)) as (k & Hk & Hall).
  exists (reverse k). split; [| by apply Forall_reverse].
  rewrite <- reverse_app, <- Hk. by rewrite reverse_involutive.
Qed.

Lemma rstrip_idemp (s : str) : rstrip (rstrip s) = rstrip s.
Proof. unfold rstrip. by rewrite reverse_involutive, dropwhile_idemp. Qed.

Lemma lstrip_starts_outside (s : str) : starts_outside isspace (lstrip s).
Proof. apply dropwhile_starts_outside. Qed.

Lemma prefix_starts_outside (p : char → bool) (s t : str) :
  starts_outside p (s ++ t) → starts_outside p s.
Proof. by destruct s. Qed.

Lemma strip_starts_outside (s : str) : starts_outside isspace (strip s).
Proof.
  unfold strip. destruct (rstrip_prefix (lstrip s)) as (t & Ht & _).
  apply (prefix_starts_outside _ _ t). rewrite <- Ht. apply lstrip_starts_outside.
Qed.

Lemma strip_idemp (s : str) : strip (strip s) = strip s.
Proof.
  unfold strip at 1. unfold lstrip.
  rewrite dropwhile_outside by apply strip_starts_outside.
  unfold strip. apply rstrip_idemp.
Qed.

Lemma strip_Forall (P : char → Prop) (s : str) : Forall P s → Forall P (strip s).
Proof.
  intros Hs. unfold strip.
  destruct (lstrip_suffix s) as (k & Hk).
  destruct (rstrip_prefix (lstrip s)) as (t & Ht & _).
  rewrite Hk, Ht in Hs. by apply Forall_app in Hs as [_ [? _]%Forall_app].
Qed.

(** *** Collapsed white space *)

Lemma collapsed_app (s t : str) : collapsed (s ++ t) → collapsed s ∧ collapsed t.
Proof.
  induction s as [|c s IH]; simpl; [done |].
  intros [Hc Hs]. destruct (IH Hs) as [? ?]. split; [| done]. split; [| done].
  intros Hsp. destruct (Hc Hsp) as [-> Hout]. split; [done |].
  by apply prefix_starts_outside in Hout.
Qed.

Lemma collapsed_strip (s : str) : collapsed s → collapsed (strip s).
Proof.
  intros Hs. unfold strip.
  destruct (lstrip_suffix s) as (k & Hk).
  destruct (rstrip_prefix (lstrip s)) as (t & Ht & _).
  rewrite Hk in Hs. apply collapsed_app in Hs as [_ Hs].
  rewrite Ht in Hs. by apply collapsed_app in Hs as [? _].
Qed.

Lemma sub_ws_starts_outside (p : char → bool) (s : str) :
  p 32%N = false → starts_outside p s →
  starts_outside p (Re.sub Re.ws_run (lit " ") s).
Proof.
  intros Hblank. destruct s as [|c s]; [done |]. rewrite sub_cons.
  destruct (Re.ws_run (c :: s)) as [[|n]|]; done.
Qed.

Lemma sub_ws_starts_nonspace (s : str) :
  starts_outside isspace s →
  starts_outside isspace (Re.sub Re.ws_run (lit " ") s).
Proof.
  destruct s as [|c s]; [done |]. simpl. intros Hc. rewrite sub_cons.
  by rewrite (proj2 (ws_run_None c s) Hc).
Qed.

Lemma sub_ws_collapsed (s : str) : collapsed (Re.sub Re.ws_run (lit " ") s).
Proof.
  remember (length s) as n eqn:Hn. revert s Hn.
  induction (lt_wf n) as [n _ IH]. intros [|c s] Hn; [done |].
  rewrite sub_cons. destruct (Re.ws_run (c :: s)) as [[|k]|] eqn:E.
  - apply ws_run_Some in E as [_ ?]. done.
  - apply ws_run_Some in E as [Hc [= ->]]. simpl. split.
    + intros _. split; [done |]. rewrite span_dropwhile.
      apply sub_ws_starts_nonspace, dropwhile_starts_outside.
    + eapply IH; [| done]. subst n. simpl. rewrite length_drop. lia.
  - apply ws_run_None in E. simpl. split; [congruence |].
    eapply IH; [| done]. subst n. simpl. lia.
Qed.

Lemma sub_ws_id (s : str) : collapsed s → Re.sub Re.ws_run (lit " ") s = s.
Proof.
  induction s as [|c s IH]; [done |]. intros [Hc Hs]. rewrite sub_cons.
  destruct (isspace c) eqn:E.
  - destruct (Hc eq_refl) as [-> Hout].
    apply span_starts_outside in Hout.
    rewrite (proj2 (ws_run_Some _ s 1%nat) (conj E (f_equal S (eq_sym Hout)))).
    simpl. f_equal. by apply IH.
  - rewrite (proj2 (ws_run_None c s) E). f_equal. by apply IH.
Qed.

(** *** The Arabic letters *)

Lemma fold_map_pointwise (s : str) :
  foldl (λ c '(original, normalized), replace_char original normalized c)
        s arabic_norm_map
  = fold_char <$> s.
Proof.
  unfold arabic_norm_map, replace_char, fold_char. simpl.
  rewrite <- !list_fmap_compose. done.
Qed.

Lemma fold_char_cases (c : char) :
  fold_char c = c ∨ c ∈ arabic_norm_map.*1.
Proof.
  unfold fold_char, arabic_norm_map, chr_eqb. simpl.
  repeat match goal with
         | |- context [N.eqb c ?k] =>
             destruct (N.eqb_spec c k) as [-> | ?]; [right; set_solver | simpl]
         end.
  by left.
Qed.

Lemma fold_char_idemp (c : char) : fold_char (fold_char c) = fold_char c.
Proof.
  destruct (fold_char_cases c) as [Hfix | Hc]; [by rewrite !Hfix |].
  simpl in Hc. set_unfold in Hc.
  repeat (destruct Hc as [-> | Hc]; [reflexivity |]). done.
Qed.

Lemma fold_map_fixed (s : str) :
  Forall (λ c, fold_char c = c) s → fold_char <$> s = s.
Proof. induction 1; simpl; by f_equal. Qed.

Lemma fold_map_folded (s : str) :
  Forall (λ c, fold_char c = c) (fold_char <$> s).
Proof. apply Forall_fmap, Forall_forall. intros c _. apply fold_char_idemp. Qed.

(** *** Mentions *)

Section Mentions.
Context `{Platform}.

Lemma mention_None (c : char) (s : str) :
  Re.mention (c :: s) = None ↔ c ≠ 64%N ∨ starts_outside Re.isword s.
Proof.
  simpl. unfold chr_eqb. destruct (N.eqb_spec c 64%N) as [-> | Hne].
  - rewrite span_starts_outside. destruct (Re.span Re.isword s); simpl.
    + split; [by right | done].
    + split; [done | by intros [? | ?]].
  - split; [by left | done].
Qed.

Lemma mention_Some (c : char) (s : str) (n : nat) :
  Re.mention (c :: s) = Some n → n = S (Re.span Re.isword s).
Proof.
  simpl. destruct (chr_eqb c 64%N); [| done].
  destruct (Re.span Re.isword s); simpl; [done | by intros [= <-]].
Qed.

Lemma sub_mention_starts_nonword (s : str) :
  starts_outside Re.isword s →
  starts_outside Re.isword (Re.sub Re.mention [] s).
Proof.
  remember (length s) as n eqn:Hn. revert s Hn.
  induction (lt_wf n) as [n _ IH]. intros [|c s] Hn; [done |].
  intros Hc. rewrite sub_cons.
  destruct (Re.mention (c :: s)) as [[|k]|] eqn:E; try done.
  apply mention_Some in E as [= ->]. simpl. rewrite span_dropwhile.
  eapply IH; [| done | apply dropwhile_starts_outside].
  subst n. simpl. rewrite <- span_dropwhile, length_drop. lia.
Qed.

Lemma sub_mention_no_match (s : str) :
  no_match Re.mention (Re.sub Re.mention [] s).
Proof.
  remember (length s) as n eqn:Hn. revert s Hn.
  induction (lt_wf n) as [n _ IH]. intros [|c s] Hn; [done |].
  rewrite sub_cons.
  assert (no_match Re.mention (c :: Re.sub Re.mention [] s)
          ∨ Re.mention (c :: s) ≠ None) as Hcopy.
  { destruct (Re.mention (c :: s)) eqn:E; [by right | left].
    split; [| eapply IH; [| done]; subst n; simpl; lia].
    apply mention_None. apply mention_None in E as [? | ?]; [by left |].
    right. by apply sub_mention_starts_nonword. }
  destruct (Re.mention (c :: s)) as [[|k]|] eqn:E.
  - by apply mention_Some in E.
  - simpl. eapply IH; [| done]. subst n. simpl. rewrite length_drop. lia.
  - by destruct Hcopy.
Qed.

Lemma sub_ws_starts_nonword (s : str) :
  Re.isword 32%N = false →
  starts_outside Re.isword s →
  starts_outside Re.isword (Re.sub Re.ws_run (lit " ") s).
Proof.
  intros Hblank. destruct s as [|c s]; [done |]. rewrite sub_cons.
  destruct (Re.ws_run (c :: s)) as [[|n]|]; done.
Qed.

Lemma sub_ws_no_mention (s : str) :
  Re.isword 32%N = false →
  no_match Re.mention s →
  no_match Re.mention (Re.sub Re.ws_run (lit " ") s).
Proof.
  intros Hblank. remember (length s) as n eqn:Hn. revert s Hn.
  induction (lt_wf n) as [n _ IH]. intros [|c s] Hn; [done |].
  intros [Hc Hs]. rewrite sub_cons.
  assert (no_match Re.mention (c :: Re.sub Re.ws_run (lit " ") s)) as Hcopy.
  { split; [| eapply IH; [| done | done]; subst n; simpl; lia].
    apply mention_None. apply mention_None in Hc as [? | ?]; [by left |].
    right. by apply sub_ws_starts_nonword. }
  destruct (Re.ws_run (c :: s)) as [[|k]|] eqn:E; try done.
  simpl. split; [done |].
  eapply IH; [| done | by apply no_match_drop].
  subst n. simpl. rewrite length_drop. lia.
Qed.

Lemma no_mention_prefix (s t : str) :
  no_match Re.mention (s ++ t) → no_match Re.mention s.
Proof.
  induction s as [|c s IH]; [done |]. intros [Hc Hs]. split; [| by apply IH].
  apply mention_None. apply mention_None in Hc as [? | Hout]; [by left |].
  right. by apply prefix_starts_outside in Hout.
Qed.

Lemma strip_no_mention (s : str) :
  no_match Re.mention s → no_match Re.mention (strip s).
Proof.
  intros Hs. unfold strip.
  destruct (rstrip_prefix (lstrip s)) as (t & Ht & _).
  apply (no_mention_prefix _ t). rewrite <- Ht.
  unfold lstrip. rewrite <- span_dropwhile. by apply no_match_drop.
Qed.
End Mentions.

(** *** Normalisation *)

Section Normalize.
Context `{Platform}.

Lemma normalize_steps_eq (x : str) : _normalize_content x = normalize_steps x.
Proof. by destruct x. Qed.

(** What every result of [_normalize_content] looks like. *)
Lemma normalized_shape (x : str) :
  Re.isword 32%N = false →
  let y := _normalize_content x in
  strip y = y ∧ collapsed y ∧ Forall (λ c, fold_char c = c) y
  ∧ no_match Re.mention y.
Proof.
  intros Hblank y. subst y. rewrite normalize_steps_eq. unfold normalize_steps.
  rewrite fold_map_pointwise. split; [| split; [| split]].
  - apply strip_idemp.
  - apply collapsed_strip, sub_ws_collapsed.
  - apply strip_Forall, sub_Forall; [by repeat constructor |].
    do 2 (apply sub_Forall; [constructor |]). apply fold_map_folded.
  - apply strip_no_mention, sub_ws_no_mention; [done |].
    apply sub_mention_no_match.
Qed.

(** A text of that shape without a URL in it is left as it is. *)
Lemma normalize_stable (x : str) :
  isalnum 32%N = false →
  let y := _normalize_content x in
  Re.sub Re.url [] y = y → _normalize_content y = y.
Proof.
  intros Hblank y Hurl.
  assert (Re.isword 32%N = false) as Hword
    by (unfold Re.isword; by rewrite Hblank).
  destruct (normalized_shape x Hword) as (Hstrip & Hcoll & Hfold & Hment).
  fold y in Hstrip, Hcoll, Hfold, Hment.
  rewrite (normalize_steps_eq y). unfold normalize_steps.
  rewrite Hstrip, (sub_ws_id y Hcoll), fold_map_pointwise,
    (fold_map_fixed y Hfold), Hurl, (sub_no_match _ _ y Hment),
    (sub_ws_id y Hcoll).
  exact Hstrip.
Qed.

(** C9, as the code has it: normalising a second time changes nothing
    unless the first result holds a URL, which the second pass strips. *)
Theorem normalize_idempotent_without_url (x : str) :
  isalnum 32%N = false →
  Re.sub Re.url [] (_normalize_content x) = _normalize_content x →
  _normalize_content (_normalize_content x) = _normalize_content x.
Proof. intros Hblank Hurl. by apply normalize_stable. Qed.
End Normalize.

Lemma normalize_idempotent_without_url_witness :
  let x := lit "  hello   @bob  http://x.y/z  world " in
  @_normalize_content example_platform x = lit "hello world"
  ∧ @_normalize_content example_platform (@_normalize_content example_platform x)
    = @_normalize_content example_platform x.
Proof.
  split; [reflexivity |].
  apply (@normalize_idempotent_without_url example_platform); reflexivity.
Defined.

(** C9 fails as stated: stripping the mention joins [http] and [://foo]
    into a URL, which only a second pass strips. *)
Lemma normalize_not_idempotent :
  @_normalize_content example_platform (lit "http@x://foo") = lit "http://foo"
  ∧ @_normalize_content example_platform (lit "http://foo") = []
  ∧ @_normalize_content example_platform
      (@_normalize_content example_platform (lit "http@x://foo"))
    ≠ @_normalize_content example_platform (lit "http@x://foo").
Proof. repeat split; try reflexivity. vm_compute. congruence. Qed.

(** ** The round trip through the text format *)

(** *** The listing as lines *)

Lemma concat_terminated_cons (l : str) (ls : list str) :
  concat (terminated <$> l :: ls) = l ++ nl ++ concat (terminated <$> ls).
Proof. unfold terminated. simpl. by rewrite <- app_assoc. Qed.

Lemma concat_terminated_app (ls ks : list str) :
  concat (terminated <$> ls ++ ks)
  = concat (terminated <$> ls) ++ concat (terminated <$> ks).
Proof. by rewrite fmap_app, concat_app. Qed.

Lemma url_lines (us : list str) :
  concat ((λ url, lit "- " ++ url ++ nl) <$> us)
  = concat (terminated <$> ((λ url, lit "- " ++ url) <$> us)).
Proof.
  induction us as [|u us IH]; [done |].
  rewrite !fmap_cons. cbn [concat]. rewrite IH. unfold terminated.
  by rewrite <- !app_assoc.
Qed.

Lemma tweet_block_lines (i : nat) (t : Tweet) :
  tweet_block i t = concat (terminated <$> block_lines i t).
Proof.
  unfold tweet_block, block_lines. destruct (urls t) as [|u us].
  - rewrite !concat_terminated_app, !concat_terminated_cons.
    rewrite <- !app_assoc. reflexivity.
  - rewrite url_lines.
    rewrite !concat_terminated_app, !concat_terminated_cons.
    rewrite <- !app_assoc. reflexivity.
Qed.

Lemma tweet_blocks_lines (ts : list Tweet) :
  ∀ i, tweet_blocks i ts = concat (terminated <$> blocks_lines i ts).
Proof.
  induction ts as [|t ts IH]; intros i; cbn [tweet_blocks blocks_lines]; [done |].
  by rewrite concat_terminated_app, tweet_block_lines, IH.
Qed.

Lemma cleaned_listing_lines (ts : list Tweet) :
  cleaned_listing ts
  = concat (terminated <$> header_lines (length ts) ++ blocks_lines 1 ts).
Proof.
  unfold cleaned_listing, header_lines.
  rewrite concat_terminated_app, !concat_terminated_cons, tweet_blocks_lines.
  rewrite <- !app_assoc. reflexivity.
Qed.

(** *** Reading the lines back *)

Lemma readlines_from_line (l rest : str) :
  forallb no_break l = true →
  ∀ cur, readlines_from cur (l ++ nl ++ rest)
         = (cur ++ l ++ nl) :: readlines_from [] rest.
Proof.
  induction l as [|c l IH]; intros Hl cur.
  - done.
  - simpl in Hl. apply andb_prop in Hl as [Hc Hl]. unfold no_break in Hc.
    apply andb_prop in Hc as [H10%negb_true_iff H13%negb_true_iff].
    simpl. rewrite H10, H13, (IH Hl). by rewrite <- app_assoc.
Qed.

Lemma readlines_lines (ls : list str) :
  Forall (λ l, forallb no_break l = true) ls →
  readlines (concat (terminated <$> ls)) = terminated <$> ls.
Proof.
  unfold readlines. induction 1 as [|l ls Hl _ IH]; [done |].
  rewrite concat_terminated_cons, readlines_from_line by done.
  rewrite IH. done.
Qed.

(** *** [strip] on a line *)

Lemma dropwhile_app {A} (p : A → bool) (s t : list A) :
  dropwhile p (s ++ t)
  = if forallb p s then dropwhile p t else dropwhile p s ++ t.
Proof.
  induction s as [|x s IH]; simpl; [done |]. by destruct (p x).
Qed.

Lemma rstrip_app_space (s : str) (c : char) :
  isspace c = true → rstrip (s ++ [c]) = rstrip s.
Proof. intros Hc. unfold rstrip. rewrite reverse_snoc. simpl. by rewrite Hc. Qed.

Lemma strip_app_space (s : str) (c : char) :
  isspace c = true → strip (s ++ [c]) = strip s.
Proof.
  intros Hc. unfold strip, lstrip. rewrite dropwhile_app. simpl. rewrite Hc.
  destruct (forallb isspace s) eqn:E.
  - assert (dropwhile isspace s = []) as ->; [| done].
    clear Hc. induction s as [|x s IH]; simpl in *; [done |].
    apply andb_prop in E as [-> ?]. auto.
  - by apply rstrip_app_space.
Qed.

Lemma strip_terminated (l : str) : strip (terminated l) = strip l.
Proof. by apply strip_app_space. Qed.

(** A prefix that neither starts nor ends with white space survives. *)
Lemma strip_keeps_prefix (p t : str) :
  starts_outside isspace p → starts_outside isspace (reverse p) → p ≠ [] →
  ∃ t', strip (p ++ t) = p ++ t'.
Proof.
  intros Hhead Hlast Hne. unfold strip, lstrip.
  rewrite dropwhile_outside by (destruct p; done).
  unfold rstrip. rewrite reverse_app, dropwhile_app.
  destruct (forallb isspace (reverse t)).
  - rewrite dropwhile_outside by done. exists []. 
    by rewrite reverse_involutive, app_nil_r.
  - rewrite reverse_app, reverse_involutive. eauto.
Qed.

Lemma load_line_terminated `{Platform} (clock : nat → Z)
    (st : list Tweet * pending) (l : str) :
  load_line clock st (terminated l) = load_line clock st l.
Proof. unfold load_line. by rewrite strip_terminated. Qed.

Lemma foldl_load_terminated `{Platform} (clock : nat → Z) (ls : list str) :
  ∀ st, foldl (load_line clock) st (terminated <$> ls)
        = foldl (load_line clock) st ls.
Proof.
  induction ls as [|l ls IH]; intros st; simpl; [done |].
  by rewrite load_line_terminated, IH.
Qed.

(** Settle the test of the first [if] of the goal by evaluation. *)
Ltac settle_test :=
  match goal with
  | |- context [if ?b then _ else _] =>
      first [change b with true | change b with false]; cbv iota
  end.

Section Lines.
Context `{Platform} (clock : nat → Z).

Lemma load_tweet_line (st : list Tweet * pending) (d : str) :
  load_line clock st (lit "TWEET " ++ d) = st.
Proof.
  destruct st as [T cur]. unfold load_line.
  destruct (strip_keeps_prefix (lit "TWEET") (lit " " ++ d)) as [t' Ht'];
    [done .. |].
  change (lit "TWEET " ++ d) with (lit "TWEET" ++ lit " " ++ d).
  rewrite Ht'. do 4 settle_test.
  change (startswith (lit "http") (lit "TWEET" ++ t')) with false.
  cbv beta iota. simpl andb. cbv iota. settle_test.
  change (contains (lit "TWEET") (lit "TWEET" ++ t')) with true.
  simpl negb. by rewrite andb_false_r.
Qed.

Lemma load_closed_lines (st : list Tweet * pending) :
  load_line clock st [] = st
  ∧ load_line clock st (lit "CONTENT:") = st
  ∧ load_line clock st (lit "URLS:") = st
  ∧ load_line clock st rule = st
  ∧ load_line clock st (lit "CLEANED TWEETS - DUPLICATES REMOVED") = st.
Proof. destruct st as [T cur]. repeat split; reflexivity. Qed.

Lemma load_date_line (T : list Tweet) (cur : pending) (d : str) :
  ∃ read, load_line clock (T, cur) (lit "Date: " ++ d)
          = (flush clock T cur, mk_pending (Some read) None None None).
Proof.
  unfold load_line.
  destruct (strip_keeps_prefix (lit "Date:") (lit " " ++ d)) as [t' Ht'];
    [done .. |].
  change (lit "Date: " ++ d) with (lit "Date:" ++ lit " " ++ d).
  rewrite Ht'. settle_test. eauto.
Qed.

Lemma load_reply_line (T : list Tweet) (cur : pending) (r : str) :
  ∃ read, load_line clock (T, cur) (lit "REPLY TO: " ++ r)
          = (T, mk_pending (p_date cur) (p_content cur) (Some read) (p_urls cur)).
Proof.
  unfold load_line.
  destruct (strip_keeps_prefix (lit "REPLY TO:") (lit " " ++ r)) as [t' Ht'];
    [done .. |].
  change (lit "REPLY TO: " ++ r) with (lit "REPLY TO:" ++ lit " " ++ r).
  rewrite Ht'. do 2 settle_test. eauto.
Qed.

Lemma startswith_app (p s : str) :
  startswith p s = true → ∃ t, s = p ++ t.
Proof.
  revert s. induction p as [|c p IH]; intros s; [by exists s |].
  destruct s as [|d s]; simpl; [done |].
  intros [->%N.eqb_eq Hp]%andb_prop. destruct (IH s Hp) as [t ->]. by exists t.
Qed.

Lemma load_url_line (T : list Tweet) (cur : pending) (u : str) :
  startswith (lit "http") u = true →
  ∃ read, load_line clock (T, cur) (lit "- " ++ u)
          = (T, mk_pending (p_date cur) (p_content cur) (p_reply_to cur)
                           (Some read)).
Proof.
  intros [u' ->]%startswith_app. unfold load_line.
  destruct (strip_keeps_prefix (lit "- http") u') as [t' Ht']; [done .. |].
  change (lit "- " ++ lit "http" ++ u') with (lit "- http" ++ u').
  rewrite Ht'. do 4 settle_test.
  change (startswith (lit "http") (lit "- http" ++ t')) with false.
  simpl andb. cbv iota. settle_test. eauto.
Qed.

Lemma load_content_line (T : list Tweet) (cur : pending) (c : str) :
  strip c = c → reads_as_content c = true → p_content cur = None →
  load_line clock (T, cur) c
  = (T, mk_pending (p_date cur) (Some c) (p_reply_to cur) (p_urls cur)).
Proof.
  intros Hstrip Hc Hnone. unfold reads_as_content in Hc.
  repeat (apply andb_prop in Hc as [Hc ?]).
  repeat match goal with
         | E : negb _ = true |- _ => apply negb_true_iff in E
         end.
  unfold load_line. rewrite Hstrip, Hnone.
  repeat match goal with
         | E : ?b = false |- context [?b] => rewrite E
         end.
  reflexivity.
Qed.
End Lines.

(** *** Digits *)


Ltac settle_comparisons :=
  repeat match goal with
         | |- context [N.leb ?a ?b] =>
             first [rewrite (proj2 (N.leb_gt a b)) by lia
                   | rewrite (proj2 (N.leb_le a b)) by lia]
         | |- context [N.eqb ?a ?b] =>
             rewrite (proj2 (N.eqb_neq a b)) by lia
         end.

Lemma digit_not_space (c : char) : isdigit c → isspace c = false.
Proof. unfold isdigit, isspace. intros Hc. by settle_comparisons. Qed.

Lemma digit_no_break (c : char) : isdigit c → no_break c = true.
Proof. unfold isdigit, no_break, chr_eqb. intros Hc. by settle_comparisons. Qed.

Lemma digits_fuel_digits (fuel : nat) :
  ∀ n acc, Forall isdigit acc → Forall isdigit (digits_fuel fuel n acc).
Proof.
  induction fuel as [|fuel IH]; intros n acc Hacc; simpl; [done |].
  assert (isdigit (48 + n mod 10)%N) as Hd.
  { unfold isdigit. assert (n mod 10 < 10)%N by (apply N.mod_lt; lia).
    pose proof (N.le_0_l (n mod 10)). lia. }
  destruct (n <? 10)%N; [by constructor | apply IH; by constructor].
Qed.

Lemma digits_fuel_length (fuel : nat) :
  ∀ n acc, (length acc ≤ length (digits_fuel fuel n acc))%nat.
Proof.
  induction fuel as [|fuel IH]; intros n acc; simpl; [done |].
  destruct (n <? 10)%N; [simpl; lia |].
  etrans; [| apply IH]. simpl. lia.
Qed.

Lemma str_of_N_digits (n : N) : Forall isdigit (str_of_N n).
Proof. apply digits_fuel_digits. constructor. Qed.

Lemma str_of_N_nonempty (n : N) : str_of_N n ≠ [].
Proof.
  unfold str_of_N. simpl. intros Hnil.
  destruct (n <? 10)%N; [done |].
  pose proof (digits_fuel_length (N.to_nat (N.log2 n)) (n / 10)
                [(48 + n mod 10)%N]) as Hlen.
  rewrite Hnil in Hlen. simpl in Hlen. lia.
Qed.

Lemma digits_no_break (d : str) : Forall isdigit d → forallb no_break d = true.
Proof.
  induction 1 as [|c d Hc _ IH]; simpl; [done |].
  by rewrite (digit_no_break c Hc), IH.
Qed.

Lemma contains_fresh (c0 : char) (q hay : str) :
  Forall (λ c, chr_eqb c0 c = false) hay → contains (c0 :: q) hay = false.
Proof. induction 1 as [|d hay Hd _ IH]; simpl; [done |]. by rewrite Hd, IH. Qed.

Lemma digits_fresh (c0 : char) (d : str) :
  (c0 < 48 ∨ 57 < c0)%N → Forall isdigit d →
  Forall (λ c, chr_eqb c0 c = false) d.
Proof.
  intros Hc0 Hd. eapply Forall_impl; [exact Hd |].
  unfold isdigit, chr_eqb. intros c Hc. apply N.eqb_neq. lia.
Qed.

Lemma strip_fixed (s : str) :
  starts_outside isspace s → starts_outside isspace (reverse s) → strip s = s.
Proof.
  intros Hhead Hlast. unfold strip, lstrip, rstrip.
  rewrite (dropwhile_outside _ s Hhead), (dropwhile_outside _ _ Hlast).
  apply reverse_involutive.
Qed.

Lemma digits_end_outside (p d : str) :
  Forall isdigit d → d ≠ [] → starts_outside isspace (reverse (p ++ d)).
Proof.
  intros Hd Hne. rewrite reverse_app.
  destruct (reverse d) as [|c r] eqn:E.
  - apply (f_equal reverse) in E. rewrite reverse_involutive in E. done.
  - simpl. apply digit_not_space.
    apply (Forall_reverse isdigit) in Hd. rewrite E in Hd.
    by apply Forall_cons in Hd as [? _].
Qed.

Section Header.
Context `{Platform} (clock : nat → Z).

Lemma load_total_line (T : list Tweet) (cur : pending) (n : N) :
  p_content cur = None →
  load_line clock (T, cur) (lit "Total tweets: " ++ str_of_N n)
  = (T, mk_pending (p_date cur) (Some (lit "Total tweets: " ++ str_of_N n))
                   (p_reply_to cur) (p_urls cur)).
Proof.
  intros Hnone. pose proof (str_of_N_digits n) as Hd.
  pose proof (str_of_N_nonempty n) as Hne.
  apply load_content_line; [| | done].
  - apply strip_fixed; [done | by apply digits_end_outside].
  - unfold reads_as_content.
    change (contains (lit "=") (lit "Total tweets: " ++ str_of_N n))
      with (contains (lit "=") (str_of_N n)).
    change (contains (lit "TWEET") (lit "Total tweets: " ++ str_of_N n))
      with (contains (lit "TWEET") (str_of_N n)).
    change (contains (lit "Archive") (lit "Total tweets: " ++ str_of_N n))
      with (contains (lit "Archive") (str_of_N n)).
    change (lit "=") with [61%N]. change (lit "TWEET") with (84%N :: lit "WEET").
    change (lit "Archive") with (65%N :: lit "rchive").
    rewrite !contains_fresh by (apply digits_fresh; [lia | done]).
    reflexivity.
Qed.
End Header.

(** *** Lines without a line break *)

Lemma dec_digits (w : nat) (z : Z) : Forall isdigit (dec w z).
Proof.
  unfold dec, zpad. apply Forall_app. split; [| apply str_of_N_digits].
  apply Forall_replicate. unfold isdigit. lia.
Qed.

Lemma dec_no_break (w : nat) (z : Z) : forallb no_break (dec w z) = true.
Proof. apply digits_no_break, dec_digits. Qed.

Lemma format_offset_no_break (off : option Z) :
  forallb no_break (format_offset off) = true.
Proof.
  destruct off as [o|]; [| done]. unfold format_offset.
  repeat match goal with
         | |- context [if ?b then _ else _] => destruct b
         end;
    rewrite ?forallb_app, ?dec_no_break; reflexivity.
Qed.

Lemma isoformat_no_break (d : datetime) : forallb no_break (isoformat d) = true.
Proof.
  unfold isoformat.
  destruct (microsecond (fields_of d) =? 0);
    rewrite ?forallb_app, ?dec_no_break, ?format_offset_no_break; reflexivity.
Qed.

Lemma collapsed_no_break (s : str) : collapsed s → forallb no_break s = true.
Proof.
  induction s as [|c s IH]; [done |]. intros [Hc Hs]. simpl.
  rewrite (IH Hs), andb_true_r. unfold no_break, chr_eqb.
  destruct (N.eqb_spec c 10) as [-> | ?]; [by destruct (Hc eq_refl) |].
  destruct (N.eqb_spec c 13) as [-> | ?]; [by destruct (Hc eq_refl) |].
  done.
Qed.

(** *** A block, a listing *)

Section RoundTrip.
Context `{Platform} (clock : nat → Z).
Hypothesis blank_not_alnum : isalnum 32%N = false.

Lemma replayable_shape (t : Tweet) :
  replayable t →
  strip (content t) = content t ∧ collapsed (content t)
  ∧ _normalize_content (content t) = content t.
Proof.
  intros [Hbuilt Hurl _ _ _].
  assert (Re.isword 32%N = false) as Hword
    by (unfold Re.isword; by rewrite blank_not_alnum).
  destruct (normalized_shape (original_content t) Hword) as (? & ? & _).
  rewrite Hbuilt. split; [done | split; [done |]].
  apply normalize_stable; [done |]. by rewrite <- Hbuilt.
Qed.

Lemma block_no_break (i : nat) (t : Tweet) :
  replayable t → Forall (λ l, forallb no_break l = true) (block_lines i t).
Proof.
  intros Ht. destruct (replayable_shape t Ht) as (_ & Hcoll & _).
  destruct Ht as [_ _ _ Hreply Hurls]. unfold block_lines.
  repeat first [apply Forall_app; split | apply Forall_cons; split
               | apply Forall_nil ];
    rewrite ?forallb_app, ?isoformat_no_break, ?Hreply; try reflexivity.
  - apply digits_no_break, str_of_N_digits.
  - by apply collapsed_no_break.
  - destruct (urls t) as [|u us]; [constructor |].
    repeat (apply Forall_cons; split; [reflexivity |]).
    apply Forall_fmap. eapply Forall_impl; [exact Hurls |].
    intros u' [_ Hu']. unfold compose. by rewrite forallb_app, Hu'.
Qed.

Lemma load_url_lines (T : list Tweet) (us : list str) :
  Forall (λ u, startswith (lit "http") u = true
               ∧ forallb no_break u = true) us →
  ∀ cur, ∃ cur',
    foldl (load_line clock) (T, cur) ((λ url, lit "- " ++ url) <$> us)
    = (T, cur')
    ∧ p_content cur' = p_content cur.
Proof.
  induction 1 as [|u us [Hu _] _ IH]; intros cur; rewrite ?fmap_cons;
    cbn [foldl]; [by eauto |].
  destruct (load_url_line clock T cur u Hu) as [read ->].
  destruct (IH (mk_pending (p_date cur) (p_content cur) (p_reply_to cur)
                           (Some read))) as (cur' & -> & Hc).
  eauto.
Qed.

Lemma load_block (T : list Tweet) (cur : pending) (i : nat) (t : Tweet) :
  replayable t →
  ∃ cur', foldl (load_line clock) (T, cur) (block_lines i t)
          = (flush clock T cur, cur')
          ∧ p_content cur' = Some (content t).
Proof.
  intros Ht. destruct (replayable_shape t Ht) as (Hstrip & _ & _).
  destruct Ht as [_ _ Hcontent _ Hurls].
  unfold block_lines. rewrite !foldl_app. cbn [foldl].
  rewrite load_tweet_line.
  destruct (load_date_line clock T cur (isoformat (date t))) as [d ->].
  destruct (load_reply_line clock (flush clock T cur)
              (mk_pending (Some d) None None None) (reply_to t)) as [r ->].
  cbn [p_date p_content p_reply_to p_urls].
  destruct (load_closed_lines clock (flush clock T cur,
              mk_pending (Some d) None (Some r) None)) as (_ & -> & _).
  cbn [p_date p_content p_reply_to p_urls].
  rewrite load_content_line by done.
  cbn [p_date p_content p_reply_to p_urls].
  set (T' := flush clock T cur).
  assert (∃ cur', foldl (load_line clock)
                        (T', mk_pending (Some d) (Some (content t)) (Some r) None)
                        match urls t with
                        | [] => []
                        | us => [[]; lit "URLS:"] ++ ((λ url, lit "- " ++ url) <$> us)
                        end = (T', cur')
                  ∧ p_content cur' = Some (content t)) as (cur' & -> & Hc).
  { destruct (urls t) as [|u us] eqn:E; [by eauto |].
    rewrite foldl_app. cbn [foldl].
    destruct (load_closed_lines clock
                (T', mk_pending (Some d) (Some (content t)) (Some r) None))
      as (Hblank & _ & Hurls_line & _).
    rewrite Hblank, Hurls_line.
    rewrite <- E in *. clear E.
    destruct (load_url_lines T' (urls t) Hurls
                (mk_pending (Some d) (Some (content t)) (Some r) None))
      as (cur' & -> & Hc).
    eauto. }
  destruct (load_closed_lines clock (T', cur')) as (Hblank & _ & _ & Hrule & _).
  rewrite Hblank, Hrule, Hblank. eauto.
Qed.

Lemma flush_Some (T : list Tweet) (cur : pending) (c : str) :
  p_content cur = Some c →
  flush clock T cur
  = T ++ [Tweet_init (clock (length T)) (default [] (p_date cur)) c
                     (default [] (p_reply_to cur)) (default [] (p_urls cur))].
Proof. unfold flush. by intros ->. Qed.

End RoundTrip.

(** *** A listing of any tweets *)

Lemma readlines_from_app_lf (x y : str) :
  ∀ cur, readlines_from cur (x ++ nl ++ y)
         = readlines_from cur (x ++ nl) ++ readlines_from [] y.
Proof.
  remember (length x) as n eqn:En. revert x En.
  induction (lt_wf n) as [n _ IH]. intros x -> cur.
  destruct x as [|c x]; [done |].
  cbn [app readlines_from].
  destruct (chr_eqb c 10).
  { rewrite (IH (length x)); [done | simpl; lia | done]. }
  destruct (chr_eqb c 13).
  - destruct x as [|d x]; cbn [app].
    + change (chr_eqb 10 10) with true. cbv iota. done.
    + destruct (chr_eqb d 10).
      * rewrite (IH (length x)); [done | simpl; lia | done].
      * rewrite (IH (length (d :: x)) ltac:(simpl; lia) (d :: x) eq_refl). done.
  - rewrite (IH (length x)); [done | simpl; lia | done].
Qed.

Section Replay.
Context `{Platform} (clock : nat → Z).

Lemma flush_extends (T : list Tweet) (cur : pending) :
  ∃ tail, flush clock T cur = T ++ tail.
Proof.
  unfold flush. destruct (p_content cur); [by eexists |].
  exists []. by rewrite app_nil_r.
Qed.

Lemma load_line_extends (T : list Tweet) (cur : pending) (raw : str) :
  ∃ extra cur', load_line clock (T, cur) raw = (T ++ extra, cur').
Proof.
  assert (∀ cur0 : pending, ∃ extra cur', (T, cur0) = (T ++ extra, cur'))
    as Hsame by (intros cur0; exists [], cur0; by rewrite app_nil_r).
  unfold load_line.
  destruct (startswith (lit "Date:") _).
  { destruct (flush_extends T cur) as [tail ->]. eauto. }
  repeat match goal with
         | |- context [if ?b then _ else _] => destruct b
         end; apply Hsame.
Qed.

Lemma foldl_load_extends (lines : list str) :
  ∀ T cur, ∃ extra cur',
    foldl (load_line clock) (T, cur) lines = (T ++ extra, cur').
Proof.
  induction lines as [|raw lines IH]; intros T cur; cbn [foldl].
  - exists [], cur. by rewrite app_nil_r.
  - destruct (load_line_extends T cur raw) as (e1 & cur1 & ->).
    destruct (IH (T ++ e1) cur1) as (e2 & cur2 & ->).
    exists (e1 ++ e2), cur2. by rewrite app_assoc.
Qed.

Lemma tweet_block_parts (i : nat) (t : Tweet) :
  tweet_block i t
  = (lit "TWEET " ++ str_of_N (N.of_nat i)) ++ nl
    ++ (lit "Date: " ++ isoformat (date t)) ++ nl ++ block_rest t.
Proof. unfold tweet_block, block_rest. by rewrite <- !app_assoc. Qed.

Lemma tweet_block_ends (i : nat) (t : Tweet) : ∃ x, tweet_block i t = x ++ nl.
Proof. unfold tweet_block. eexists. rewrite !app_assoc. reflexivity. Qed.

Lemma readlines_block_app (i : nat) (t : Tweet) (rest : str) :
  readlines (tweet_block i t ++ rest)
  = readlines (tweet_block i t) ++ readlines rest.
Proof.
  destruct (tweet_block_ends i t) as [x ->]. unfold readlines.
  rewrite <- app_assoc. apply readlines_from_app_lf.
Qed.

Lemma readlines_block (i : nat) (t : Tweet) :
  readlines (tweet_block i t)
  = terminated (lit "TWEET " ++ str_of_N (N.of_nat i))
    :: terminated (lit "Date: " ++ isoformat (date t))
    :: readlines (block_rest t).
Proof.
  rewrite tweet_block_parts. unfold readlines.
  rewrite readlines_from_line.
  2: { rewrite forallb_app. simpl. apply digits_no_break, str_of_N_digits. }
  rewrite readlines_from_line.
  2: { rewrite forallb_app. simpl. apply isoformat_no_break. }
  reflexivity.
Qed.

Lemma readlines_listing (ts : list Tweet) :
  readlines (cleaned_listing ts)
  = (terminated <$> header_lines (length ts)) ++ readlines (tweet_blocks 1 ts).
Proof.
  unfold cleaned_listing, header_lines, readlines.
  rewrite readlines_from_line by reflexivity.
  rewrite (app_assoc (lit "Total tweets: ")), readlines_from_line.
  2: { rewrite forallb_app. simpl. apply digits_no_break, str_of_N_digits. }
  rewrite readlines_from_line by reflexivity.
  rewrite (readlines_from_line [] (tweet_blocks 1 ts)) by reflexivity.
  reflexivity.
Qed.

Section Blocks.
Hypothesis blank_not_alnum : isalnum 32%N = false.

(** A block always starts a fresh record at its date line; when the format
    carries the tweet, the block leaves its comparison text pending and
    flushes nothing else. *)
Lemma load_any_block (T : list Tweet) (cur : pending) (i : nat) (t : Tweet) :
  ∃ extra cur',
    foldl (load_line clock) (T, cur) (readlines (tweet_block i t))
    = (flush clock T cur ++ extra, cur')
    ∧ (replayable t → extra = [] ∧ p_content cur' = Some (content t)).
Proof.
  assert (∃ extra cur',
            foldl (load_line clock) (T, cur) (readlines (tweet_block i t))
            = (flush clock T cur ++ extra, cur')) as (extra & cur' & Hany).
  { rewrite readlines_block. cbn [foldl].
    rewrite !load_line_terminated, load_tweet_line.
    destruct (load_date_line clock T cur (isoformat (date t))) as [d ->].
    apply foldl_load_extends. }
  exists extra, cur'. split; [done |]. intros Ht.
  rewrite tweet_block_lines, readlines_lines, foldl_load_terminated in Hany
    by (by apply block_no_break).
  destruct (load_block clock blank_not_alnum T cur i t Ht) as (cur1 & Hblock & Hc).
  rewrite Hblock in Hany. injection Hany as Hextra <-.
  split; [| done].
  apply (app_inv_head (flush clock T cur)). by rewrite app_nil_r.
Qed.

Lemma load_any_blocks (ts : list Tweet) :
  ∀ (i : nat) (T : list Tweet) (cur : pending),
    ∃ chunks,
      (let '(T', cur') :=
         foldl (load_line clock) (T, cur) (readlines (tweet_blocks i ts)) in
       flush clock T' cur')
      = flush clock T cur ++ concat chunks
      ∧ Forall2 read_back ts chunks.
Proof.
  induction ts as [|t ts IH]; intros i T cur.
  - exists []. simpl. by rewrite app_nil_r.
  - cbn [tweet_blocks]. rewrite readlines_block_app, foldl_app.
    destruct (load_any_block T cur i t) as (extra & cur1 & -> & Hcarried).
    destruct (IH (S i) (flush clock T cur ++ extra) cur1) as (chunks & -> & Hre).
    destruct (flush_extends (flush clock T cur ++ extra) cur1) as [tail Htail].
    exists ((extra ++ tail) :: chunks). split.
    + rewrite Htail. cbn [concat]. by rewrite <- !app_assoc.
    + constructor; [| done]. intros Ht.
      destruct (Hcarried Ht) as [-> Hc].
      rewrite (flush_Some _ _ _ _ Hc), app_nil_r in Htail.
      apply app_inv_head in Htail as <-.
      eexists. split; [reflexivity |].
      destruct (replayable_shape blank_not_alnum t Ht) as (_ & _ & Hfix).
      split; [exact Hfix |]. intros md5_hex. unfold get_content_hash.
      cbn [content Tweet_init]. by rewrite Hfix.
Qed.

Lemma load_any_listing (ts : list Tweet) :
  ∃ header chunks,
    load_lines clock (readlines (cleaned_listing ts)) = header :: concat chunks
    ∧ original_content header
      = lit "Total tweets: " ++ str_of_N (N.of_nat (length ts))
    ∧ Forall2 read_back ts chunks.
Proof.
  rewrite readlines_listing. unfold load_lines.
  rewrite foldl_app, foldl_load_terminated.
  unfold header_lines. cbn [foldl].
  destruct (load_closed_lines clock ([], no_pending)) as (_ & _ & _ & _ & ->).
  rewrite load_total_line by done.
  cbn [p_date p_content p_reply_to p_urls no_pending].
  set (cur := mk_pending None _ None None).
  destruct (load_closed_lines clock ([], cur)) as (Hblank & _ & _ & -> & _).
  rewrite Hblank.
  destruct (load_any_blocks ts 1%nat [] cur) as (chunks & -> & Hre).
  eexists _, chunks. split; [reflexivity | split; [reflexivity | done]].
Qed.
End Blocks.
End Replay.

(** C5, as the code has it: reading a listing back gives the record made
    of the line that counts the tweets, then, in the order of the listing,
    the records each written tweet comes back as; a kept tweet that the
    text format carries comes back as one record, with the same comparison
    text and the same content fingerprint, whatever the other tweets of the
    listing are. *)
Theorem kept_text_survives_replay `{Platform} (clock : nat → Z)
    (tweets : list Tweet) :
  isalnum 32%N = false →
  ∃ header chunks,
    load_lines clock (readlines (cleaned_listing tweets))
    = header :: concat chunks
    ∧ original_content header
      = lit "Total tweets: " ++ str_of_N (N.of_nat (length tweets))
    ∧ Forall2 (λ t chunk,
                 replayable t →
                 ∃ t', chunk = [t'] ∧ content t' = content t
                       ∧ ∀ md5_hex, get_content_hash md5_hex t'
                                    = get_content_hash md5_hex t)
              tweets chunks.
Proof. intros Hblank. apply (load_any_listing clock Hblank tweets). Qed.

Lemma kept_text_survives_replay_witness :
  (∀ t, t ∈ partly_replayed → t ≠ sum_tweet → @replayable example_platform t)
  ∧ content <$> @load_lines example_platform example_clock
                  (readlines (cleaned_listing partly_replayed))
    = [lit "Total tweets: 3"; lit "see you at nine"; lit "good morning"]
  ∧ ∃ header chunks,
      @load_lines example_platform example_clock
        (readlines (cleaned_listing partly_replayed)) = header :: concat chunks
      ∧ original_content header
        = lit "Total tweets: " ++ str_of_N (N.of_nat (length partly_replayed))
      ∧ Forall2 (λ t chunk,
                   @replayable example_platform t →
                   ∃ t', chunk = [t'] ∧ content t' = content t
                         ∧ ∀ md5_hex, get_content_hash md5_hex t'
                                      = get_content_hash md5_hex t)
                partly_replayed chunks.
Proof.
  split; [| split; [vm_compute; reflexivity |]].
  - intros t Ht Hne. unfold partly_replayed in Ht.
    apply elem_of_cons in Ht as [-> | Ht];
      [repeat constructor; vm_compute; reflexivity |].
    apply elem_of_cons in Ht as [-> | Ht]; [done |].
    apply list_elem_of_singleton in Ht as ->.
    repeat constructor; vm_compute; reflexivity.
  - apply (@kept_text_survives_replay example_platform example_clock
             partly_replayed).
    reflexivity.
Defined.

(** C5 fails as stated: the loader drops every line with an equals sign in
    it, so a kept record whose text has one is not read back at all; what is
    read back is the line of the header that counts the tweets. *)
Lemma equals_sign_lost_on_replay :
  content sum_tweet = lit "1+1=2"
  ∧ content <$> @load_lines example_platform example_clock
                  (readlines (cleaned_listing [sum_tweet]))
    = [lit "Total tweets: 1"]
  ∧ ¬ ∃ t', t' ∈ @load_lines example_platform example_clock
                    (readlines (cleaned_listing [sum_tweet]))
            ∧ content t' = content sum_tweet.
Proof.
  assert (content <$> @load_lines example_platform example_clock
                        (readlines (cleaned_listing [sum_tweet]))
          = [lit "Total tweets: 1"]) as Hread by (vm_compute; reflexivity).
  split; [vm_compute; reflexivity | split; [exact Hread |]].
  intros (t' & Hin & Hc).
  apply (list_elem_of_fmap_2 content) in Hin. rewrite Hread, Hc in Hin.
  apply list_elem_of_singleton in Hin. vm_compute in Hin. congruence.
Qed.

(** ** What the groups say about their members *)

Section Verdicts.
Variables (self : DuplicateDetector) (tweets : list Tweet).

Lemma scan_later_verdicts (i : nat) (js : list nat) :
  ∀ (group : list nat) (processed : gset nat) (group' : list nat)
    (processed' : gset nat),
    scan_later self tweets i js group processed = Ok (group', processed') →
    ∃ added,
      group' = group ++ added
      ∧ processed' = processed ∪ list_to_set added
      ∧ Forall (at_indices tweets (matched self) i) added
      ∧ ∀ j, j ∈ js → j ∉ processed' → at_indices tweets (unmatched self) i j.
Proof.
  induction js as [|j js IH]; intros group processed group' processed'; simpl.
  - intros [= <- <-]. exists []. rewrite app_nil_r.
    repeat split; [set_solver | done | set_solver].
  - destruct (decide (j ∈ processed)) as [Hin | Hfresh].
    { intros Hscan. destruct (IH _ _ _ _ Hscan) as (added & -> & -> & Hm & Hu).
      exists added. repeat split; try done. intros j' Hj' Hout.
      apply elem_of_cons in Hj' as [-> | Hj']; [set_solver | by apply Hu]. }
    intros Hscan.
    apply bind_Ok in Hscan as (ti & Hti & Hscan).
    apply bind_Ok in Hscan as (tj & Htj & Hscan).
    apply bind_Ok in Hscan as (close & Hclose & Hscan).
    apply item_Ok in Hti, Htj.
    destruct close; simpl in Hscan.
    + destruct (Qle_bool (content_threshold self) _) eqn:Hsim.
      * destruct (IH _ _ _ _ Hscan) as (added & -> & -> & Hm & Hu).
        exists (j :: added). repeat split.
        -- by rewrite <- app_assoc.
        -- set_solver.
        -- constructor; [| done]. exists ti, tj.
           repeat split; try done. by apply Qle_bool_iff.
        -- intros j' Hj' Hout.
           apply elem_of_cons in Hj' as [-> | Hj']; [set_solver | by apply Hu].
      * destruct (IH _ _ _ _ Hscan) as (added & -> & -> & Hm & Hu).
        exists added. repeat split; try done. intros j' Hj' Hout.
        apply elem_of_cons in Hj' as [-> | Hj']; [| by apply Hu].
        exists ti, tj. repeat split; try done. right. split; [done |].
        intros Hle%Qle_bool_iff. congruence.
    + destruct (IH _ _ _ _ Hscan) as (added & -> & -> & Hm & Hu).
      exists added. repeat split; try done. intros j' Hj' Hout.
      apply elem_of_cons in Hj' as [-> | Hj']; [| by apply Hu].
      exists ti, tj. repeat split; try done. by left.
Qed.

(** What the loop over the anchors adds to [duplicates]: groups led by their
    anchor, whose members all matched it; and an anchor that stays alone or
    leads a group has rejected every later tweet left outside the groups. *)
Lemma scan_anchors_verdicts (len : nat) :
  ∀ (i0 : nat) (duplicates : list (list nat)) (processed : gset nat)
    (groups : list (list nat)),
    (i0 + len = length tweets)%nat →
    scan_anchors self tweets (length tweets) (seq i0 len) duplicates processed
    = Ok groups →
    ∃ new,
      groups = duplicates ++ new
      ∧ Forall (λ g, ∃ i added, g = i :: added
                  ∧ Forall (at_indices tweets (matched self) i) added) new
      ∧ ∀ i j, (i0 ≤ i < j)%nat → (j < length tweets)%nat →
               i ∉ processed → j ∉ processed →
               (∀ g, g ∈ new → i ∈ g → head g = Some i) →
               (∀ g, g ∈ new → j ∉ g) →
               at_indices tweets (unmatched self) i j.
Proof.
  induction len as [|len IH]; intros i0 duplicates processed groups Hlen; simpl.
  - intros [= <-]. exists []. rewrite app_nil_r. repeat split; [done |].
    intros i j ? ?. lia.
  - destruct (decide (i0 ∈ processed)) as [Hin | Hfresh].
    { intros Hscan. destruct (IH (S i0) _ _ _ ltac:(lia) Hscan)
        as (new & -> & Hm & Hu).
      exists new. repeat split; try done.
      intros i j Hij Hj Hi. destruct (decide (i = i0)) as [-> | ?]; [done |].
      apply Hu; [lia | done | done]. }
    intros Hscan. apply bind_Ok in Hscan as ([group processed1] & Hlater & Hscan).
    apply scan_later_verdicts in Hlater as (added & -> & -> & Hm1 & Hu1).
    simpl in Hscan. destruct added as [|j0 added]; simpl in Hscan.
    + destruct (IH (S i0) _ _ _ ltac:(lia) Hscan) as (new & -> & Hm & Hu).
      exists new. repeat split; try done.
      intros i j Hij Hj Hi Hjp Hhead Hout.
      destruct (decide (i = i0)) as [-> | ?].
      * apply Hu1; [apply elem_of_seq; lia | set_solver].
      * apply Hu; try done; [lia | set_solver | set_solver].
    + destruct (IH (S i0) _ _ _ ltac:(lia) Hscan) as (new & -> & Hm & Hu).
      exists ((i0 :: j0 :: added) :: new). repeat split.
      * by rewrite <- app_assoc.
      * constructor; [| done]. eauto.
      * intros i j Hij Hj Hi Hjp Hhead Hout.
        assert (j ∉ i0 :: j0 :: added) as Hjg by (apply Hout; set_solver).
        destruct (decide (i = i0)) as [-> | ?].
        -- apply Hu1; [apply elem_of_seq; lia | set_solver].
        -- assert (i ∉ i0 :: j0 :: added) as Hig.
           { intros Hig.
             assert (head (i0 :: j0 :: added) = Some i) as Hh
               by (apply Hhead; [set_solver | done]).
             simpl in Hh. congruence. }
           apply Hu; try done; [lia | set_solver | set_solver | |].
           ++ intros g Hg. apply Hhead. set_solver.
           ++ intros g Hg. apply Hout. set_solver.
Qed.

Lemma find_duplicates_verdicts (groups : list (list nat)) :
  find_duplicates self tweets = Ok groups →
  Forall (λ g, ∃ i added, g = i :: added
            ∧ Forall (at_indices tweets (matched self) i) added) groups
  ∧ ∀ i j, (i < j < length tweets)%nat →
           (∀ g, g ∈ groups → i ∈ g → head g = Some i) →
           (∀ g, g ∈ groups → j ∉ g) →
           at_indices tweets (unmatched self) i j.
Proof.
  unfold find_duplicates. intros Hfind.
  destruct (scan_anchors_verdicts (length tweets) O [] ∅ groups)
    as (new & Hnew & Hm & Hu); [lia | exact Hfind |].
  simpl in Hnew. subst new.
  split; [done |]. intros i j Hij Hhead Hout.
  apply Hu; [lia | lia | set_solver | set_solver | done | done].
Qed.
End Verdicts.

Lemma similarity_empty_r (x : str) : calculate_content_similarity x [] = 0%Q.
Proof. by destruct x. Qed.

(** X1: when [find_duplicates] returns, every group is led by its anchor, and
    every other member lies within the date window of the anchor and scores
    at or above the threshold against it. *)
Theorem cluster_members_match_anchor (self : DuplicateDetector)
    (tweets : list Tweet) (groups : list (list nat)) :
  find_duplicates self tweets = Ok groups →
  ∀ g, g ∈ groups →
    ∃ anchor rest ta,
      g = anchor :: rest ∧ tweets !! anchor = Some ta
      ∧ ∀ j, j ∈ rest → ∃ tj, tweets !! j = Some tj ∧ matched self ta tj.
Proof.
  intros Hfind g Hg.
  destruct (find_duplicates_inv _ _ _ Hfind) as [Hgood _].
  destruct (find_duplicates_verdicts _ _ _ Hfind) as [Hm _].
  rewrite Forall_forall in Hm. destruct (Hm g Hg) as (i & added & -> & Hadded).
  destruct (Hgood _ Hg) as [_ _ Hvalid _].
  destruct (lookup_lt_is_Some_2 tweets i) as [ti Hti]; [apply Hvalid; set_solver |].
  exists i, added, ti. split; [done | split; [done |]].
  rewrite Forall_forall in Hadded. intros j Hj.
  destruct (Hadded j Hj) as (ti' & tj & Hti' & Htj & Hmatch).
  exists tj. split; [done |]. congruence.
Qed.

Lemma cluster_members_match_anchor_witness :
  find_duplicates default_detector [chain_A; chain_B; chain_C] = Ok [[0; 1]]%nat
  ∧ ∀ g, g ∈ [[0; 1]]%nat →
      ∃ anchor rest ta,
        g = anchor :: rest ∧ [chain_A; chain_B; chain_C] !! anchor = Some ta
        ∧ ∀ j, j ∈ rest → ∃ tj, [chain_A; chain_B; chain_C] !! j = Some tj
                                ∧ matched default_detector ta tj.
Proof.
  split; [vm_compute; reflexivity |].
  apply (cluster_members_match_anchor default_detector
           [chain_A; chain_B; chain_C] [[0; 1]]%nat).
  vm_compute; reflexivity.
Defined.

(** X2: an index that stays alone or leads its group has rejected every
    later index left outside the groups: the two dates are too far apart, or
    they are close and the test of the score against the threshold
    fails. *)
Theorem anchor_rejects_unclustered (self : DuplicateDetector)
    (tweets : list Tweet) (groups : list (list nat)) (i j : nat) (ti tj : Tweet) :
  find_duplicates self tweets = Ok groups →
  (i < j)%nat → tweets !! i = Some ti → tweets !! j = Some tj →
  (∀ g, g ∈ groups → i ∈ g → head g = Some i) →
  (∀ g, g ∈ groups → j ∉ g) →
  unmatched self ti tj.
Proof.
  intros Hfind Hij Hti Htj Hhead Hout.
  destruct (find_duplicates_verdicts _ _ _ Hfind) as [_ Hu].
  destruct (Hu i j) as (ti' & tj' & Hti' & Htj' & Hun); try done.
  - split; [done |]. by eapply lookup_lt_Some.
  - congruence.
Qed.

Lemma anchor_rejects_unclustered_witness :
  unmatched default_detector chain_A chain_C.
Proof.
  apply (anchor_rejects_unclustered default_detector
           [chain_A; chain_B; chain_C] [[0; 1]]%nat 0 2).
  - vm_compute; reflexivity.
  - lia.
  - reflexivity.
  - reflexivity.
  - intros g ->%list_elem_of_singleton _. reflexivity.
  - intros g ->%list_elem_of_singleton Hin.
    apply elem_of_cons in Hin as [? | Hin]; [lia |].
    apply list_elem_of_singleton in Hin. lia.
Defined.

(** X3: with a positive threshold a tweet whose comparison text is empty,
    such as a tweet that is nothing but a link, belongs to no group. *)
Theorem empty_text_never_clustered (self : DuplicateDetector)
    (tweets : list Tweet) (groups : list (list nat)) (i : nat) (t : Tweet) :
  (0 < content_threshold self)%Q →
  find_duplicates self tweets = Ok groups →
  tweets !! i = Some t → content t = [] →
  ∀ g, g ∈ groups → i ∉ g.
Proof.
  intros Hthr Hfind Ht Hempty g Hg Hi.
  destruct (find_duplicates_inv _ _ _ Hfind) as [Hgood _].
  destruct (find_duplicates_verdicts _ _ _ Hfind) as [Hm _].
  rewrite Forall_forall in Hm. destruct (Hm g Hg) as (a & added & -> & Hadded).
  destruct (Hgood _ Hg) as [Hsize _ _ _]. rewrite Forall_forall in Hadded.
  apply elem_of_cons in Hi as [-> | Hi].
  - destruct added as [|j added]; [simpl in Hsize; lia |].
    destruct (Hadded j) as (ta & tj & Hta & _ & _ & Hsim); [set_solver |].
    assert (ta = t) as -> by congruence. rewrite Hempty in Hsim.
    simpl in Hsim. by apply Qle_not_lt in Hsim.
  - destruct (Hadded i Hi) as (ta & ti & _ & Hti & _ & Hsim).
    assert (ti = t) as -> by congruence.
    rewrite Hempty, similarity_empty_r in Hsim. by apply Qle_not_lt in Hsim.
Qed.

Lemma empty_text_never_clustered_witness :
  find_duplicates default_detector links_only = Ok [[0; 2]]%nat
  ∧ ∀ g, g ∈ [[0; 2]]%nat → (3 ∉ g)%nat.
Proof.
  split; [vm_compute; reflexivity |].
  apply (empty_text_never_clustered default_detector links_only [[0; 2]]%nat 3
           (example_tweet "2024-01-31T09:20:00.000Z" "https://example.org/a")).
  - reflexivity.
  - vm_compute; reflexivity.
  - reflexivity.
  - vm_compute; reflexivity.
Defined.

(** X4: with a negative date window no group is found. *)
Theorem negative_window_no_clusters (self : DuplicateDetector)
    (tweets : list Tweet) (groups : list (list nat)) :
  date_window self < 0 →
  find_duplicates self tweets = Ok groups → groups = [].
Proof.
  intros Hneg Hfind. destruct groups as [|g groups]; [done |]. exfalso.
  destruct (find_duplicates_inv _ _ _ Hfind) as [Hgood _].
  destruct (find_duplicates_verdicts _ _ _ Hfind) as [Hm _].
  apply Forall_cons in Hm as [(a & added & -> & Hadded) _].
  destruct (Hgood (a :: added)) as [Hsize _ _ _]; [set_solver |].
  destruct added as [|j added]; [simpl in Hsize; lia |].
  apply Forall_cons in Hadded as [(ta & tj & _ & _ & Hclose & _) _].
  unfold are_dates_close in Hclose.
  apply bind_Ok in Hclose as (d & _ & [= Hle%Z.leb_le]). lia.
Qed.

Lemma negative_window_no_clusters_witness :
  ∃ groups,
    find_duplicates (mk_DuplicateDetector (85 # 100) (-3600000000)) late_first
    = Ok groups
    ∧ groups = [].
Proof.
  exists []. split; [vm_compute; reflexivity |].
  apply (negative_window_no_clusters
           (mk_DuplicateDetector (85 # 100) (-3600000000)) late_first []).
  - reflexivity.
  - vm_compute; reflexivity.
Defined.

(** ** Dates of both kinds in one batch *)

Section Awareness.
Variables (self : DuplicateDetector) (tweets : list Tweet).

(** The first anchor is compared with every later tweet. *)
Lemma scan_later_compares (i : nat) (js : list nat) :
  ∀ (group : list nat) (processed : gset nat) r,
    NoDup js → (∀ j, j ∈ js → j ∉ processed) →
    scan_later self tweets i js group processed = Ok r →
    ∀ j, j ∈ js → ∃ ti tj, tweets !! i = Some ti ∧ tweets !! j = Some tj
                           ∧ aware (date ti) = aware (date tj).
Proof.
  induction js as [|j js IH]; intros group processed r Hnodup Hfresh; simpl.
  { intros _ j Hj. by apply elem_of_nil in Hj. }
  apply NoDup_cons in Hnodup as [Hj Hnodup].
  destruct (decide (j ∈ processed)) as [Hin | _]; [exfalso; set_solver |].
  intros Hscan.
  apply bind_Ok in Hscan as (ti & Hti & Hscan).
  apply bind_Ok in Hscan as (tj & Htj & Hscan).
  apply bind_Ok in Hscan as (close & Hclose & Hscan).
  apply item_Ok in Hti, Htj. apply close_aware in Hclose.
  intros j' [-> | Hj']%elem_of_cons; [by eauto |].
  destruct close; simpl in Hscan; [destruct (Qle_bool _ _) |];
    (eapply IH; [done | | exact Hscan | done]); set_solver.
Qed.

Lemma scan_later_raises (i : nat) (js : list nat) :
  (i < length tweets)%nat → Forall (λ j, j < length tweets)%nat js →
  ∀ group processed e,
    scan_later self tweets i js group processed = Raise e → e = TypeError.
Proof.
  intros Hi. induction 1 as [|j js Hj _ IH]; intros group processed e; simpl.
  - done.
  - destruct (decide (j ∈ processed)); [apply IH |].
    destruct (lookup_lt_is_Some_2 tweets i Hi) as [ti Hti].
    destruct (lookup_lt_is_Some_2 tweets j Hj) as [tj Htj].
    apply item_Ok in Hti, Htj. rewrite Hti, ret_bind, Htj, ret_bind.
    destruct (are_dates_close self (date ti) (date tj)) as [c | e'] eqn:Hc.
    + rewrite ret_bind. destruct c; simpl; [destruct (Qle_bool _ _) |]; apply IH.
    + simpl. intros [= <-]. unfold are_dates_close, dt_sub in Hc.
      destruct (utcoffset (date ti)), (utcoffset (date tj)); simpl in Hc;
        congruence.
Qed.

Lemma scan_anchors_raises (rng : list nat) :
  Forall (λ i, i < length tweets)%nat rng →
  ∀ duplicates processed e,
    scan_anchors self tweets (length tweets) rng duplicates processed = Raise e →
    e = TypeError.
Proof.
  induction 1 as [|i rng Hi _ IH]; intros duplicates processed e; simpl.
  - done.
  - destruct (decide (i ∈ processed)); [apply IH |].
    destruct (scan_later self tweets i _ [i] processed) as [[g p] | e'] eqn:Hl.
    + rewrite ret_bind. destruct (1 <? length g)%nat; apply IH.
    + simpl. intros [= <-]. eapply scan_later_raises; [done | | exact Hl].
      apply Forall_forall. intros j Hj%elem_of_seq. lia.
Qed.

End Awareness.

Lemma find_duplicates_uniform (self : DuplicateDetector) (tweets : list Tweet)
    (groups : list (list nat)) :
  find_duplicates self tweets = Ok groups →
  ∃ w, ∀ t, t ∈ tweets → aware (date t) = w.
Proof.
  unfold find_duplicates. destruct tweets as [|t0 rest].
  { intros _. exists true. intros t Ht. by apply elem_of_nil in Ht. }
  cbn [length seq scan_anchors].
  destruct (decide (O ∈ (∅ : gset nat))) as [Hin | _]; [set_solver |].
  intros Hscan. apply bind_Ok in Hscan as (r & Hlater & _).
  exists (aware (date t0)). intros t [k Hk]%list_elem_of_lookup.
  destruct k as [|k]; [by injection Hk as -> |].
  destruct (scan_later_compares self (t0 :: rest) O _ [O] ∅ r
              (NoDup_seq _ _) ltac:(set_solver) Hlater (S k))
    as (ti & tj & Hti & Htj & Haw).
  { apply elem_of_seq. apply lookup_lt_Some in Hk. simpl in Hk. lia. }
  simpl in Hti. congruence.
Qed.


(** X5: [find_duplicates] returns exactly on the batches whose dates are all
    naive or all aware; on any other batch it raises [TypeError], and it
    raises nothing else. *)
Theorem find_duplicates_returns_iff_uniform (self : DuplicateDetector)
    (tweets : list Tweet) :
  ((∃ groups, find_duplicates self tweets = Ok groups)
   ↔ ∃ w, ∀ t, t ∈ tweets → aware (date t) = w)
  ∧ ∀ e, find_duplicates self tweets = Raise e → e = TypeError.
Proof.
  split; [split |].
  - intros [groups Hfind]. by eapply find_duplicates_uniform.
  - intros [w Hw]. by eapply find_duplicates_total.
  - intros e. apply scan_anchors_raises, Forall_forall.
    intros i Hi%elem_of_seq. lia.
Qed.

Lemma find_duplicates_returns_iff_uniform_witness :
  (∃ groups, find_duplicates default_detector late_first = Ok groups)
  ∧ find_duplicates default_detector mixed_dates = Raise TypeError.
Proof.
  split.
  - apply (proj1 (find_duplicates_returns_iff_uniform default_detector
                    late_first)).
    exists true. intros t Ht.
    assert (Forall (λ t, aware (date t) = true) late_first) as Hall
      by (vm_compute; repeat constructor).
    rewrite Forall_forall in Hall. by apply Hall.
  - destruct (find_duplicates default_detector mixed_dates) as [g | e] eqn:E;
      [vm_compute in E; discriminate E |].
    f_equal.
    by apply (proj2 (find_duplicates_returns_iff_uniform default_detector
                       mixed_dates)).
Defined.

(** ** What [remove_duplicates] keeps *)

Lemma sorted_increasing (s : gset nat) : StronglySorted lt (sorted s).
Proof.
  unfold sorted.
  assert (NoDup (merge_sort Nat.le (elements s))) as Hnodup
    by (rewrite merge_sort_Permutation; apply NoDup_elements).
  assert (StronglySorted Nat.le (merge_sort Nat.le (elements s))) as Hsorted
    by (apply (StronglySorted_merge_sort Nat.le)).
  induction Hsorted as [|x l _ IH Hx]; [constructor |].
  apply NoDup_cons in Hnodup as [Hfresh Hnodup].
  constructor; [by apply IH |].
  rewrite Forall_forall in Hx. apply Forall_forall. intros y Hy.
  specialize (Hx y Hy). assert (x ≠ y) by (by intros ->). lia.
Qed.

Lemma sorted_length (s : gset nat) : length (sorted s) = size s.
Proof. unfold sorted. by rewrite merge_sort_Permutation. Qed.

Lemma seq_sorted (n : nat) : ∀ k, Sorted Nat.le (seq k n).
Proof.
  induction n as [|n IH]; intros k; simpl; constructor; [apply IH |].
  destruct n; simpl; constructor. lia.
Qed.

Lemma sorted_range (n : nat) : sorted (list_to_set (seq 0 n)) = seq 0 n.
Proof.
  apply (Sorted_unique Nat.le).
  - apply Sorted_merge_sort. apply _.
  - apply seq_sorted.
  - unfold sorted. rewrite merge_sort_Permutation.
    apply elements_list_to_set, NoDup_seq.
Qed.

Section Selection.
Context {A : Type} (l : list A).

Lemma mapM_item_length (idxs : list nat) :
  ∀ r, mapM (item l) idxs = Ok r → length r = length idxs.
Proof.
  induction idxs as [|i idxs IH]; intros r; simpl.
  - by intros [= <-].
  - intros Hr. apply bind_Ok in Hr as (x & _ & Hr).
    apply bind_Ok in Hr as (r' & Hr' & [= <-]). simpl. by rewrite (IH r').
Qed.

Lemma mapM_item_lookup (idxs : list nat) :
  ∀ r, mapM (item l) idxs = Ok r → Forall2 (λ i x, l !! i = Some x) idxs r.
Proof.
  induction idxs as [|i idxs IH]; intros r; simpl.
  - intros [= <-]. constructor.
  - intros Hr. apply bind_Ok in Hr as (x & Hx%item_Ok & Hr).
    apply bind_Ok in Hr as (r' & Hr' & [= <-]). constructor; auto.
Qed.

Lemma lookups_sublist (idxs : list nat) :
  ∀ r k, Forall2 (λ i x, l !! i = Some x) idxs r →
         StronglySorted lt idxs → Forall (le k) idxs →
         sublist r (drop k l).
Proof.
  induction idxs as [|i idxs IH]; intros r k Hr Hsorted Hk.
  - apply Forall2_nil_inv_l in Hr as ->. apply sublist_nil_l.
  - apply Forall2_cons_inv_l in Hr as (x & r' & Hx & Hr' & ->).
    apply StronglySorted_inv in Hsorted as [Hsorted Hi].
    apply Forall_cons in Hk as [Hki _].
    rewrite <- (take_drop (i - k) (drop k l)), drop_drop.
    replace (k + (i - k))%nat with i by lia.
    apply sublist_inserts_l. rewrite (drop_S l x i Hx).
    apply sublist_skip, (IH r' (S i)); [done | done |].
    eapply Forall_impl; [exact Hi |]. simpl. lia.
Qed.

Lemma mapM_item_range : mapM (item l) (seq 0 (length l)) = Ok l.
Proof.
  assert (∀ k, mapM (item l) (seq k (length l - k)) = Ok (drop k l)) as Hk.
  { intros k. remember (length l - k)%nat as n eqn:En.
    revert k En. induction n as [|n IH]; intros k En; simpl.
    - by rewrite drop_ge by lia.
    - destruct (lookup_lt_is_Some_2 l k) as [x Hx]; [lia |].
      rewrite (proj2 (item_Ok l k x) Hx), ret_bind, (IH (S k)) by lia.
      by rewrite (drop_S l x k Hx). }
  specialize (Hk O). by rewrite Nat.sub_0_r, drop_0 in Hk.
Qed.
End Selection.

Lemma mapM_mapM_item_lengths {A} (l : list A) (groups : list (list nat)) :
  ∀ r, mapM (mapM (item l)) groups = Ok r →
       Forall2 (λ g tg, Forall2 (λ i x, l !! i = Some x) g tg) groups r.
Proof.
  induction groups as [|g groups IH]; intros r; simpl.
  - intros [= <-]. constructor.
  - intros Hr. apply bind_Ok in Hr as (tg & Htg & Hr).
    apply bind_Ok in Hr as (r' & Hr' & [= <-]).
    constructor; [by apply mapM_item_lookup | auto].
Qed.

Section Kept.
Variable tweets : list Tweet.

Lemma min_by_date_in (rest : list nat) :
  ∀ best k, min_by_date tweets best rest = Ok k → k ∈ best :: rest.
Proof.
  induction rest as [|i rest IH]; intros best k; simpl.
  - intros [= <-]. set_solver.
  - intros Hk. apply bind_Ok in Hk as (ti & _ & Hk).
    apply bind_Ok in Hk as (tb & _ & Hk).
    apply bind_Ok in Hk as (less & _ & Hk).
    apply IH in Hk. destruct less; set_solver.
Qed.

Lemma earliest_in (g : list nat) (k : nat) : earliest tweets g = Ok k → k ∈ g.
Proof.
  destruct g as [|i rest]; simpl; [done |].
  intros Hk. apply bind_Ok in Hk as (_ & _ & Hk). by apply min_by_date_in.
Qed.

(** Each group costs its members but one. *)
Lemma drop_losers_size (groups : list (list nat)) :
  ∀ (to_keep kept : gset nat),
    Forall (λ g, NoDup g ∧ ∀ x, x ∈ g → x ∈ to_keep) groups →
    pairwise_disjoint groups →
    drop_losers tweets groups to_keep = Ok kept →
    (size kept + excess groups = size to_keep)%nat.
Proof.
  induction groups as [|g groups IH]; intros to_keep kept Hin Hdisj; simpl.
  - intros [= <-]. unfold excess. simpl. lia.
  - intros Hdrop. apply bind_Ok in Hdrop as (k & Hk & Hdrop).
    apply Forall_cons in Hin as [[Hnodup Hg] Hin].
    assert (∀ g', g' ∈ groups → g ## g') as Hfirst.
    { intros g' [p Hp]%list_elem_of_lookup.
      exact (Hdisj O (S p) g g' eq_refl Hp ltac:(lia)). }
    apply IH in Hdrop.
    + unfold excess in *. rewrite fmap_cons. simpl.
      rewrite size_difference in Hdrop by set_solver.
      rewrite size_difference in Hdrop
        by (apply earliest_in in Hk; set_solver).
      rewrite size_list_to_set, size_singleton in Hdrop by done.
      assert (size (list_to_set g ∖ {[k]} : gset nat) ≤ size to_keep)%nat
        by (apply subseteq_size; set_solver).
      rewrite size_difference in H by (apply earliest_in in Hk; set_solver).
      rewrite size_list_to_set, size_singleton in H by done.
      lia.
    + rewrite Forall_forall in Hin. apply Forall_forall.
      intros g' Hg'. destruct (Hin g' Hg') as [? Hsub]. split; [done |].
      intros x Hx. specialize (Hfirst g' Hg' x). set_solver.
    + intros k1 k2 g1 g2 H1 H2 Hne.
      exact (Hdisj (S k1) (S k2) g1 g2 H1 H2 ltac:(lia)).
Qed.
End Kept.

(** What [remove_duplicates] computes on the way to its result. *)
Lemma remove_duplicates_inv (self : DuplicateDetector) (tweets : list Tweet)
    (cleaned : list Tweet) (tgroups : list (list Tweet)) :
  remove_duplicates self tweets = Ok (cleaned, tgroups) →
  ∃ groups to_keep,
    find_duplicates self tweets = Ok groups
    ∧ mapM (mapM (item tweets)) groups = Ok tgroups
    ∧ drop_losers tweets groups (list_to_set (seq 0 (length tweets)))
      = Ok to_keep
    ∧ mapM (item tweets) (sorted to_keep) = Ok cleaned.
Proof.
  unfold remove_duplicates. destruct tweets as [|t0 rest].
  - intros [= <- <-]. exists [], ∅. repeat split; vm_compute; reflexivity.
  - intros Hrm. apply bind_Ok in Hrm as (groups & Hfind & Hrm).
    apply bind_Ok in Hrm as (tg & Htg & Hrm).
    apply bind_Ok in Hrm as (to_keep & Hkeep & Hrm).
    apply bind_Ok in Hrm as (cl & Hcl & [= <- <-]).
    by exists groups, to_keep.
Qed.

Lemma remove_duplicates_of (self : DuplicateDetector) (tweets : list Tweet)
    (groups : list (list nat)) (to_keep : gset nat) (cleaned : list Tweet)
    (tgroups : list (list Tweet)) :
  find_duplicates self tweets = Ok groups →
  mapM (mapM (item tweets)) groups = Ok tgroups →
  drop_losers tweets groups (list_to_set (seq 0 (length tweets))) = Ok to_keep →
  mapM (item tweets) (sorted to_keep) = Ok cleaned →
  remove_duplicates self tweets = Ok (cleaned, tgroups).
Proof.
  intros Hfind Htg Hdrop Hcl. unfold remove_duplicates.
  destruct tweets as [|t0 rest].
  - vm_compute in Hfind. injection Hfind as <-.
    simpl in Htg, Hdrop. injection Htg as <-. injection Hdrop as <-.
    vm_compute in Hcl. by injection Hcl as <-.
  - by rewrite Hfind, ret_bind, Htg, ret_bind, Hdrop, ret_bind, Hcl.
Qed.

(** X6: the cleaned list is the input with some elements taken out: the
    tweets kept stay in the order of the input. *)
Theorem cleaned_keeps_input_order (self : DuplicateDetector)
    (tweets cleaned : list Tweet) (tgroups : list (list Tweet)) :
  remove_duplicates self tweets = Ok (cleaned, tgroups) →
  sublist cleaned tweets.
Proof.
  intros (groups & to_keep & _ & _ & _ & Hcl)%remove_duplicates_inv.
  apply mapM_item_lookup in Hcl.
  apply (lookups_sublist tweets (sorted to_keep) cleaned O Hcl).
  - apply sorted_increasing.
  - apply Forall_forall. intros. lia.
Qed.

Lemma remove_duplicates_counts (self : DuplicateDetector)
    (tweets cleaned : list Tweet) (tgroups : list (list Tweet)) :
  remove_duplicates self tweets = Ok (cleaned, tgroups) →
  (length cleaned + excess tgroups = length tweets)%nat
  ∧ Forall (λ g, 2 ≤ length g)%nat tgroups.
Proof.
  intros (groups & to_keep & Hfind & Htg & Hdrop & Hcl)%remove_duplicates_inv.
  destruct (find_duplicates_inv _ _ _ Hfind) as [Hgood Hdisj].
  apply mapM_item_length in Hcl. rewrite sorted_length in Hcl.
  apply drop_losers_size in Hdrop; [| | done].
  2: { apply Forall_forall. intros g [_ Hsorted Hvalid _]%Hgood. split.
       - clear Hvalid. induction Hsorted as [|x l _ IH Hx]; constructor; auto.
         intros Hin. rewrite Forall_forall in Hx. specialize (Hx x Hin). lia.
       - intros x Hx%Hvalid. apply elem_of_list_to_set, elem_of_seq. lia. }
  rewrite size_list_to_set, length_seq in Hdrop by apply NoDup_seq.
  apply mapM_mapM_item_lengths in Htg.
  assert (excess tgroups = excess groups ∧ Forall (λ g, 2 ≤ length g)%nat tgroups)
    as [-> ?]; [| split; [lia | done]].
  assert (Forall (λ g, 2 ≤ length g)%nat groups) as Hsizes
    by (apply Forall_forall; by intros g [? _ _ _]%Hgood).
  clear -Htg Hsizes. unfold excess.
  induction Htg as [|g tg gs tgs Hg _ IH]; [done |].
  apply Forall_cons in Hsizes as [Hsz Hsizes].
  destruct (IH Hsizes) as [IH1 IH2].
  apply Forall2_length in Hg. rewrite !fmap_cons. simpl.
  split; [lia |]. constructor; [lia | done].
Qed.

Lemma remove_duplicates_total (self : DuplicateDetector) (tweets : list Tweet)
    (groups : list (list nat)) :
  find_duplicates self tweets = Ok groups →
  ∃ to_keep cleaned tgroups,
    remove_duplicates self tweets = Ok (cleaned, tgroups)
    ∧ mapM (mapM (item tweets)) groups = Ok tgroups
    ∧ mapM (item tweets) (sorted to_keep) = Ok cleaned
    ∧ ∀ x, x ∈ to_keep ↔
           (x < length tweets)%nat
           ∧ ∀ g k, g ∈ groups → earliest tweets g = Ok k → x ∈ g → x = k.
Proof.
  intros Hfind. destruct (find_duplicates_inv _ _ _ Hfind) as [Hgood Hdisj].
  destruct (drop_losers_spec tweets groups (list_to_set (seq 0 (length tweets))))
    as (to_keep & Hdrop & Hkeep).
  { intros g Hg. destruct (earliest_spec tweets g (Hgood g Hg)) as (k & ? & _).
    eauto. }
  assert (∀ x, x ∈ to_keep ↔
            (x < length tweets)%nat
            ∧ ∀ g k, g ∈ groups → earliest tweets g = Ok k → x ∈ g → x = k)
    as Hkeep'.
  { intros x. rewrite Hkeep, elem_of_list_to_set, elem_of_seq.
    split; intros [? ?]; (split; [lia | done]). }
  destruct (mapM_item_Ok tweets (sorted to_keep)) as [cleaned Hcleaned].
  { apply Forall_forall. intros x Hx%elem_of_sorted%Hkeep'. tauto. }
  destruct (mapM_mapM_item_Ok tweets groups) as [tgroups Htgroups].
  { apply Forall_forall. intros g Hg. apply Forall_forall. intros x Hx.
    by apply (Hgood g Hg). }
  exists to_keep, cleaned, tgroups.
  split; [by eapply remove_duplicates_of | done].
Qed.

(** C7: when [find_duplicates] returns, [remove_duplicates] returns too, and
    the tweets it returns are the tweets at an increasing list of indices.
    In every cluster the member that [min] picks is among these indices, so
    its tweet is in the cleaned list; no other member of the cluster is;
    the member kept is not later than any member removed, and a removed
    member with the same timestamp comes after it in the input. *)
Theorem kept_member_is_earliest (self : DuplicateDetector) (tweets : list Tweet)
    (groups : list (list nat)) :
  find_duplicates self tweets = Ok groups →
  ∃ kept cleaned_tweets duplicate_groups,
    remove_duplicates self tweets = Ok (cleaned_tweets, duplicate_groups)
    ∧ StronglySorted lt kept
    ∧ Forall2 (λ x t, tweets !! x = Some t) kept cleaned_tweets
    ∧ ∀ g, g ∈ groups →
        ∃ k tk, earliest tweets g = Ok k ∧ k ∈ g ∧ k ∈ kept
          ∧ tweets !! k = Some tk ∧ tk ∈ cleaned_tweets
          ∧ ∀ m tm, m ∈ g → m ≠ k → tweets !! m = Some tm →
              (m ∉ kept)
              ∧ dt_le (date tk) (date tm) = Ok true
              ∧ (dt_le (date tm) (date tk) = Ok true → (k < m)%nat).
Proof.
  intros Hfind. destruct (find_duplicates_inv _ _ _ Hfind) as [Hgood Hdisj].
  destruct (remove_duplicates_total _ _ _ Hfind)
    as (to_keep & cleaned & tgroups & Hrm & _ & Hcl & Hkeep).
  apply mapM_item_lookup in Hcl.
  exists (sorted to_keep), cleaned, tgroups.
  split; [done | split; [apply sorted_increasing | split; [done |]]].
  intros g Hg.
  destruct (earliest_spec tweets g (Hgood g Hg)) as (k & Hk & Hkg & Hbeats).
  destruct (Hgood g Hg) as [_ _ Hvalid [w Haware]].
  destruct (lookup_lt_is_Some_2 tweets k (Hvalid k Hkg)) as [tk Htk].
  assert (k ∈ sorted to_keep) as Hkept.
  { apply elem_of_sorted, Hkeep. split; [by apply Hvalid |].
    intros g' k' Hg' Hk' Hkg'.
    apply list_elem_of_lookup in Hg as [p Hp], Hg' as [p' Hp'].
    destruct (decide (p = p')) as [-> | Hne]; [congruence |].
    exfalso. by apply (Hdisj p p' g g' Hp Hp' Hne k). }
  exists k, tk.
  split; [done | split; [done | split; [done | split; [done | split]]]].
  - apply list_elem_of_lookup in Hkept as [p Hp].
    destruct (Forall2_lookup_l _ _ _ _ _ Hcl Hp) as (t' & Ht' & Hlook).
    assert (t' = tk) as -> by congruence. by eapply list_elem_of_lookup_2.
  - intros m tm Hm Hne Htm. split; [| split].
    + intros [_ Hall]%elem_of_sorted%Hkeep. apply Hne. by eapply Hall.
    + rewrite dt_le_instant.
      2: { rewrite (Haware k tk), (Haware m tm); done. }
      destruct (Hbeats m Hm) as [Hle _]. unfold instant_at in Hle.
      rewrite Htk, Htm in Hle. simpl in Hle. f_equal. by apply Z.leb_le.
    + rewrite dt_le_instant.
      2: { rewrite (Haware k tk), (Haware m tm); done. }
      intros [= Hle%Z.leb_le]. destruct (Hbeats m Hm) as [_ Htie].
      unfold instant_at in Htie. rewrite Htk, Htm in Htie. simpl in Htie.
      specialize (Htie Hle). lia.
Qed.

Lemma kept_member_is_earliest_witness :
  ∃ kept cleaned_tweets duplicate_groups,
    remove_duplicates default_detector late_first
    = Ok (cleaned_tweets, duplicate_groups)
    ∧ StronglySorted lt kept
    ∧ Forall2 (λ x t, late_first !! x = Some t) kept cleaned_tweets
    ∧ ∀ g, g ∈ [[0; 1]]%nat →
        ∃ k tk, earliest late_first g = Ok k ∧ k ∈ g ∧ k ∈ kept
          ∧ late_first !! k = Some tk ∧ tk ∈ cleaned_tweets
          ∧ ∀ m tm, m ∈ g → m ≠ k → late_first !! m = Some tm →
              (m ∉ kept)
              ∧ dt_le (date tk) (date tm) = Ok true
              ∧ (dt_le (date tm) (date tk) = Ok true → (k < m)%nat).
Proof.
  apply (kept_member_is_earliest default_detector late_first [[0; 1]]%nat).
  vm_compute; reflexivity.
Defined.

(** X7: every group costs all its members but one: the kept tweets and,
    for each group, its size less one add up to the size of the input; a
    group has two members at least. *)
Theorem removed_count_is_cluster_excess (self : DuplicateDetector)
    (tweets cleaned : list Tweet) (tgroups : list (list Tweet)) :
  remove_duplicates self tweets = Ok (cleaned, tgroups) →
  (length cleaned + excess tgroups = length tweets)%nat
  ∧ Forall (λ g, 2 ≤ length g)%nat tgroups.
Proof. apply remove_duplicates_counts. Qed.

Lemma removed_count_is_cluster_excess_witness :
  (length [chain_A; chain_C] + excess [[chain_A; chain_B]]
   = length [chain_A; chain_B; chain_C])%nat
  ∧ Forall (λ g, 2 ≤ length g)%nat [[chain_A; chain_B]].
Proof.
  apply (removed_count_is_cluster_excess default_detector).
  vm_compute; reflexivity.
Defined.

Lemma cleaned_keeps_input_order_witness :
  sublist [chain_A; chain_C] [chain_A; chain_B; chain_C].
Proof.
  apply (cleaned_keeps_input_order default_detector
           [chain_A; chain_B; chain_C] [chain_A; chain_C] [[chain_A; chain_B]]).
  vm_compute; reflexivity.
Defined.

(** X8: a tweet whose index is in no group is kept. *)
Theorem unclustered_records_are_kept (self : DuplicateDetector)
    (tweets cleaned : list Tweet) (groups : list (list nat))
    (tgroups : list (list Tweet)) (i : nat) (t : Tweet) :
  find_duplicates self tweets = Ok groups →
  remove_duplicates self tweets = Ok (cleaned, tgroups) →
  tweets !! i = Some t → (∀ g, g ∈ groups → i ∉ g) →
  t ∈ cleaned.
Proof.
  intros Hfind Hrm Ht Hout.
  destruct (remove_duplicates_total _ _ _ Hfind)
    as (to_keep & cleaned' & tgroups' & Hrm' & _ & Hcl & Hkeep).
  assert (cleaned' = cleaned) as -> by congruence.
  assert (i ∈ sorted to_keep) as Hi.
  { apply elem_of_sorted, Hkeep. split; [by eapply lookup_lt_Some |].
    intros g k Hg _ Hig. by destruct (Hout g Hg). }
  apply mapM_item_lookup in Hcl.
  apply list_elem_of_lookup in Hi as [p Hp].
  destruct (Forall2_lookup_l _ _ _ _ _ Hcl Hp) as (t' & Ht' & Hlook).
  assert (t' = t) as -> by congruence. by eapply list_elem_of_lookup_2.
Qed.

Lemma unclustered_records_are_kept_witness :
  chain_C ∈ [chain_A; chain_C].
Proof.
  apply (unclustered_records_are_kept default_detector
           [chain_A; chain_B; chain_C] [chain_A; chain_C] [[0; 1]]%nat
           [[chain_A; chain_B]] 2 chain_C).
  - vm_compute; reflexivity.
  - vm_compute; reflexivity.
  - reflexivity.
  - intros g ->%list_elem_of_singleton Hin.
    apply elem_of_cons in Hin as [? | Hin]; [lia |].
    apply list_elem_of_singleton in Hin. lia.
Defined.

(** X9: when no group is found, [remove_duplicates] returns the input as
    it is, and no groups. *)
Theorem no_clusters_keeps_everything (self : DuplicateDetector)
    (tweets : list Tweet) :
  find_duplicates self tweets = Ok [] →
  remove_duplicates self tweets = Ok (tweets, []).
Proof.
  intros Hfind.
  apply (remove_duplicates_of self tweets []
           (list_to_set (seq 0 (length tweets)))); try done.
  rewrite sorted_range. apply mapM_item_range.
Qed.

Lemma no_clusters_keeps_everything_witness :
  remove_duplicates default_detector [chain_A; chain_C]
  = Ok ([chain_A; chain_C], []).
Proof.
  apply (no_clusters_keeps_everything default_detector [chain_A; chain_C]).
  vm_compute; reflexivity.
Defined.

(** ** Dates: closeness, parsing, writing *)

(** X10: [are_dates_close] does not depend on the order of its two dates,
    whether it returns or raises. *)
Theorem dates_close_symmetric (self : DuplicateDetector) (d1 d2 : datetime) :
  are_dates_close self d1 d2 = are_dates_close self d2 d1.
Proof.
  unfold are_dates_close, dt_sub.
  destruct (utcoffset d1) as [o1|], (utcoffset d2) as [o2|]; simpl; try done;
    do 2 f_equal; lia.
Qed.

Lemma datetime_of_fields_tz (y m d hh mm ss us : Z) (tz : option Z) (dt : datetime) :
  datetime_of_fields y m d hh mm ss us tz = Some dt → utcoffset dt = tz.
Proof.
  unfold datetime_of_fields. destruct (_ && _); [| done]. by intros [= <-].
Qed.

Lemma strptime_ymd_naive (s : str) (dt : datetime) :
  strptime_ymd s = Some dt → utcoffset dt = None.
Proof.
  unfold strptime_ymd. intros Hdt.
  apply bind_Some in Hdt as (_ & _ & Hdt).
  apply bind_Some in Hdt as ([[y m] d] & _ & Hdt).
  by eapply datetime_of_fields_tz.
Qed.

(** A date string without ['T'] or without ['Z'] gives a naive value. *)
Lemma parse_date_naive (now : Z) (s : str) :
  contains (lit "T") s && contains (lit "Z") s = false →
  utcoffset (_parse_date now s) = None.
Proof.
  intros Hz. unfold _parse_date. rewrite Hz.
  destruct (length s =? 10)%nat; [| done].
  destruct (strptime_ymd s) as [dt|] eqn:E; [| done].
  simpl. by eapply strptime_ymd_naive.
Qed.

Lemma dec_length (w : nat) (z : Z) : (w ≤ length (dec w z))%nat.
Proof. unfold dec, zpad. rewrite length_app, length_replicate. lia. Qed.

Lemma isoformat_length (d : datetime) : (19 ≤ length (isoformat d))%nat.
Proof.
  unfold isoformat. rewrite !length_app.
  pose proof (dec_length 4 (year (fields_of d))).
  pose proof (dec_length 2 (month (fields_of d))).
  pose proof (dec_length 2 (day (fields_of d))).
  pose proof (dec_length 2 (hour (fields_of d))).
  pose proof (dec_length 2 (minute (fields_of d))).
  pose proof (dec_length 2 (second (fields_of d))).
  change (length (lit "-")) with 1%nat. change (length (lit "T")) with 1%nat.
  change (length (lit ":")) with 1%nat. lia.
Qed.

Lemma dec_no_Z (w : nat) (z : Z) : Forall (λ c, chr_eqb 90%N c = false) (dec w z).
Proof. apply digits_fresh; [lia | apply dec_digits]. Qed.

Ltac no_Z :=
  repeat first [ apply dec_no_Z | apply Forall_app; split
               | solve [repeat constructor] ].

Lemma format_offset_no_Z (off : option Z) :
  Forall (λ c, chr_eqb 90%N c = false) (format_offset off).
Proof.
  destruct off as [o|]; [| constructor]. unfold format_offset.
  repeat match goal with
         | |- context [if ?b then _ else _] => destruct b
         end; no_Z.
Qed.

Lemma isoformat_no_Z (d : datetime) : contains (lit "Z") (isoformat d) = false.
Proof.
  apply (contains_fresh 90%N []). unfold isoformat.
  destruct (microsecond (fields_of d) =? 0); no_Z; apply format_offset_no_Z.
Qed.

(** X11: the date [save_cleaned_tweets] writes, [isoformat()], is read by
    [_parse_date] as none of its two formats: what comes back is the
    reading of the clock, a naive value. *)
Theorem written_date_reads_back_as_now (now : Z) (d : datetime) :
  _parse_date now (isoformat d) = mk_datetime now None.
Proof.
  unfold _parse_date. rewrite isoformat_no_Z, andb_false_r.
  pose proof (isoformat_length d) as Hlen.
  by rewrite (proj2 (Nat.eqb_neq _ _)) by lia.
Qed.

(** X12: on a batch of tweets whose date strings hold no ['Z'],
    [remove_duplicates] returns: every date is naive. *)
Theorem dates_without_Z_never_raise (self : DuplicateDetector)
    (tweets : list Tweet) :
  Forall (λ t, ∃ now s, date t = _parse_date now s
                        ∧ contains (lit "Z") s = false) tweets →
  ∃ cleaned tgroups, remove_duplicates self tweets = Ok (cleaned, tgroups).
Proof.
  intros Hdates.
  destruct (find_duplicates_total self tweets false) as [groups Hfind].
  { rewrite Forall_forall in Hdates. intros t (now & s & -> & Hz)%Hdates.
    unfold aware. rewrite parse_date_naive; [done |].
    by rewrite Hz, andb_false_r. }
  destruct (remove_duplicates_total _ _ _ Hfind) as (_ & cleaned & tgroups & ? & _).
  eauto.
Qed.

Lemma dates_without_Z_never_raise_witness :
  ∃ cleaned tgroups,
    remove_duplicates default_detector plain_dates = Ok (cleaned, tgroups).
Proof.
  apply (dates_without_Z_never_raise default_detector plain_dates).
  repeat constructor.
  - exists (example_clock 0), (lit "2024-01-31"). split; reflexivity.
  - exists (example_clock 0), (lit "31 Jan 2024"). split; reflexivity.
  - exists (example_clock 0), (lit "Unknown"). split; reflexivity.
Defined.

(** ** The shape of normalised texts and reply-to fields *)

Lemma strip_ends_outside (s : str) : starts_outside isspace (reverse (strip s)).
Proof.
  unfold strip, rstrip. rewrite reverse_involutive.
  apply dropwhile_starts_outside.
Qed.

Lemma folded_not_variant (c : char) :
  fold_char c = c → c ∉ arabic_norm_map.*1.
Proof.
  intros Hc Hin. simpl in Hin.
  repeat (apply elem_of_cons in Hin as [-> | Hin]; [by vm_compute in Hc |]).
  by apply elem_of_nil in Hin.
Qed.

(** X13: a normalised text neither starts nor ends with white space, holds
    white space only as single blanks, holds none of the seven Arabic
    letters of [arabic_norm_map], and has no place where [@\w+] matches (a
    blank not being a word character). *)
Theorem normalized_text_shape `{Platform} (x : str) :
  isalnum 32%N = false →
  let y := _normalize_content x in
  starts_outside isspace y ∧ starts_outside isspace (reverse y)
  ∧ collapsed y
  ∧ Forall (λ c, c ∉ arabic_norm_map.*1) y
  ∧ no_match Re.mention y.
Proof.
  intros Hblank y.
  assert (Re.isword 32%N = false) as Hword
    by (unfold Re.isword; by rewrite Hblank).
  destruct (normalized_shape x Hword) as (Hstrip & Hcoll & Hfold & Hment).
  fold y in Hstrip, Hcoll, Hfold, Hment.
  repeat split; try done.
  - rewrite <- Hstrip. apply strip_starts_outside.
  - rewrite <- Hstrip. apply strip_ends_outside.
  - eapply Forall_impl; [exact Hfold |]. apply folded_not_variant.
Qed.

Lemma normalized_text_shape_witness :
  let y := @_normalize_content example_platform
             (lit "  @bob  see   you at nine ") in
  y = lit "see you at nine"
  ∧ starts_outside isspace y ∧ starts_outside isspace (reverse y)
  ∧ collapsed y
  ∧ Forall (λ c, c ∉ arabic_norm_map.*1) y
  ∧ no_match (@Re.mention example_platform) y.
Proof.
  split; [vm_compute; reflexivity |].
  apply (@normalized_text_shape example_platform). reflexivity.
Defined.

Section ReplyTo.
Context `{Platform}.

Lemma mention_needs_at (c : char) (s : str) :
  c ≠ 64%N → Re.mention (c :: s) = None.
Proof.
  intros Hc. unfold Re.mention, chr_eqb.
  by rewrite (proj2 (N.eqb_neq c 64) Hc).
Qed.

Lemma findall_without_at (s : str) :
  Forall (λ c, c ≠ 64%N) s → ∀ skip, Re.findall_scan Re.mention skip s = [].
Proof.
  induction 1 as [|c s Hc _ IH]; intros skip; [done |].
  cbn [Re.findall_scan]. destruct skip; [| apply IH].
  rewrite (mention_needs_at c s Hc). apply IH.
Qed.

(** X14: a text without ['@'] gives an empty reply-to field. *)
Theorem no_at_sign_no_reply_to (content : str) :
  64%N ∉ content → _extract_reply_to content = [].
Proof.
  intros Hat. unfold _extract_reply_to. destruct content as [|c0 s0]; [done |].
  assert (Forall (λ c, c ≠ 64%N) (c0 :: s0)) as Hfree
    by (apply Forall_forall; intros c Hc ->; done).
  assert (Re.leading_mentions (strip (c0 :: s0)) = None) as ->.
  { unfold Re.leading_mentions.
    pose proof (strip_Forall _ _ Hfree) as Hs.
    destruct (strip (c0 :: s0)) as [|c s]; [done |].
    apply Forall_cons in Hs as [Hc _]. by rewrite (mention_needs_at c s Hc). }
  unfold Re.findall. by rewrite findall_without_at.
Qed.

Lemma take_span (p : char → bool) (s : str) :
  Forall (λ c, p c = true) (take (Re.span p s) s).
Proof.
  induction s as [|c s IH]; simpl; [constructor |].
  destruct (p c) eqn:E; simpl; [by constructor | constructor].
Qed.

Lemma findall_mention_chars (s : str) :
  ∀ skip, Forall (Forall reply_char) (Re.findall_scan Re.mention skip s).
Proof.
  induction s as [|c s IH]; intros skip; [constructor |].
  cbn [Re.findall_scan]. destruct skip; [| apply IH].
  destruct (Re.mention (c :: s)) as [[|n]|] eqn:E; try apply IH.
  constructor; [| apply IH].
  pose proof (mention_Some c s _ E) as [= ->].
  unfold Re.mention in E. destruct (chr_eqb c 64) eqn:Hc; [| done].
  apply N.eqb_eq in Hc as ->. rewrite firstn_cons.
  constructor; [by left |].
  eapply Forall_impl; [apply take_span |]. intros d Hd. by do 3 right.
Qed.

Lemma join_chars (P : char → Prop) (sep : str) (parts : list str) :
  Forall P sep → Forall (Forall P) parts → Forall P (join sep parts).
Proof.
  intros Hsep. induction 1 as [|p parts Hp Hparts IH]; [constructor |].
  simpl. destruct parts as [|q parts]; [done |].
  apply Forall_app. split; [done |]. apply Forall_app. split; [done |]. 
  apply IH.
Qed.

(** X15: the reply-to field [_extract_reply_to] builds is made of ['@'],
    word characters, commas and blanks only (a set being walked over its own
    elements). *)
Theorem extracted_reply_to_chars (content : str) :
  (∀ l x, x ∈ set_order l → x ∈ l) →
  Forall reply_char (_extract_reply_to content).
Proof.
  intros Hset. unfold _extract_reply_to. destruct content as [|c0 s0]; [constructor |].
  assert (Forall reply_char (lit ", ")) as Hsep
    by (repeat constructor; unfold reply_char; auto).
  destruct (Re.leading_mentions _) as [g|].
  - apply join_chars; [done | apply findall_mention_chars].
  - destruct (Re.findall Re.mention (c0 :: s0)) as [|u us] eqn:E; [constructor |].
    apply join_chars; [done |]. apply Forall_forall. intros x Hx%Hset.
    rewrite <- E in Hx. revert x Hx. apply Forall_forall, findall_mention_chars.
Qed.
End ReplyTo.

Lemma no_at_sign_no_reply_to_witness :
  @_extract_reply_to example_platform (lit "good morning, all") = [].
Proof.
  apply (@no_at_sign_no_reply_to example_platform).
  vm_compute. intros Hin.
  repeat (apply elem_of_cons in Hin as [Hin | Hin]; [discriminate Hin |]).
  by apply elem_of_nil in Hin.
Defined.

Lemma first_occurrences_sound (l : list str) :
  ∀ seen x, x ∈ first_occurrences seen l → x ∈ l.
Proof.
  induction l as [|y l IH]; intros seen x; simpl; [done |].
  destruct (existsb _ seen).
  - intros Hx%IH. by apply elem_of_cons; right.
  - intros [-> | Hx%IH]%elem_of_cons; apply elem_of_cons; auto.
Qed.

Lemma extracted_reply_to_chars_witness :
  @_extract_reply_to example_platform (lit "thanks @bob and @eve, @bob")
  = lit "@bob, @eve"
  ∧ Forall (@reply_char example_platform)
           (@_extract_reply_to example_platform
              (lit "thanks @bob and @eve, @bob")).
Proof.
  split; [vm_compute; reflexivity |].
  apply (@extracted_reply_to_chars example_platform).
  intros l x. apply first_occurrences_sound.
Defined.

(** ** The report *)

Lemma describe_from_cons (k : nat) (g : list Tweet) (groups : list (list Tweet)) :
  describe_from k (g :: groups)
  = info ← describe_group (S k) g;
    rest ← describe_from (S k) groups;
    Ok (info :: rest).
Proof.
  unfold describe_from. rewrite imap_cons. cbn [mapM fst snd].
  rewrite Nat.add_0_r.
  rewrite (imap_ext _ (λ i, pair (S k + i)%nat) groups); [done |].
  intros i x _. simpl. f_equal. lia.
Qed.

Lemma describe_from_Ok (groups : list (list Tweet)) :
  [] ∉ groups →
  ∀ k, ∃ details,
    describe_from k groups = Ok details
    ∧ Forall2 (λ g info, duplicate_count info = length g
                         ∧ length (removed_tweets info) = (length g - 1)%nat)
              groups details
    ∧ ∀ i info, details !! i = Some info → group_id info = S (k + i).
Proof.
  induction groups as [|g groups IH]; intros Hne k.
  - exists []. repeat split; [constructor |]. intros i info Hi.
    by rewrite lookup_nil in Hi.
  - rewrite describe_from_cons. destruct g as [|t g]; [set_solver |].
    destruct (IH ltac:(set_solver) (S k)) as (details & -> & Hd & Hid).
    eexists. split; [reflexivity |]. split.
    + constructor; [| done]. simpl.
      by rewrite length_fmap, drop_0, Nat.sub_0_r.
    + intros [|i] info; simpl.
      * intros [= <-]. simpl. lia.
      * intros Hi%Hid. lia.
Qed.

Lemma describe_from_Raise (groups : list (list Tweet)) :
  [] ∈ groups → ∀ k, describe_from k groups = Raise IndexError.
Proof.
  induction groups as [|g groups IH]; intros Hin k; [set_solver |].
  rewrite describe_from_cons. destruct g as [|t g]; [done |].
  rewrite IH; [done | set_solver].
Qed.

(** X16: [generate_report] raises [IndexError] when a group is empty;
    otherwise it returns one entry per group, numbered from 1 in the order
    of the groups. *)
Theorem report_needs_nonempty_groups (original_count : nat)
    (cleaned : list Tweet) (groups : list (list Tweet)) :
  ([] ∈ groups →
   generate_report original_count cleaned groups = Raise IndexError)
  ∧ ([] ∉ groups →
     ∃ r, generate_report original_count cleaned groups = Ok r
          ∧ length (duplicate_details r) = length groups
          ∧ ∀ i info, duplicate_details r !! i = Some info →
                      group_id info = S i).
Proof.
  unfold generate_report.
  change (mapM _ (imap pair groups)) with (describe_from 0 groups).
  split.
  - intros Hin. by rewrite describe_from_Raise.
  - intros Hne. destruct (describe_from_Ok groups Hne 0) as (details & -> & Hd & Hid).
    eexists. split; [reflexivity |]. simpl. split; [| done].
    symmetry. by eapply Forall2_length.
Qed.

(** X17: on the result of [remove_duplicates], [generate_report] returns,
    its [removed_count] is the number of tweets listed as removed over all
    entries, and the group sizes add up to the removed count plus the number
    of groups. *)
Theorem report_counts_add_up (self : DuplicateDetector)
    (tweets cleaned : list Tweet) (tgroups : list (list Tweet)) :
  remove_duplicates self tweets = Ok (cleaned, tgroups) →
  ∃ r, generate_report (length tweets) cleaned tgroups = Ok r
       ∧ removed_count r
         = Z.of_nat (sum_list (length ∘ removed_tweets <$> duplicate_details r))
       ∧ Z.of_nat (sum_list (duplicate_count <$> duplicate_details r))
         = removed_count r + Z.of_nat (duplicate_groups r).
Proof.
  intros [Hcount Hsizes]%remove_duplicates_counts.
  assert ([] ∉ tgroups) as Hne.
  { intros Hin. rewrite Forall_forall in Hsizes.
    specialize (Hsizes [] Hin). simpl in Hsizes. lia. }
  unfold generate_report.
  change (mapM _ (imap pair tgroups)) with (describe_from 0 tgroups).
  destruct (describe_from_Ok tgroups Hne 0) as (details & -> & Hd & _).
  eexists. split; [reflexivity |]. simpl.
  assert (sum_list (length ∘ removed_tweets <$> details) = excess tgroups
          ∧ sum_list (duplicate_count <$> details)
            = (excess tgroups + length tgroups)%nat) as [-> ->]; [| lia].
  clear -Hd Hsizes. unfold excess.
  induction Hd as [|g info gs infos [Hc Hr] _ IH]; [done |].
  apply Forall_cons in Hsizes as [Hsz Hsizes].
  destruct (IH Hsizes) as [IH1 IH2].
  rewrite !fmap_cons. cbn [sum_list sum_list_with length id].
  rewrite IH1, IH2, Hc. unfold compose. rewrite Hr. split; lia.
Qed.

Lemma report_counts_add_up_witness :
  ∃ r, generate_report (length [chain_A; chain_B; chain_C])
         [chain_A; chain_C] [[chain_A; chain_B]] = Ok r
       ∧ removed_count r
         = Z.of_nat (sum_list (length ∘ removed_tweets <$> duplicate_details r))
       ∧ Z.of_nat (sum_list (duplicate_count <$> duplicate_details r))
         = removed_count r + Z.of_nat (duplicate_groups r).
Proof.
  apply (report_counts_add_up default_detector).
  vm_compute; reflexivity.
Defined.

Lemma report_needs_nonempty_groups_witness :
  generate_report 2 [chain_A] [[chain_A; chain_B]; []] = Raise IndexError
  ∧ ∃ r, generate_report 3 [chain_A; chain_C] [[chain_A; chain_B]] = Ok r
         ∧ length (duplicate_details r) = length [[chain_A; chain_B]]
         ∧ ∀ i info, duplicate_details r !! i = Some info →
                     group_id info = S i.
Proof.
  split.
  - apply (report_needs_nonempty_groups 2 [chain_A] [[chain_A; chain_B]; []]).
    apply elem_of_cons. right. by apply list_elem_of_singleton.
  - apply (report_needs_nonempty_groups 3 [chain_A; chain_C]
             [[chain_A; chain_B]]).
    intros Hin. apply list_elem_of_singleton in Hin. discriminate Hin.
Defined.

(** ** What the loader builds *)

Lemma contains_single (c : char) (s : str) : contains [c] s = false → c ∉ s.
Proof.
  induction s as [|d s IH]; simpl; [intros _; apply not_elem_of_nil |].
  rewrite andb_true_r. intros [Hd Hs]%orb_false_elim.
  apply not_elem_of_cons. split; [| by apply IH].
  unfold chr_eqb in Hd. by apply N.eqb_neq in Hd.
Qed.

Section Loader.
Context `{Platform} (clock : nat → Z).

Lemma flush_shape (T : list Tweet) (cur : pending) :
  Forall loaded_shape T → pending_shape cur →
  Forall loaded_shape (flush clock T cur).
Proof.
  intros HT [Hc Hu]. unfold flush. destruct (p_content cur) as [c|]; [| done].
  apply Forall_app. split; [done |]. constructor; [| constructor].
  destruct (Hc c eq_refl) as [Hne Heq]. by repeat split.
Qed.

Lemma flush_length (T : list Tweet) (cur : pending) :
  (length (flush clock T cur) ≤ S (length T))%nat.
Proof.
  unfold flush. destruct (p_content cur); rewrite ?length_app; simpl; lia.
Qed.

Lemma load_line_shape (T : list Tweet) (cur : pending) (raw : str) :
  Forall loaded_shape T → pending_shape cur →
  Forall loaded_shape (load_line clock (T, cur) raw).1
  ∧ pending_shape (load_line clock (T, cur) raw).2.
Proof.
  intros HT Hcur. pose proof Hcur as [Hc Hu]. unfold load_line.
  destruct (startswith (lit "Date:") _).
  { split; [by apply flush_shape |]. split; [done | constructor]. }
  destruct (startswith (lit "REPLY TO:") _); [done |].
  destruct (str_eqb _ (lit "CONTENT:")); [done |].
  destruct (startswith (lit "URLS:") _); [done |].
  destruct (startswith (lit "http") _ && _) eqn:Ehttp.
  { apply andb_prop in Ehttp as [Ehttp _].
    split; [done |]. split; [done |]. by repeat constructor. }
  destruct (startswith (lit "- http") _) eqn:Edash.
  { split; [done |]. split; [done |]. cbn [p_urls default].
    apply Forall_app. split; [done |]. constructor; [| constructor].
    apply startswith_app in Edash as [t ->]. reflexivity. }
  destruct (negb _ && _ && _ && _) eqn:Etext; [| done].
  apply andb_prop in Etext as [[[Hne Heq]%andb_prop _]%andb_prop _].
  apply negb_true_iff in Hne, Heq. apply contains_single in Heq.
  assert (strip raw ≠ []) as Hne' by (by intros E; rewrite E in Hne).
  split; [done |]. split; [| done]. cbn [p_content]. intros c [= <-].
  destruct (p_content cur) as [c|]; [| done].
  destruct (Hc c eq_refl) as [Hcne Hceq]. split; [by destruct c |].
  change (lit " ") with [32%N].
  rewrite not_elem_of_app, not_elem_of_cons. by repeat split.
Qed.

Lemma load_line_length (T : list Tweet) (cur : pending) (raw : str) :
  (length (load_line clock (T, cur) raw).1
   ≤ length (date_lines [raw]) + length T)%nat.
Proof.
  unfold load_line, date_lines. rewrite filter_cons, filter_nil.
  destruct (startswith (lit "Date:") _) eqn:E.
  { rewrite decide_True by done. apply flush_length. }
  rewrite decide_False by done.
  repeat match goal with
         | |- context [if ?b then _ else _] => destruct b
         end; simpl; lia.
Qed.

Lemma foldl_load_shape (lines : list str) :
  ∀ T cur, Forall loaded_shape T → pending_shape cur →
    Forall loaded_shape (foldl (load_line clock) (T, cur) lines).1
    ∧ pending_shape (foldl (load_line clock) (T, cur) lines).2
    ∧ (length (foldl (load_line clock) (T, cur) lines).1
       ≤ length (date_lines lines) + length T)%nat.
Proof.
  induction lines as [|raw lines IH]; intros T cur HT Hcur.
  - cbn [foldl fst snd]. split; [done | split; [done |]].
    unfold date_lines. rewrite filter_nil. simpl. lia.
  - cbn [foldl].
    destruct (load_line_shape T cur raw HT Hcur) as [HT' Hcur'].
    pose proof (load_line_length T cur raw) as Hlen.
    destruct (load_line clock (T, cur) raw) as [T' cur'].
    destruct (IH T' cur' HT' Hcur') as (? & ? & Hlen').
    split; [done | split; [done |]].
    unfold date_lines in *. rewrite filter_cons.
    rewrite filter_cons, filter_nil in Hlen. simpl in Hlen.
    destruct (decide _); simpl in *; lia.
Qed.
End Loader.

(** X18: whatever the lines, every tweet the loader builds has a text that
    is not empty and holds no equals sign, a comparison text that is the
    normalisation of that text, and URLs that all start with [http]. *)
Theorem loaded_records_well_formed `{Platform} (clock : nat → Z)
    (lines : list str) :
  Forall loaded_shape (load_lines clock lines).
Proof.
  unfold load_lines.
  destruct (foldl_load_shape clock lines [] no_pending) as (HT & Hcur & _).
  { constructor. }
  { split; [done | constructor]. }
  destruct (foldl _ _ lines) as [T cur]. by apply flush_shape.
Qed.

(** X19: the loader builds at most one tweet per [Date:] line, and one
    more. *)
Theorem loaded_count_bounded `{Platform} (clock : nat → Z) (lines : list str) :
  (length (load_lines clock lines) ≤ S (length (date_lines lines)))%nat.
Proof.
  unfold load_lines.
  destruct (foldl_load_shape clock lines [] no_pending) as (_ & _ & Hlen).
  { constructor. }
  { split; [done | constructor]. }
  destruct (foldl _ _ lines) as [T cur]. simpl in Hlen.
  pose proof (flush_length clock T cur). lia.
Qed.

(** ** Runs of [main] *)

Lemma written_app (out1 out2 : list effect) :
  written (out1 ++ out2) = written out1 ++ written out2.
Proof. unfold written. apply bind_app. Qed.

Lemma written_print (m : message) (out : list effect) :
  written (Print m :: out) = written out.
Proof. reflexivity. Qed.

Lemma written_save (w : world) (tweets : list Tweet) (p : str) :
  written (save_cleaned_tweets w tweets p) = if writable w p then [p] else [].
Proof. unfold save_cleaned_tweets. by destruct (writable w p). Qed.

Lemma show_samples_written (groups : list (list Tweet)) :
  ∀ i out, written (show_samples i groups out).1 = written out.
Proof.
  induction groups as [|g groups IH]; intros i out; simpl; [done |].
  destruct (item g 0) as [first | e]; simpl.
  - rewrite IH. destruct (1 <? length g)%nat;
      rewrite !written_app; simpl; by rewrite !app_nil_r.
  - rewrite written_app. simpl. by rewrite app_nil_r.
Qed.

Lemma show_samples_returns (groups : list (list Tweet)) :
  [] ∉ groups → ∀ i out, (show_samples i groups out).2 = None.
Proof.
  induction groups as [|g groups IH]; intros Hne i out; simpl; [done |].
  destruct g as [|t g]; [set_solver |]. simpl. apply IH. set_solver.
Qed.

Lemma timedelta_hours_range (h : Z) :
  (-23999999976 ≤ h ≤ 23999999999 → timedelta_hours h = Ok (h * 3600 * 1000000))
  ∧ (h < -23999999976 ∨ 23999999999 < h →
     timedelta_hours h = Raise OverflowError).
Proof.
  unfold timedelta_hours.
  pose proof (Z.div_mod (h * 3600) 86400 ltac:(lia)) as Hdiv.
  pose proof (Z.mod_pos_bound (h * 3600) 86400 ltac:(lia)) as Hmod.
  split; intros Hh.
  - rewrite (proj2 (Z.leb_le _ _)), (proj2 (Z.leb_le _ _)) by lia. done.
  - destruct Hh.
    + rewrite (proj2 (Z.leb_gt _ _)) by lia. done.
    + rewrite (proj2 (Z.leb_gt (h * 3600 / 86400) _)) by lia.
      by rewrite andb_false_r.
Qed.

Section Run.
Context `{Platform} (clock : nat → Z) (w : world) (a : args).

(** [main] once the input is read and the detector built. *)
Lemma main_loaded (s : str) (d : timedelta) :
  fs w !! input_file a = Some (Text s) →
  timedelta_hours (window a) = Ok d →
  load_lines clock (readlines s) ≠ [] →
  main clock w a
  = let tweets := load_lines clock (readlines s) in
    let out := [Print (MsgLoading (input_file a));
                Print (MsgLoaded (length tweets));
                Print (MsgThreshold (threshold a));
                Print (MsgWindow (window a)); Print MsgDetecting] in
    match remove_duplicates (mk_DuplicateDetector (threshold a) d) tweets with
    | Raise e => uncaught out e
    | Ok (cleaned_tweets, groups) =>
        let out := out ++ [Print (MsgResults (length tweets)
                                    (length cleaned_tweets)
                                    (Z.of_nat (length tweets)
                                     - Z.of_nat (length cleaned_tweets))
                                    (length groups))] in
        let out := match given (output a) with
                   | Some path => out ++ save_cleaned_tweets w cleaned_tweets path
                   | None => out
                   end in
        let reported :=
          match given (report_path a) with
          | Some path =>
              match generate_report (length tweets) cleaned_tweets groups with
              | Raise e => Raise e
              | Ok r => if writable w path
                        then Ok (out ++ [WriteFile path (ReportJson r);
                                         Print (MsgReportSaved path)])
                        else Raise OSError
              end
          | None => Ok out
          end in
        match reported with
        | Raise e => uncaught out e
        | Ok out =>
            match groups with
            | [] => (out, 0)
            | _ =>
                match show_samples 1 (take 3 groups)
                        (out ++ [Print MsgSampleHeader]) with
                | (out, Some e) => uncaught out e
                | (out, None) => (out, 0)
                end
            end
        end
    end.
Proof.
  intros Hfs Hd Hne. unfold main, DuplicateDetector_init, load_from_file.
  rewrite Hfs, Hd. cbn [mbind result_bind].
  destruct (load_lines clock (readlines s)) as [|t ts]; [done |].
  reflexivity.
Qed.
End Run.

Lemma load_from_file_quiet `{Platform} (clock : nat → Z) (w : world) (p : str) :
  written (load_from_file clock w p).2 = [].
Proof.
  unfold load_from_file. by destruct (fs w !! p) as [[s|]|].
Qed.

Lemma remove_duplicates_raises (self : DuplicateDetector) (tweets : list Tweet)
    (e : exn) :
  remove_duplicates self tweets = Raise e → e = TypeError.
Proof.
  intros Hrm.
  destruct (find_duplicates self tweets) as [groups | e'] eqn:Hfind.
  - destruct (remove_duplicates_total _ _ _ Hfind) as (? & ? & ? & Hok & _).
    congruence.
  - assert (e' = TypeError) as ->.
    { eapply scan_anchors_raises; [| exact Hfind].
      apply Forall_forall. intros i Hi%elem_of_seq. lia. }
    unfold remove_duplicates in Hrm. destruct tweets; [done |].
    rewrite Hfind in Hrm. simpl in Hrm. congruence.
Qed.

(** X20: [main] writes nothing but the paths given by [--output] and
    [--report], each once at most, the listing before the report. *)
Theorem main_writes_requested_paths_only `{Platform} (clock : nat → Z)
    (w : world) (a : args) :
  written (main clock w a).1 `prefix_of` requested w a.
Proof.
  unfold main. destruct (fs w !! input_file a) as [f|]; [| apply prefix_nil].
  destruct (DuplicateDetector_init _ _) as [detector | e]; [| apply prefix_nil].
  pose proof (load_from_file_quiet clock w (input_file a)) as Hquiet.
  destruct (load_from_file clock w (input_file a)) as [tweets printed].
  cbn [snd] in Hquiet.
  destruct tweets as [|t ts].
  { cbn [fst]. rewrite !written_app, Hquiet. apply prefix_nil. }
  set (tweets := t :: ts).
  destruct (remove_duplicates detector tweets) as [[cleaned groups] | e].
  2: { unfold uncaught. cbn [fst]. rewrite !written_app, Hquiet.
       apply prefix_nil. }
  set (out1 := _ ++ [Print (MsgResults _ _ _ _)]).
  assert (written out1 = []) as Hout1.
  { unfold out1. by rewrite !written_app, Hquiet. }
  set (out2 := match given (output a) with
               | Some path => out1 ++ save_cleaned_tweets w cleaned path
               | None => out1
               end).
  set (listing := match given (output a) with
                  | Some p => if writable w p then [p] else []
                  | None => []
                  end).
  assert (written out2 = listing) as Hout2.
  { unfold out2, listing. destruct (given (output a)) as [p|]; [| done].
    by rewrite written_app, Hout1, written_save. }
  unfold requested. fold listing.
  set (report := match given (report_path a) with
                 | Some p => if writable w p then [p] else []
                 | None => []
                 end).
  assert (∀ e, written (uncaught out2 e).1 `prefix_of` listing ++ report)
    as Hcrash.
  { intros e. unfold uncaught. cbn [fst].
    rewrite written_app, Hout2, written_print. simpl. rewrite app_nil_r.
    by apply prefix_app_r. }
  assert (∀ out3, written out3 = listing ++ report →
            written (match groups with
                     | [] => (out3, 0)
                     | _ :: _ =>
                         match show_samples 1 (take 3 groups)
                                 (out3 ++ [Print MsgSampleHeader]) with
                         | (out, Some e) => uncaught out e
                         | (out, None) => (out, 0)
                         end
                     end).1 `prefix_of` listing ++ report) as Hsamples.
  { intros out3 Hout3. destruct groups as [|g groups]; [by rewrite <- Hout3 |].
    pose proof (show_samples_written (take 3 (g :: groups)) 1
                  (out3 ++ [Print MsgSampleHeader])) as Hs.
    destruct (show_samples _ _ _) as [out4 [e|]]; cbn [fst] in Hs |- *;
      unfold uncaught; cbn [fst];
      rewrite ?written_app, Hs, written_app, Hout3, !written_print; simpl;
      by rewrite ?app_nil_r. }
  unfold report in *. clear report.
  destruct (given (report_path a)) as [p|].
  - destruct (generate_report _ _ _) as [r | e]; [| apply Hcrash].
    destruct (writable w p); [| apply Hcrash].
    apply Hsamples. rewrite written_app, Hout2. reflexivity.
  - apply Hsamples. by rewrite Hout2, app_nil_r.
Qed.

Lemma generate_report_returns (original_count : nat) (cleaned : list Tweet)
    (groups : list (list Tweet)) :
  [] ∉ groups → ∃ r, generate_report original_count cleaned groups = Ok r.
Proof.
  intros Hne. unfold generate_report.
  change (mapM _ (imap pair groups)) with (describe_from 0 groups).
  destruct (describe_from_Ok groups Hne 0) as (details & -> & _). by eexists.
Qed.

(** X21: when the input holds a tweet at least, the loaded dates are all
    naive or all aware, the window is a representable number of hours and the
    report path, if given, can be written, the run ends with status 0 and
    has written exactly the requested files that can be written. *)
Theorem uniform_run_succeeds `{Platform} (clock : nat → Z) (w : world)
    (a : args) (s : str) (d : timedelta) (wa : bool) :
  fs w !! input_file a = Some (Text s) →
  timedelta_hours (window a) = Ok d →
  load_lines clock (readlines s) ≠ [] →
  (∀ t, t ∈ load_lines clock (readlines s) → aware (date t) = wa) →
  (∀ p, given (report_path a) = Some p → writable w p = true) →
  ∃ out, main clock w a = (out, 0) ∧ written out = requested w a.
Proof.
  intros Hfs Hd Hne Hsame Hrep. rewrite (main_loaded clock w a s d) by done.
  cbv zeta. set (tweets := load_lines clock (readlines s)) in *.
  set (detector := mk_DuplicateDetector (threshold a) d).
  destruct (find_duplicates_total detector tweets wa Hsame) as [idx Hfind].
  destruct (remove_duplicates_total _ _ _ Hfind)
    as (to_keep & cleaned & groups & Hrm & _).
  rewrite Hrm.
  destruct (remove_duplicates_counts _ _ _ _ Hrm) as [_ Hsizes].
  assert ([] ∉ groups) as Hgroups.
  { intros Hin. rewrite Forall_forall in Hsizes.
    specialize (Hsizes [] Hin). simpl in Hsizes. lia. }
  set (out1 := _ ++ [Print (MsgResults _ _ _ _)]).
  assert (written out1 = []) as Hout1 by done.
  set (out2 := match given (output a) with
               | Some path => out1 ++ save_cleaned_tweets w cleaned path
               | None => out1
               end).
  set (listing := match given (output a) with
                  | Some p => if writable w p then [p] else []
                  | None => []
                  end).
  assert (written out2 = listing) as Hout2.
  { unfold out2, listing. destruct (given (output a)) as [p|]; [| done].
    by rewrite written_app, Hout1, written_save. }
  unfold requested. fold listing.
  set (report := match given (report_path a) with
                 | Some p => if writable w p then [p] else []
                 | None => []
                 end).
  assert (∀ out3, written out3 = listing ++ report →
          ∃ out, match groups with
                 | [] => (out3, 0)
                 | _ :: _ =>
                     match show_samples 1 (take 3 groups)
                             (out3 ++ [Print MsgSampleHeader]) with
                     | (out, Some e) => uncaught out e
                     | (out, None) => (out, 0)
                     end
                 end = (out, 0)
                 ∧ written out = listing ++ report) as Hsamples.
  { intros out3 Hout3. destruct groups as [|g groups']; [by eauto |].
    pose proof (show_samples_written (take 3 (g :: groups')) 1
                  (out3 ++ [Print MsgSampleHeader])) as Hw.
    pose proof (show_samples_returns (take 3 (g :: groups'))) as Hr.
    assert ([] ∉ take 3 (g :: groups')) as Hne3.
    { intros Hin. apply Hgroups. by eapply subseteq_take. }
    specialize (Hr Hne3 1%nat (out3 ++ [Print MsgSampleHeader])).
    destruct (show_samples _ _ _) as [out4 oe]. simpl in Hw, Hr. subst oe.
    exists out4. split; [done |].
    rewrite Hw, written_app, Hout3. simpl. by rewrite app_nil_r. }
  unfold report in *. clear report.
  destruct (given (report_path a)) as [p|] eqn:Egiven.
  - destruct (generate_report_returns (length tweets) cleaned groups Hgroups)
      as [r ->].
    rewrite (Hrep p eq_refl) in Hsamples |- *.
    apply Hsamples. rewrite written_app, Hout2. reflexivity.
  - apply Hsamples. by rewrite Hout2, app_nil_r.
Qed.

Lemma uniform_run_succeeds_witness :
  ∃ out, @main example_platform example_clock plain_world example_args = (out, 0)
         ∧ written out = [lit "clean.txt"; lit "report.json"].
Proof.
  apply (@uniform_run_succeeds example_platform example_clock plain_world
           example_args plain_file (24 * 3600 * 1000000) false).
  - vm_compute; reflexivity.
  - reflexivity.
  - vm_compute. discriminate.
  - intros t Ht.
    assert (Forall (λ t, aware (date t) = false)
              (@load_lines example_platform example_clock (readlines plain_file)))
      as Hall by (vm_compute; repeat constructor).
    rewrite Forall_forall in Hall. by apply Hall.
  - intros p _. reflexivity.
Defined.

(** X22: when two of the loaded tweets have a naive and an aware date, the
    run prints its progress up to the detection, then the traceback of a
    [TypeError]; it ends with status 1 and writes no file. *)
Theorem mixed_run_crashes `{Platform} (clock : nat → Z) (w : world)
    (a : args) (s : str) (d : timedelta) (t1 t2 : Tweet) :
  fs w !! input_file a = Some (Text s) →
  timedelta_hours (window a) = Ok d →
  t1 ∈ load_lines clock (readlines s) →
  t2 ∈ load_lines clock (readlines s) →
  aware (date t1) ≠ aware (date t2) →
  main clock w a
  = ([ Print (MsgLoading (input_file a));
       Print (MsgLoaded (length (load_lines clock (readlines s))));
       Print (MsgThreshold (threshold a)); Print (MsgWindow (window a));
       Print MsgDetecting; Print (MsgTraceback TypeError) ], 1).
Proof.
  intros Hfs Hd H1 H2 Hmixed. rewrite (main_loaded clock w a s d); try done.
  2: { intros E. rewrite E in H1. by apply elem_of_nil in H1. }
  cbv zeta. set (tweets := load_lines clock (readlines s)) in *.
  destruct (remove_duplicates _ tweets) as [[cleaned groups] | e] eqn:Hrm.
  - apply remove_duplicates_inv in Hrm as (idx & _ & Hfind & _).
    apply find_duplicates_uniform in Hfind as [wa Hwa].
    destruct Hmixed. by rewrite (Hwa t1), (Hwa t2).
  - by apply remove_duplicates_raises in Hrm as ->.
Qed.

Lemma mixed_run_crashes_witness :
  @main example_platform example_clock mixed_world example_args
  = ([ Print (MsgLoading (lit "tweets.txt")); Print (MsgLoaded 2);
       Print (MsgThreshold (85 # 100)); Print (MsgWindow 24);
       Print MsgDetecting; Print (MsgTraceback TypeError) ], 1).
Proof.
  apply (@mixed_run_crashes example_platform example_clock mixed_world
           example_args mixed_file (24 * 3600 * 1000000)
           (example_tweet "2024-01-31T10:46:43.000Z" "good morning")
           (example_tweet "2024-01-31" "good morning")).
  - vm_compute; reflexivity.
  - reflexivity.
  - vm_compute. apply elem_of_cons. by left.
  - vm_compute. apply elem_of_cons. right. apply elem_of_cons. by left.
  - vm_compute. discriminate.
Defined.

(** X23: a window outside [-23999999976, 23999999999] hours makes
    [timedelta] overflow: the run ends with status 1 as soon as the input
    is found to exist, before anything is loaded. *)
Theorem window_out_of_range_crashes `{Platform} (clock : nat → Z) (w : world)
    (a : args) (f : file) :
  fs w !! input_file a = Some f →
  window a < -23999999976 ∨ 23999999999 < window a →
  main clock w a = ([Print (MsgTraceback OverflowError)], 1).
Proof.
  intros Hfs Hwin. unfold main, DuplicateDetector_init.
  rewrite Hfs, (proj2 (timedelta_hours_range (window a)) Hwin). reflexivity.
Qed.

Lemma window_out_of_range_crashes_witness :
  @main example_platform example_clock plain_world
    (mk_args (lit "tweets.txt") None None (85 # 100) 24000000000)
  = ([Print (MsgTraceback OverflowError)], 1).
Proof.
  apply (@window_out_of_range_crashes example_platform example_clock plain_world
           (mk_args (lit "tweets.txt") None None (85 # 100) 24000000000)
           (Text plain_file)).
  - vm_compute; reflexivity.
  - right. reflexivity.
Defined.

(** X24: a report path that cannot be written ends the run with an
    [OSError] and status 1, after the listing has been written. *)
Theorem unwritable_report_crashes `{Platform} (clock : nat → Z) (w : world)
    (a : args) (s : str) (d : timedelta) (wa : bool) (p : str) :
  fs w !! input_file a = Some (Text s) →
  timedelta_hours (window a) = Ok d →
  load_lines clock (readlines s) ≠ [] →
  (∀ t, t ∈ load_lines clock (readlines s) → aware (date t) = wa) →
  given (report_path a) = Some p → writable w p = false →
  ∃ out, main clock w a = (out ++ [Print (MsgTraceback OSError)], 1)
         ∧ written out = requested w a.
Proof.
  intros Hfs Hd Hne Hsame Hgiven Hlocked.
  rewrite (main_loaded clock w a s d) by done.
  cbv zeta. set (tweets := load_lines clock (readlines s)) in *.
  set (detector := mk_DuplicateDetector (threshold a) d).
  destruct (find_duplicates_total detector tweets wa Hsame) as [idx Hfind].
  destruct (remove_duplicates_total _ _ _ Hfind)
    as (to_keep & cleaned & groups & Hrm & _).
  rewrite Hrm.
  destruct (remove_duplicates_counts _ _ _ _ Hrm) as [_ Hsizes].
  assert ([] ∉ groups) as Hgroups.
  { intros Hin. rewrite Forall_forall in Hsizes.
    specialize (Hsizes [] Hin). simpl in Hsizes. lia. }
  destruct (generate_report_returns (length tweets) cleaned groups Hgroups)
    as [r Hr].
  rewrite Hgiven, Hr, Hlocked. unfold uncaught. eexists. split; [reflexivity |].
  unfold requested. rewrite Hgiven, Hlocked, app_nil_r.
  destruct (given (output a)) as [q|]; [| done].
  by rewrite written_app, written_save.
Qed.

Lemma unwritable_report_crashes_witness :
  ∃ out, @main example_platform example_clock locked_world example_args
         = (out ++ [Print (MsgTraceback OSError)], 1)
         ∧ written out = [].
Proof.
  apply (@unwritable_report_crashes example_platform example_clock locked_world
           example_args plain_file (24 * 3600 * 1000000) false
           (lit "report.json")).
  - vm_compute; reflexivity.
  - reflexivity.
  - vm_compute. discriminate.
  - intros t Ht.
    assert (Forall (λ t, aware (date t) = false)
              (@load_lines example_platform example_clock (readlines plain_file)))
      as Hall by (vm_compute; repeat constructor).
    rewrite Forall_forall in Hall. by apply Hall.
  - reflexivity.
  - reflexivity.
Defined.

(** ** The same text twice *)

Lemma startswith_refl (s : str) : startswith s s = true.
Proof.
  induction s as [|c s IH]; simpl; [done |].
  unfold chr_eqb. by rewrite N.eqb_refl, IH.
Qed.

Lemma similarity_same (x : str) :
  x ≠ [] → (9 # 10 <= calculate_content_similarity x x)%Q.
Proof.
  intros Hx. unfold calculate_content_similarity.
  destruct x as [|c x]; [done |].
  assert (contains (c :: x) (c :: x) = true) as ->.
  { cbn [contains]. by rewrite startswith_refl. }
  apply max_floor_ge_floor.
Qed.

(** X25: at a threshold of 0.9 or less, of two tweets with the same
    comparison text, not empty, and dates within the window, one at least
    ends up in a group: the later one, or the earlier one as a member of
    the group of an anchor before it. *)
Theorem identical_texts_are_noticed (self : DuplicateDetector)
    (tweets : list Tweet) (groups : list (list nat)) (i j : nat) (ti tj : Tweet) :
  (content_threshold self <= 9 # 10)%Q →
  find_duplicates self tweets = Ok groups →
  (i < j)%nat → tweets !! i = Some ti → tweets !! j = Some tj →
  content ti = content tj → content ti ≠ [] →
  are_dates_close self (date ti) (date tj) = Ok true →
  ∃ g, g ∈ groups ∧ (j ∈ g ∨ i ∈ g ∧ head g ≠ Some i).
Proof.
  intros Hthr Hfind Hij Hti Htj Hsame Hne Hclose.
  destruct (decide (Exists (λ g, j ∈ g ∨ i ∈ g ∧ head g ≠ Some i) groups))
    as [Hex | Hnone].
  { apply Exists_exists in Hex as (g & Hg & Hcase). eauto. }
  exfalso. rewrite <- Forall_Exists_neg, Forall_forall in Hnone.
  destruct (find_duplicates_verdicts _ _ _ Hfind) as [_ Hu].
  destruct (Hu i j) as (ti' & tj' & Hti' & Htj' & Hun).
  - split; [done |]. by eapply lookup_lt_Some.
  - intros g Hg Hig. destruct (decide (head g = Some i)); [done |].
    destruct (Hnone g Hg). auto.
  - intros g Hg Hjg. destruct (Hnone g Hg). auto.
  - assert (ti' = ti) as -> by congruence. assert (tj' = tj) as -> by congruence.
    destruct Hun as [Hfar | [_ Hlow]]; [congruence |].
    rewrite <- Hsame in Hlow. pose proof (similarity_same _ Hne) as Hhigh.
    apply Hlow. exact (Qle_trans _ _ _ Hthr Hhigh).
Qed.

Lemma identical_texts_are_noticed_witness :
  find_duplicates default_detector links_only = Ok [[0; 2]]%nat
  ∧ ∃ g, g ∈ [[0; 2]]%nat ∧ ((2 ∈ g)%nat ∨ (0 ∈ g)%nat ∧ head g ≠ Some 0%nat).
Proof.
  split; [vm_compute; reflexivity |].
  apply (identical_texts_are_noticed default_detector links_only [[0; 2]]%nat
           0 2 chain_A chain_A).
  - vm_compute. discriminate.
  - vm_compute; reflexivity.
  - lia.
  - reflexivity.
  - reflexivity.
  - reflexivity.
  - vm_compute. discriminate.
  - vm_compute; reflexivity.
Defined.
